(** * The TinyMCE HTML schema engine ([api/html/Schema.ts])

    A shallow embedding of [compileSchema] and of the [Schema] constructor
    with its mutators ([addValidElements], [setValidElements],
    [addCustomElements], [addValidChildren]) and queries ([getElementRule],
    [isValid], [isValidChild], [getBlockElements]).

    Conventions of the embedding.
    - A JavaScript string is a [string]: a sequence of code units in the
      range 0..255.  Case mapping is the one of the ASCII letters.
    - A JavaScript object used as a dictionary is a [gmap]; only own
      properties are represented.  In a [SchemaMap] (a set of names) every
      stored value is an empty marker object, which is [()].
    - The child sets of the children graph are objects that are shared and
      updated in place, so they live in an explicit store ([Heap]) and the
      graph maps a parent name to a location.
    - Code that can raise returns an [outcome]: [Normal v], or
      [Throws e] for a JavaScript exception.  [Unsupported] marks an input on
      which the embedding of the built-in [RegExp] constructor is not
      defined (see [new_RegExp]). *)

From Stdlib Require Import Ascii String ZArith Bool.
From stdpp Require Import base option list gmap strings fin_maps.

Local Open Scope string_scope.
Local Open Scope list_scope.

(** ** Outcomes of JavaScript code *)

Inductive jsError : Type := TypeError | SyntaxError.

Inductive outcome (A : Type) : Type :=
| Normal (a : A)
| Throws (e : jsError)
| Unsupported.

Arguments Normal {A} a.
Arguments Throws {A} e.
Arguments Unsupported {A}.

#[global] Instance outcome_ret : MRet outcome := fun _ a => Normal a.
#[global] Instance outcome_bind : MBind outcome := fun _ _ f m =>
  match m with
  | Normal a => f a
  | Throws e => Throws e
  | Unsupported => Unsupported
  end.

Definition completes {A} (m : outcome A) : bool :=
  match m with Normal _ => true | _ => false end.

Definition throws {A} (m : outcome A) : bool :=
  match m with Throws _ => true | _ => false end.

(** [for (...) body] over the items of an array, threading the state and
    stopping at the first exception. *)
Fixpoint forEach {A S : Type} (body : A → S → outcome S) (items : list A) (s : S)
  : outcome S :=
  match items with
  | [] => Normal s
  | x :: rest => s' ← body x s; forEach body rest s'
  end.

(** ** Characters and strings *)

Definition code (c : ascii) : N := N_of_ascii c.

Definition in_range (lo hi : N) (c : ascii) : bool :=
  ((lo <=? code c) && (code c <=? hi))%N.

Definition mem_char (c : ascii) (s : string) : bool :=
  existsb (fun d => Ascii.eqb c d) (list_ascii_of_string s).

(** [\s] restricted to code units below 256. *)
Definition is_space (c : ascii) : bool :=
  in_range 9 13 c || (code c =? 32)%N || (code c =? 160)%N.

(** [\w] *)
Definition is_word (c : ascii) : bool :=
  in_range 48 57 c || in_range 65 90 c || in_range 97 122 c || (code c =? 95)%N.

(** Line terminators, which [.] does not match. *)
Definition is_line_terminator (c : ascii) : bool :=
  (code c =? 10)%N || (code c =? 13)%N.

Definition lower_char (c : ascii) : ascii :=
  if in_range 65 90 c then ascii_of_N (code c + 32) else c.

Definition upper_char (c : ascii) : ascii :=
  if in_range 97 122 c then ascii_of_N (code c - 32) else c.

Fixpoint map_string (f : ascii → ascii) (s : string) : string :=
  match s with
  | EmptyString => EmptyString
  | String c s' => String (f c) (map_string f s')
  end.

Definition toLowerCase : string → string := map_string lower_char.
Definition toUpperCase : string → string := map_string upper_char.

Fixpoint drop_while (p : ascii → bool) (s : string) : string :=
  match s with
  | String c s' => if p c then drop_while p s' else s
  | EmptyString => EmptyString
  end.

Definition rev_string (s : string) : string :=
  string_of_list_ascii (reverse (list_ascii_of_string s)).

(** Modelled from the spec: [Tools.trim] is not under src/; it removes the
    white space at both ends of the string ([/^\s*|\s*$/g] replaced by the
    empty string) and maps [undefined] to the empty string. *)
Definition trim (s : string) : string :=
  rev_string (drop_while is_space (rev_string (drop_while is_space s))).

(** [String.prototype.split] with a separator that matches exactly one
    code unit (a one-character string, or a character class such as
    [/[, ]/]).  The result is never empty: [split_at p ""] is [[""]]. *)
Fixpoint split_at (p : ascii → bool) (s : string) : list string :=
  match s with
  | EmptyString => [EmptyString]
  | String c s' =>
      if p c then EmptyString :: split_at p s'
      else match split_at p s' with
           | [] => [String c EmptyString]
           | w :: ws => String c w :: ws
           end
  end.

Definition is_char (d : ascii) : ascii → bool := fun c => Ascii.eqb c d.

(** [split] of Schema.ts: [items = Tools.trim(items); return items ?
    items.split(delim || ' ') : []]. *)
Definition split (items : string) (delim : ascii) : list string :=
  let items := trim items in
  if decide (items = "") then [] else split_at (is_char delim) items.

(** Modelled from the spec: [Tools.explode] is not under src/; without a
    separator argument it splits at commas and trims every piece; a falsy
    argument is returned as it is. *)
Definition explode (s : string) : list string :=
  if decide (s = "") then [] else trim <$> split_at (is_char ",") s.

(** A falsy optional string: [undefined] or the empty string. *)
Definition truthy (o : option string) : option string :=
  match o with
  | Some s => if decide (s = "") then None else Some s
  | None => None
  end.

(** [SchemaMap]: an object whose keys are names and whose values are
    empty objects. *)
Abbreviation SchemaMap := (gmap string unit).

(** Modelled from the spec: [Tools.makeMap] is not under src/; it splits
    the items at the separator and enters each piece as a key (with a fresh
    empty object as value) into the given map; falsy items give no key. *)
Definition makeMap (items : option string) (sep : ascii → bool) (map : SchemaMap)
  : SchemaMap :=
  match truthy items with
  | Some s => foldr (fun item map => <[item := ()]> map) map (split_at sep s)
  | None => map
  end.

(** Modelled from the spec: [Tools.extend] is not under src/; it copies
    the own properties of the second object into the first. *)
Definition extend (obj ext : SchemaMap) : SchemaMap := ext ∪ obj.

Definition comma_or_space (c : ascii) : bool := is_char "," c || is_char " " c.

(** Modelled from the spec: [Tools.inArray] is not under src/; it is the
    index of the first element equal to the value, and -1 when there is
    none. *)
Fixpoint inArray (a : list string) (v : string) : Z :=
  match a with
  | [] => -1
  | x :: rest =>
      if decide (x = v) then 0%Z
      else let i := inArray rest v in if (i <? 0)%Z then (-1)%Z else (i + 1)%Z
  end.

(** [Array.prototype.splice(start, 1)]: a negative [start] counts from the
    end (clamped at 0), a [start] beyond the end is the length, and at most
    one element is removed. *)
Definition splice1 (a : list string) (start : Z) : list string :=
  let len := Z.of_nat (length a) in
  let actual := if (start <? 0)%Z then Z.max (len + start) 0 else Z.min start len in
  take (Z.to_nat actual) a ++ drop (S (Z.to_nat actual)) a.

(** ** Regular expressions

    The built-in [RegExp] as a backtracking matcher over the constructs
    the regular expressions of Schema.ts use: character classes, [^] and
    [$] (no [m] flag), sequence, alternation, the greedy quantifiers [?],
    [*] and [+], and numbered capture groups. *)

Inductive cls : Type :=
| one (c : ascii)                 (* a literal character *)
| oneOf (s : string)              (* [abc] *)
| noneOf (s : string)             (* [^abc] *)
| dot                             (* . *)
| word                            (* \w *)
| oneOfRanges (l : list (N * N)). (* [a-z...] by code-unit ranges *)

Definition cls_accepts (k : cls) (c : ascii) : bool :=
  match k with
  | one d => Ascii.eqb c d
  | oneOf s => mem_char c s
  | noneOf s => negb (mem_char c s)
  | dot => negb (is_line_terminator c)
  | word => is_word c
  | oneOfRanges l => existsb (fun r => in_range r.1 r.2 c) l
  end.

Inductive re : Type :=
| Empty
| Chr (k : cls)
| Bol                             (* ^ *)
| Eol                             (* $ *)
| Cat (r1 r2 : re)
| Or (r1 r2 : re)                 (* r1|r2, r1 tried first *)
| Opt (r : re)                    (* r? *)
| Star (r : re)                   (* r* *)
| Plus (r : re)                   (* r+ *)
| Cap (n : nat) (r : re).         (* the n-th capture group *)

(** The capture groups that took part in the match. *)
Definition Captures : Type := gmap nat string.

Definition or_else {A} (x : option A) (y : option A) : option A :=
  match x with Some a => Some a | None => y end.

(** [rmatch r pos s c k]: match [r] against the input [s] that starts at
    index [pos], then continue with [k]; alternatives are tried in the
    order of the ECMAScript semantics, and an iteration of [*] that
    consumes nothing is rejected. *)
Fixpoint rmatch (r : re) (pos : nat) (s : string) (c : Captures)
    (k : nat → string → Captures → option Captures) {struct r} : option Captures :=
  match r with
  | Empty => k pos s c
  | Chr cl =>
      match s with
      | String a s' => if cls_accepts cl a then k (S pos) s' c else None
      | EmptyString => None
      end
  | Bol => if decide (pos = 0) then k pos s c else None
  | Eol => if decide (s = "") then k pos s c else None
  | Cat r1 r2 => rmatch r1 pos s c (fun pos' s' c' => rmatch r2 pos' s' c' k)
  | Or r1 r2 => or_else (rmatch r1 pos s c k) (rmatch r2 pos s c k)
  | Opt r1 => or_else (rmatch r1 pos s c k) (k pos s c)
  | Star r1 =>
      (fix loop (fuel : nat) (pos : nat) (s : string) (c : Captures) {struct fuel} :=
         match fuel with
         | O => k pos s c
         | S fuel' =>
             or_else
               (rmatch r1 pos s c (fun pos' s' c' =>
                  if Nat.ltb (String.length s') (String.length s)
                  then loop fuel' pos' s' c' else None))
               (k pos s c)
         end) (String.length s) pos s c
  | Plus r1 =>
      rmatch r1 pos s c (fun pos1 s1 c1 =>
        (fix loop (fuel : nat) (pos : nat) (s : string) (c : Captures) {struct fuel} :=
           match fuel with
           | O => k pos s c
           | S fuel' =>
               or_else
                 (rmatch r1 pos s c (fun pos' s' c' =>
                    if Nat.ltb (String.length s') (String.length s)
                    then loop fuel' pos' s' c' else None))
                 (k pos s c)
           end) (String.length s1) pos1 s1 c1)
  | Cap n r1 =>
      rmatch r1 pos s c (fun pos' s' c' =>
        k pos' s' (<[n := substring 0 (pos' - pos) s]> c'))
  end.

Fixpoint drop_string (n : nat) (s : string) : string :=
  match n, s with
  | S n', String _ s' => drop_string n' s'
  | _, _ => s
  end.

(** [RegExp.prototype.exec] without the [g] flag: the first start index,
    from the left, at which the expression matches. *)
Fixpoint exec_from (r : re) (fuel : nat) (pos : nat) (s : string) : option Captures :=
  match rmatch r pos s ∅ (fun _ _ c => Some c) with
  | Some c => Some c
  | None =>
      match fuel, s with
      | S fuel', String _ s' => exec_from r fuel' (S pos) s'
      | _, _ => None
      end
  end.

Definition RegExp_exec (r : re) (s : string) : option Captures :=
  exec_from r (String.length s) 0 s.

Definition RegExp_test (r : re) (s : string) : bool :=
  bool_decide (is_Some (RegExp_exec r s)).

(** [new RegExp(source)] for the sources [patternToRegExp] produces from
    names made of ordinary characters, [.] and the wild cards: an optional
    leading [^], then atoms (an ordinary character or [.]) each followed by
    at most one of [*], [+], [?], then an optional final [$].  On any other
    source (one with [\ | ( ) [ ] { }], an assertion elsewhere or a
    quantifier with nothing to repeat) the embedding gives [Unsupported]. *)
Definition is_quantifier (c : ascii) : bool := mem_char c "*+?".

Definition is_syntax_char (c : ascii) : bool := mem_char c "\|()[]{}^$*+?".

Definition quantify (q : ascii) (r : re) : re :=
  if Ascii.eqb q "*" then Star r else if Ascii.eqb q "+" then Plus r else Opt r.

Definition atom_of (c : ascii) : re := if Ascii.eqb c "." then Chr dot else Chr (one c).

Fixpoint parse_terms (fuel : nat) (src : string) : outcome re :=
  match fuel with
  | O => Unsupported
  | S fuel' =>
      match src with
      | EmptyString => Normal Empty
      | String "$" EmptyString => Normal Eol
      | String c rest =>
          if is_syntax_char c then Unsupported
          else match rest with
               | String q rest' =>
                   if is_quantifier q
                   then match rest' with
                        | String q' _ =>
                            if is_quantifier q' then Unsupported
                            else r ← parse_terms fuel' rest';
                                 Normal (Cat (quantify q (atom_of c)) r)
                        | EmptyString => Normal (quantify q (atom_of c))
                        end
                   else r ← parse_terms fuel' rest; Normal (Cat (atom_of c) r)
               | EmptyString => Normal (atom_of c)
               end
      end
  end.

Definition new_RegExp (source : string) : outcome re :=
  match source with
  | String "^" rest => r ← parse_terms (S (String.length rest)) rest; Normal (Cat Bol r)
  | _ => parse_terms (S (String.length source)) source
  end.

(** [str.replace(/([?+*])/g, '.$1')] *)
Fixpoint dot_wildcards (str : string) : string :=
  match str with
  | EmptyString => EmptyString
  | String c rest =>
      if is_quantifier c then String "." (String c (dot_wildcards rest))
      else String c (dot_wildcards rest)
  end.

(** [patternToRegExp]: converts a wild-card expression to a regular
    expression, for example [*a] becomes [/^.*a$/]. *)
Definition patternToRegExp (str : string) : outcome re :=
  new_RegExp ("^" +:+ dot_wildcards str +:+ "$").

(** [hasPatternsRegExp = /[*?+]/] *)
Definition hasPatternsRegExp : re := Chr (oneOf "*?+").

Fixpoint seq (rs : list re) : re :=
  match rs with
  | [] => Empty
  | [r] => r
  | r :: rest => Cat r (seq rest)
  end.

(** [/^([#+\-])?([^\[!\/]+)(?:\/([^\[!]+))?(?:(!?)\[([^\]]+)])?$/] *)
Definition elementRuleRegExp : re :=
  seq [ Bol;
        Opt (Cap 1 (Chr (oneOf "#+-")));
        Cap 2 (Plus (Chr (noneOf "[!/")));
        Opt (seq [Chr (one "/"); Cap 3 (Plus (Chr (noneOf "[!")))]);
        Opt (seq [Cap 4 (Opt (Chr (one "!"))); Chr (one "[");
                  Cap 5 (Plus (Chr (noneOf "]"))); Chr (one "]")]);
        Eol ].

(** [/^([!\-])?(\w+[\\:]:\w+|[^=:<]+)?(?:([=:<])(.* ))?$/] (group 4 is
    [.] repeated with the star quantifier) *)
Definition attrRuleRegExp : re :=
  seq [ Bol;
        Opt (Cap 1 (Chr (oneOf "!-")));
        Opt (Cap 2 (Or (seq [Plus (Chr word); Chr (oneOf "\:"); Chr (one ":");
                             Plus (Chr word)])
                       (Plus (Chr (noneOf "=:<")))));
        Opt (seq [Cap 3 (Chr (oneOf "=:<")); Cap 4 (Star (Chr dot))]);
        Eol ].

(** [/^(~)?(.+)$/] *)
Definition customElementRegExp : re :=
  seq [ Bol; Opt (Cap 1 (Chr (one "~"))); Cap 2 (Plus (Chr dot)); Eol ].

(** [/^([+\-]?)([A-Za-z0-9_\-.·À-ÖØ-öø-ͽ...]+)\[([^\]]+)]$/],
    the name class cut at code unit 255. *)
Definition childNameClass : cls :=
  oneOfRanges [ (65, 90); (97, 122); (48, 57); (95, 95); (45, 45); (46, 46);
                (183, 183); (192, 214); (216, 246); (248, 255) ]%N.

Definition childRuleRegExp : re :=
  seq [ Bol; Cap 1 (Opt (Chr (oneOf "+-"))); Cap 2 (Plus (Chr childNameClass));
        Chr (one "["); Cap 3 (Plus (Chr (noneOf "]"))); Chr (one "]"); Eol ].

(** [attrName.replace(/[\\:]:/g, ':')] *)
Fixpoint replace_escaped_colon (s : string) : string :=
  match s with
  | String a ((String b rest') as rest) =>
      if mem_char a "\:" && Ascii.eqb b ":"
      then String ":" (replace_escaped_colon rest')
      else String a (replace_escaped_colon rest)
  | _ => s
  end.

(** ** Data model *)

Record Attribute : Type := mkAttribute {
  required : bool;
  defaultValue : option string;
  forcedValue : option string;
  validValues : option SchemaMap
}.

(** The attribute object [{}]. *)
Definition emptyAttribute : Attribute := mkAttribute false None None None.

Record DefaultAttribute : Type := mkDefaultAttribute {
  name : string;
  value : string
}.

(** An attribute rule filed under [attributePatterns]: the attribute
    object together with its compiled [pattern]. *)
Record AttributePattern : Type := mkAttributePattern {
  pattern_attr : Attribute;
  attr_pattern : re
}.

(** An element rule.  A field that is [undefined] on the JavaScript object
    is [None] (or [false] for the three flags, which are only ever set to
    [true] or deleted).  The object [{}] that [addCustomElements] stores
    when it has nothing to clone has no [attributes] at all. *)
Record SchemaElement : Type := mkSchemaElement {
  attributes : option (gmap string Attribute);
  attributesOrder : option (list string);
  attributesDefault : option (list DefaultAttribute);
  attributesForced : option (list DefaultAttribute);
  attributePatterns : option (list AttributePattern);
  attributesRequired : option (list string);
  paddEmpty : bool;
  removeEmpty : bool;
  removeEmptyAttrs : bool;
  outputName : option string;
  pattern : option re
}.

Definition emptyObject : SchemaElement :=
  mkSchemaElement None None None None None None false false false None None.

Definition set_attributes v (e : SchemaElement) : SchemaElement :=
  mkSchemaElement v (attributesOrder e) (attributesDefault e) (attributesForced e)
    (attributePatterns e) (attributesRequired e) (paddEmpty e) (removeEmpty e)
    (removeEmptyAttrs e) (outputName e) (pattern e).
Definition set_attributesOrder v (e : SchemaElement) : SchemaElement :=
  mkSchemaElement (attributes e) v (attributesDefault e) (attributesForced e)
    (attributePatterns e) (attributesRequired e) (paddEmpty e) (removeEmpty e)
    (removeEmptyAttrs e) (outputName e) (pattern e).
Definition set_attributesDefault v (e : SchemaElement) : SchemaElement :=
  mkSchemaElement (attributes e) (attributesOrder e) v (attributesForced e)
    (attributePatterns e) (attributesRequired e) (paddEmpty e) (removeEmpty e)
    (removeEmptyAttrs e) (outputName e) (pattern e).
Definition set_attributesForced v (e : SchemaElement) : SchemaElement :=
  mkSchemaElement (attributes e) (attributesOrder e) (attributesDefault e) v
    (attributePatterns e) (attributesRequired e) (paddEmpty e) (removeEmpty e)
    (removeEmptyAttrs e) (outputName e) (pattern e).
Definition set_attributePatterns v (e : SchemaElement) : SchemaElement :=
  mkSchemaElement (attributes e) (attributesOrder e) (attributesDefault e)
    (attributesForced e) v (attributesRequired e) (paddEmpty e) (removeEmpty e)
    (removeEmptyAttrs e) (outputName e) (pattern e).
Definition set_attributesRequired v (e : SchemaElement) : SchemaElement :=
  mkSchemaElement (attributes e) (attributesOrder e) (attributesDefault e)
    (attributesForced e) (attributePatterns e) v (paddEmpty e) (removeEmpty e)
    (removeEmptyAttrs e) (outputName e) (pattern e).
Definition set_paddEmpty v (e : SchemaElement) : SchemaElement :=
  mkSchemaElement (attributes e) (attributesOrder e) (attributesDefault e)
    (attributesForced e) (attributePatterns e) (attributesRequired e) v (removeEmpty e)
    (removeEmptyAttrs e) (outputName e) (pattern e).
Definition set_removeEmpty v (e : SchemaElement) : SchemaElement :=
  mkSchemaElement (attributes e) (attributesOrder e) (attributesDefault e)
    (attributesForced e) (attributePatterns e) (attributesRequired e) (paddEmpty e) v
    (removeEmptyAttrs e) (outputName e) (pattern e).
Definition set_removeEmptyAttrs v (e : SchemaElement) : SchemaElement :=
  mkSchemaElement (attributes e) (attributesOrder e) (attributesDefault e)
    (attributesForced e) (attributePatterns e) (attributesRequired e) (paddEmpty e)
    (removeEmpty e) v (outputName e) (pattern e).
Definition set_outputName v (e : SchemaElement) : SchemaElement :=
  mkSchemaElement (attributes e) (attributesOrder e) (attributesDefault e)
    (attributesForced e) (attributePatterns e) (attributesRequired e) (paddEmpty e)
    (removeEmpty e) (removeEmptyAttrs e) v (pattern e).
Definition set_pattern v (e : SchemaElement) : SchemaElement :=
  mkSchemaElement (attributes e) (attributesOrder e) (attributesDefault e)
    (attributesForced e) (attributePatterns e) (attributesRequired e) (paddEmpty e)
    (removeEmpty e) (removeEmptyAttrs e) (outputName e) v.

(** The store of the child-set objects of the children graph. *)
Definition loc : Type := positive.

Record Heap : Type := mkHeap {
  objects : gmap loc SchemaMap;
  next : loc
}.

Definition emptyHeap : Heap := mkHeap ∅ 1%positive.

Definition alloc (o : SchemaMap) (h : Heap) : loc * Heap :=
  (next h, mkHeap (<[next h := o]> (objects h)) (Pos.succ (next h))).

Definition store (l : loc) (o : SchemaMap) (h : Heap) : Heap :=
  mkHeap (<[l := o]> (objects h)) (next h).

(** An entry of the table [compileSchema] builds. *)
Record SchemaItem : Type := mkSchemaItem {
  item_attributes : gmap string Attribute;
  item_attributesOrder : list string;
  item_children : loc
}.

Inductive SchemaType : Type := html4 | html5 | html5_strict.

#[global] Instance SchemaType_eq_dec : EqDecision SchemaType.
Proof. solve_decision. Defined.

(** ** [compileSchema]: the base grammar of a schema type

    The memoisation through [mapCache[type]] is not represented: the
    constructor clears that entry ([addValidChildren] runs in every
    construction) before anything updates a cached child set in place, so a
    cached table is always the table a fresh compilation gives. *)

Definition CompileState : Type := Heap * gmap string SchemaItem.

(** [arrayToMap(array, obj)]: every name of the array as a key, with
    [obj] (or a fresh empty object) as its value. *)
Definition arrayToMap {V} (array : list string) (obj : V) : gmap string V :=
  list_to_map ((fun a => (a, obj)) <$> array).

(** [add(name, attributes, children)]; an omitted argument is the empty
    string; [globalAttributes] is the variable of the enclosing function as
    it stands at the call. *)
Definition add (globalAttributes : string) (name attributes children : string)
    (st : CompileState) : CompileState :=
  let children := split children " " in
  let names := split name " " in
  foldl (fun (st : CompileState) (n : string) =>
           let attributesOrder := split (globalAttributes +:+ " " +:+ attributes) " " in
           let '(l, h) := alloc (arrayToMap children ()) st.1 in
           (h, <[n := mkSchemaItem (arrayToMap attributesOrder emptyAttribute)
                        attributesOrder l]> st.2))
        st (rev names).

(** [addAttrs(name, attributes)] *)
Definition addAttrs (name attributes : string) (st : CompileState)
    : outcome CompileState :=
  let names := split name " " in
  let attrs := split attributes " " in
  forEach (fun (n : string) (st : CompileState) =>
             forEach (fun (a : string) (st : CompileState) =>
                        match st.2 !! n with
                        | None => Throws TypeError
                        | Some schemaItem =>
                            Normal (st.1,
                                    <[n := mkSchemaItem
                                             (<[a := emptyAttribute]> (item_attributes schemaItem))
                                             (item_attributesOrder schemaItem ++ [a])
                                             (item_children schemaItem)]> st.2)
                        end)
                     attrs st)
          (rev names) st.

Inductive declaration : Type :=
| Add (name attributes children : string)
| AddAttrs (name attributes : string).

Definition declare (globalAttributes : string) (d : declaration) (st : CompileState)
    : outcome CompileState :=
  match d with
  | Add n a c => Normal (add globalAttributes n a c st)
  | AddAttrs n a => addAttrs n a st
  end.

(** [delete schema[name].children[child]] on an existing entry. *)
Definition delete_child (name child : string) (st : CompileState) : CompileState :=
  match st.2 !! name with
  | Some item =>
      match objects st.1 !! item_children item with
      | Some o => (store (item_children item) (delete child o) st.1, st.2)
      | None => st
      end
  | None => st
  end.

Definition compileSchema (type : option SchemaType) : outcome CompileState :=
  let not_html4 := negb (bool_decide (type = Some html4)) in
  let not_strict := negb (bool_decide (type = Some html5_strict)) in
  let globalAttributes := "id accesskey class dir lang style tabindex title role" in
  let blockContent :=
    "address blockquote div dl fieldset form h1 h2 h3 h4 h5 h6 hr menu ol p pre table ul" in
  let phrasingContent :=
    "a abbr b bdo br button cite code del dfn em embed i iframe img input ins kbd " +:+
    "label map noscript object q s samp script select small span strong sub sup " +:+
    "textarea u var #text #comment" in
  let globalAttributes :=
    if not_html4
    then globalAttributes +:+ " contenteditable contextmenu draggable dropzone " +:+
         "hidden spellcheck translate"
    else globalAttributes in
  let blockContent :=
    if not_html4
    then blockContent +:+ " article aside details dialog figure main header footer hgroup section nav"
    else blockContent in
  let phrasingContent :=
    if not_html4
    then phrasingContent +:+ " audio canvas command datalist mark meter output picture " +:+
         "progress time wbr video ruby bdi keygen"
    else phrasingContent in
  let globalAttributes :=
    if not_strict then globalAttributes +:+ " xml:lang" else globalAttributes in
  let html4PhrasingContent := "acronym applet basefont big font strike tt" in
  let phrasingContent :=
    if not_strict then phrasingContent +:+ " " +:+ html4PhrasingContent else phrasingContent in
  let html4BlockContent := "center dir isindex noframes" in
  let blockContent :=
    if not_strict then blockContent +:+ " " +:+ html4BlockContent else blockContent in
  let flowContent := blockContent +:+ " " +:+ phrasingContent in
  let legacy_elements :=
    if not_strict
    then ((fun n => Add n "" phrasingContent) <$> split html4PhrasingContent " ") ++
         ((fun n => Add n "" flowContent) <$> split html4BlockContent " ")
    else [] in
  let base :=
    [ Add "html" "manifest" "head body";
      Add "head" "" "base command link meta noscript script style title";
      Add "title hr noscript br" "" "";
      Add "base" "href target" "";
      Add "link" "href rel media hreflang type sizes hreflang" "";
      Add "meta" "name http-equiv content charset" "";
      Add "style" "media type scoped" "";
      Add "script" "src async defer type charset" "";
      Add "body" ("onafterprint onbeforeprint onbeforeunload onblur onerror onfocus " +:+
                  "onhashchange onload onmessage onoffline ononline onpagehide onpageshow " +:+
                  "onpopstate onresize onscroll onstorage onunload") flowContent;
      Add "address dt dd div caption" "" flowContent;
      Add ("h1 h2 h3 h4 h5 h6 pre p abbr code var samp kbd sub sup i b u bdo span legend " +:+
           "em strong small s cite dfn") "" phrasingContent;
      Add "blockquote" "cite" flowContent;
      Add "ol" "reversed start type" "li";
      Add "ul" "" "li";
      Add "li" "value" flowContent;
      Add "dl" "" "dt dd";
      Add "a" "href target rel media hreflang type" phrasingContent;
      Add "q" "cite" phrasingContent;
      Add "ins del" "cite datetime" flowContent;
      Add "img" "src sizes srcset alt usemap ismap width height" "";
      Add "iframe" "src name width height" flowContent;
      Add "embed" "src type width height" "";
      Add "object" "data type typemustmatch name usemap form width height"
          (flowContent +:+ " " +:+ "param");
      Add "param" "name value" "";
      Add "map" "name" (flowContent +:+ " " +:+ "area");
      Add "area" "alt coords shape href target rel media hreflang type" "";
      Add "table" "border"
          ("caption colgroup thead tfoot tbody tr" +:+ (if not_html4 then "" else " col"));
      Add "colgroup" "span" "col";
      Add "col" "span" "";
      Add "tbody thead tfoot" "" "tr";
      Add "tr" "" "td th";
      Add "td" "colspan rowspan headers" flowContent;
      Add "th" "colspan rowspan headers scope abbr" flowContent;
      Add "form" "accept-charset action autocomplete enctype method name novalidate target"
          flowContent;
      Add "fieldset" "disabled form name" (flowContent +:+ " " +:+ "legend");
      Add "label" "form for" phrasingContent;
      Add "input" ("accept alt autocomplete checked dirname disabled form formaction formenctype formmethod formnovalidate " +:+
                   "formtarget height list max maxlength min multiple name pattern readonly required size src step type value width") "";
      Add "button" "disabled form formaction formenctype formmethod formnovalidate formtarget name type value"
          (if not_html4 then phrasingContent else flowContent);
      Add "select" "disabled form multiple name required size" "option optgroup";
      Add "optgroup" "disabled label" "option";
      Add "option" "disabled label selected value" "";
      Add "textarea" "cols dirname disabled form maxlength name readonly required rows wrap" "";
      Add "menu" "type label" (flowContent +:+ " " +:+ "li");
      Add "noscript" "" flowContent ] in
  let html5_elements :=
    if not_html4
    then
      [ Add "wbr" "" "";
        Add "ruby" "" (phrasingContent +:+ " " +:+ "rt rp");
        Add "figcaption" "" flowContent;
        Add "mark rt rp summary bdi" "" phrasingContent;
        Add "canvas" "width height" flowContent;
        Add "video" ("src crossorigin poster preload autoplay mediagroup loop " +:+
                     "muted controls width height buffered")
            (flowContent +:+ " " +:+ "track source");
        Add "audio" ("src crossorigin preload autoplay mediagroup loop muted controls " +:+
                     "buffered volume")
            (flowContent +:+ " " +:+ "track source");
        Add "picture" "" "img source";
        Add "source" "src srcset type media sizes" "";
        Add "track" "kind src srclang label default" "";
        Add "datalist" "" (phrasingContent +:+ " " +:+ "option");
        Add "article section nav aside main header footer" "" flowContent;
        Add "hgroup" "" "h1 h2 h3 h4 h5 h6";
        Add "figure" "" (flowContent +:+ " " +:+ "figcaption");
        Add "time" "datetime" phrasingContent;
        Add "dialog" "open" flowContent;
        Add "command" "type label icon disabled checked radiogroup command" "";
        Add "output" "for form name" phrasingContent;
        Add "progress" "value max" phrasingContent;
        Add "meter" "value min max low high optimum" phrasingContent;
        Add "details" "open" (flowContent +:+ " " +:+ "summary");
        Add "keygen" "autofocus challenge disabled form keytype name" "" ]
    else [] in
  let html4_attributes :=
    if not_strict
    then
      [ AddAttrs "script" "language xml:space";
        AddAttrs "style" "xml:space";
        AddAttrs "object" "declare classid code codebase codetype archive standby align border hspace vspace";
        AddAttrs "embed" "align name hspace vspace";
        AddAttrs "param" "valuetype type";
        AddAttrs "a" "charset name rev shape coords";
        AddAttrs "br" "clear";
        AddAttrs "applet" "codebase archive code object alt name width height align hspace vspace";
        AddAttrs "img" "name longdesc align border hspace vspace";
        AddAttrs "iframe" "longdesc frameborder marginwidth marginheight scrolling align";
        AddAttrs "font basefont" "size color face";
        AddAttrs "input" "usemap align";
        AddAttrs "select" "";
        AddAttrs "textarea" "";
        AddAttrs "h1 h2 h3 h4 h5 h6 div p legend caption" "align";
        AddAttrs "ul" "type compact";
        AddAttrs "li" "type";
        AddAttrs "ol dl menu dir" "compact";
        AddAttrs "pre" "width xml:space";
        AddAttrs "hr" "align noshade size width";
        AddAttrs "isindex" "prompt";
        AddAttrs "table" "summary width frame rules cellspacing cellpadding align bgcolor";
        AddAttrs "col" "width align char charoff valign";
        AddAttrs "colgroup" "width align char charoff valign";
        AddAttrs "thead" "align char charoff valign";
        AddAttrs "tr" "align char charoff valign bgcolor";
        AddAttrs "th" "axis align char charoff valign nowrap bgcolor width height";
        AddAttrs "form" "accept";
        AddAttrs "td" "abbr axis scope align char charoff valign nowrap bgcolor width height";
        AddAttrs "tfoot" "align char charoff valign";
        AddAttrs "tbody" "align char charoff valign";
        AddAttrs "area" "nohref";
        AddAttrs "body" "background bgcolor text link vlink alink" ]
    else [] in
  let html5_attributes :=
    if not_html4
    then
      [ AddAttrs "input button select textarea" "autofocus";
        AddAttrs "input textarea" "placeholder";
        AddAttrs "a" "download";
        AddAttrs "link script img" "crossorigin";
        AddAttrs "img" "loading";
        AddAttrs "iframe" "sandbox seamless allowfullscreen loading" ]
    else [] in
  st ← forEach (declare globalAttributes)
               (legacy_elements ++ base ++ html5_elements ++ html4_attributes ++
                html5_attributes)
               (emptyHeap, ∅);
  (* Delete children of the same name from it's parent *)
  let st := foldl (fun st n => delete_child n n st) st (split "a form meter progress dfn" " ") in
  (* Caption can't have tables *)
  st ← match st.2 !! "caption" with
       | Some _ => Normal (delete_child "caption" "table" st)
       | None => Throws TypeError
       end;
  (* Delete scripts by default due to possible XSS *)
  Normal (st.1, delete "script" st.2).

(** ** The schema instance

    The variables the closures of [Schema] share.  [schemaItems] is the
    table [compileSchema] returned; its child sets are in the same store as
    those of [children], which refer to them.  [blockElementsMap] is the
    lookup table of this instance (the classification tables that
    [mapCache] shares between instances are followed for one instance in a
    fresh process).  The other lookup tables, the style and class maps, the
    special elements and the [parentsRequired] field are independent of the
    tables below and are left out. *)
Record Schema : Type := mkSchema {
  elements : gmap string SchemaElement;
  patternElements : list SchemaElement;
  children : gmap string loc;
  heap : Heap;
  schemaItems : gmap string SchemaItem;
  customElementsMap : gmap string string;
  blockElementsMap : SchemaMap
}.

Definition set_elements v (s : Schema) : Schema :=
  mkSchema v (patternElements s) (children s) (heap s) (schemaItems s)
    (customElementsMap s) (blockElementsMap s).
Definition set_patternElements v (s : Schema) : Schema :=
  mkSchema (elements s) v (children s) (heap s) (schemaItems s)
    (customElementsMap s) (blockElementsMap s).
Definition set_children v (s : Schema) : Schema :=
  mkSchema (elements s) (patternElements s) v (heap s) (schemaItems s)
    (customElementsMap s) (blockElementsMap s).
Definition set_heap v (s : Schema) : Schema :=
  mkSchema (elements s) (patternElements s) (children s) v (schemaItems s)
    (customElementsMap s) (blockElementsMap s).
Definition set_customElementsMap v (s : Schema) : Schema :=
  mkSchema (elements s) (patternElements s) (children s) (heap s) (schemaItems s)
    v (blockElementsMap s).
Definition set_blockElementsMap v (s : Schema) : Schema :=
  mkSchema (elements s) (patternElements s) (children s) (heap s) (schemaItems s)
    (customElementsMap s) v.

(** *** [getElementRule] *)

(** The loop [i = patternElements.length; while (i--) ...]: the entries
    below index [i], from the last one down.  An entry without a [pattern]
    makes [element.pattern.test] raise. *)
Fixpoint scanPatterns (patterns : list SchemaElement) (name : string) (i : nat)
    : outcome (option SchemaElement) :=
  match i with
  | O => Normal None
  | S i' =>
      match patterns !! i' with
      | Some element =>
          match pattern element with
          | Some p => if RegExp_test p name then Normal (Some element)
                      else scanPatterns patterns name i'
          | None => Throws TypeError
          end
      | None => scanPatterns patterns name i'
      end
  end.

Definition getElementRule (st : Schema) (name : string) : outcome (option SchemaElement) :=
  match elements st !! name with
  | Some element => Normal (Some element)
  | None => scanPatterns (patternElements st) name (length (patternElements st))
  end.

(** *** [isValid] and [isValidChild] *)

Fixpoint scanAttrPatterns (attrPatterns : list AttributePattern) (subject : string)
    (i : nat) : bool :=
  match i with
  | O => false
  | S i' =>
      match attrPatterns !! i' with
      | Some p => if RegExp_test (attr_pattern p) subject then true
                  else scanAttrPatterns attrPatterns subject i'
      | None => scanAttrPatterns attrPatterns subject i'
      end
  end.

(** [isValid(name, attr)]; note that the loop over the attribute patterns
    tests [name], as the source does. *)
Definition isValid (st : Schema) (name : string) (attr : option string) : outcome bool :=
  rule ← getElementRule st name;
  match rule with
  | Some rule =>
      match truthy attr with
      | Some attr =>
          match attributes rule with
          | None => Throws TypeError
          | Some attrs =>
              if bool_decide (is_Some (attrs !! attr)) then Normal true
              else match attributePatterns rule with
                   | Some attrPatterns =>
                       Normal (scanAttrPatterns attrPatterns name (length attrPatterns))
                   | None => Normal false
                   end
          end
      | None => Normal true
      end
  | None => Normal false
  end.

Definition isValidChild (st : Schema) (name child : string) : bool :=
  match children st !! toLowerCase name with
  | Some l =>
      match objects (heap st) !! l with
      | Some parent => bool_decide (is_Some (parent !! toLowerCase child))
      | None => false
      end
  | None => false
  end.

Definition getBlockElements (st : Schema) : SchemaMap := blockElementsMap st.

(** *** [addValidElements] *)

(** The variables of one pass over an attribute block. *)
Record RuleState : Type := mkRuleState {
  rs_attributes : gmap string Attribute;
  rs_attributesOrder : list string;
  rs_element : SchemaElement
}.

Definition is_str (o : option string) (s : string) : bool := bool_decide (o = Some s).

(** The body of the loop over [attrData]. *)
Definition parseAttr (token : string) (rs : RuleState) : outcome RuleState :=
  match RegExp_exec attrRuleRegExp token with
  | None => Normal rs
  | Some matches =>
      let attrType := matches !! 1 in
      match matches !! 2 with
      | None => Throws TypeError          (* matches[2].replace on undefined *)
      | Some m2 =>
          let attrName := replace_escaped_colon m2 in
          let prefix := matches !! 3 in
          let value := default "" (matches !! 4) in
          let attr := emptyAttribute in
          let element := rs_element rs in
          (* Required *)
          let '(element, attr) :=
            if is_str attrType "!"
            then (set_attributesRequired
                    (Some (default [] (attributesRequired element) ++ [attrName])) element,
                  mkAttribute true (defaultValue attr) (forcedValue attr) (validValues attr))
            else (element, attr) in
          (* Denied from global *)
          if is_str attrType "-"
          then Normal (mkRuleState
                         (delete attrName (rs_attributes rs))
                         (splice1 (rs_attributesOrder rs)
                                  (inArray (rs_attributesOrder rs) attrName))
                         element)
          else
            (* Default value *)
            let '(element, attr) :=
              if is_str prefix "="
              then (set_attributesDefault
                      (Some (default [] (attributesDefault element)
                             ++ [mkDefaultAttribute attrName value])) element,
                    mkAttribute (required attr) (Some value) (forcedValue attr) (validValues attr))
              else (element, attr) in
            (* Forced value *)
            let '(element, attr) :=
              if is_str prefix ":"
              then (set_attributesForced
                      (Some (default [] (attributesForced element)
                             ++ [mkDefaultAttribute attrName value])) element,
                    mkAttribute (required attr) (defaultValue attr) (Some value) (validValues attr))
              else (element, attr) in
            (* Required values *)
            let attr :=
              if is_str prefix "<"
              then mkAttribute (required attr) (defaultValue attr) (forcedValue attr)
                     (Some (makeMap (Some value) (is_char "?") ∅))
              else attr in
            (* Check for attribute patterns *)
            if RegExp_test hasPatternsRegExp attrName
            then
              p ← patternToRegExp attrName;
              Normal (mkRuleState
                        (rs_attributes rs) (rs_attributesOrder rs)
                        (set_attributePatterns
                           (Some (default [] (attributePatterns element)
                                  ++ [mkAttributePattern attr p])) element))
            else
              (* Add attribute to order list if it doesn't already exist *)
              Normal (mkRuleState
                        (<[attrName := attr]> (rs_attributes rs))
                        (if bool_decide (is_Some (rs_attributes rs !! attrName))
                         then rs_attributesOrder rs
                         else rs_attributesOrder rs ++ [attrName])
                        element)
      end
  end.

(** The global rule as the parser holds it: [globalAttributes] and
    [globalAttributesOrder]. *)
Definition Globals : Type := option (gmap string Attribute) * option (list string).

(** The body of the loop over the element rules. *)
Definition parseRule (rule : string) (acc : Globals * Schema) : outcome (Globals * Schema) :=
  let '(globals, st) := acc in
  match RegExp_exec elementRuleRegExp rule with
  | None => Normal acc
  | Some matches =>
      let prefix := matches !! 1 in
      let elementName := default "" (matches !! 2) in
      let outputName := matches !! 3 in
      let attrData := matches !! 5 in
      let element :=
        mkSchemaElement None None None None None None
          (is_str prefix "#") (is_str prefix "-") (is_str (matches !! 4) "!") None None in
      (* Copy attributes from global rule into current rule *)
      let rs :=
        match globals.1 with
        | Some globalAttributes =>
            mkRuleState globalAttributes (default [] globals.2) element
        | None => mkRuleState ∅ [] element
        end in
      (* Attributes defined *)
      rs ← match truthy attrData with
           | Some attrData => forEach parseAttr (split attrData "|") rs
           | None => Normal rs
           end;
      let element :=
        set_attributes (Some (rs_attributes rs))
          (set_attributesOrder (Some (rs_attributesOrder rs)) (rs_element rs)) in
      (* Global rule, store away these for later usage *)
      let globals : Globals :=
        if bool_decide (globals.1 = None) && bool_decide (elementName = "@")
        then (Some (rs_attributes rs), Some (rs_attributesOrder rs))
        else globals in
      (* Handle substitute elements such as b/strong *)
      let element :=
        match outputName with
        | Some _ => set_outputName (Some elementName) element
        | None => element
        end in
      (* Add pattern or exact element; the object filed under the output
         name is the same object, so it carries the pattern as well *)
      if RegExp_test hasPatternsRegExp elementName
      then
        p ← patternToRegExp elementName;
        let element := set_pattern (Some p) element in
        let elems :=
          match outputName with
          | Some o => <[o := element]> (elements st)
          | None => elements st
          end in
        Normal (globals,
                set_patternElements (patternElements st ++ [element]) (set_elements elems st))
      else
        let elems :=
          match outputName with
          | Some o => <[o := element]> (elements st)
          | None => elements st
          end in
        Normal (globals, set_elements (<[elementName := element]> elems) st)
  end.

Definition addValidElements (validElements : option string) (st : Schema) : outcome Schema :=
  match truthy validElements with
  | Some validElements =>
      let validElementsArr := split validElements "," in
      let globals : Globals :=
        match elements st !! "@" with
        | Some global => (attributes global, attributesOrder global)
        | None => (None, None)
        end in
      acc ← forEach parseRule validElementsArr (globals, st);
      Normal acc.2
  | None => Normal st
  end.

(** *** [setValidElements] *)
Definition setValidElements (validElements : string) (st : Schema) : outcome Schema :=
  let st := set_patternElements [] (set_elements ∅ st) in
  st ← addValidElements (Some validElements) st;
  Normal (set_children ((item_children <$> schemaItems st) ∪ children st) st).

(** *** [addCustomElements] *)

(** [extend({}, customRule)] followed by the two [delete]s. *)
Definition cloneRule (customRule : option SchemaElement) : SchemaElement :=
  match customRule with
  | Some r => set_removeEmpty false (set_removeEmptyAttrs false r)
  | None => emptyObject
  end.

(** One step of [each(children, ...)]: a child set that has the clone
    source is replaced by a copy that also has the new name. *)
Definition spliceCustom (cloneName name : string) (elmName : string) (l : loc)
    (acc : outcome Schema) : outcome Schema :=
  st ← acc;
  match objects (heap st) !! l with
  | None => Throws TypeError
  | Some element =>
      if bool_decide (is_Some (element !! cloneName))
      then let '(l', h) := alloc (<[name := ()]> element) (heap st) in
           Normal (set_heap h (set_children (<[elmName := l']> (children st)) st))
      else Normal st
  end.

(** The body of the loop over the custom element rules.  When
    [children[cloneName]] is undefined, [children[name]] becomes undefined
    too and the walk over [children] raises on it. *)
Definition addCustomElement (rule : string) (st : Schema) : outcome Schema :=
  match RegExp_exec customElementRegExp rule with
  | None => Throws TypeError              (* matches[1] on null *)
  | Some matches =>
      let inline := is_str (matches !! 1) "~" in
      let cloneName := if inline then "span" else "div" in
      let name := default "" (matches !! 2) in
      match children st !! cloneName with
      | None => Throws TypeError
      | Some l =>
          let st := set_children (<[name := l]> (children st)) st in
          let st := set_customElementsMap (<[name := cloneName]> (customElementsMap st)) st in
          (* If it's not marked as inline then add it to valid block elements *)
          let st :=
            if inline then st
            else set_blockElementsMap
                   (<[name := ()]> (<[toUpperCase name := ()]> (blockElementsMap st))) st in
          (* Add elements clone if needed *)
          let st :=
            match elements st !! name with
            | Some _ => st
            | None => set_elements (<[name := cloneRule (elements st !! cloneName)]> (elements st)) st
            end in
          (* Add custom elements at span/div positions *)
          map_fold (spliceCustom cloneName name) (Normal st) (children st)
      end
  end.

Definition addCustomElements (customElements : option string) (st : Schema)
    : outcome Schema :=
  match truthy customElements with
  | Some customElements => forEach addCustomElement (split customElements ",") st
  | None => Normal st
  end.

(** *** [addValidChildren] *)

Definition editChild (prefix : string) (parentName : string) (child : string) (st : Schema)
    : outcome Schema :=
  match children st !! parentName with
  | None => Throws TypeError              (* parent is undefined *)
  | Some l =>
      match objects (heap st) !! l with
      | None => Throws TypeError
      | Some parent =>
          if bool_decide (prefix = "-")
          then Normal (set_heap (store l (delete child parent) (heap st)) st)
          else Normal (set_heap (store l (<[child := ()]> parent) (heap st)) st)
      end
  end.

Definition addValidChild (rule : string) (st : Schema) : outcome Schema :=
  match RegExp_exec childRuleRegExp rule with
  | None => Normal st
  | Some matches =>
      let prefix := default "" (matches !! 1) in
      let parentName := default "" (matches !! 2) in
      (* Add/remove items from default *)
      let st :=
        if bool_decide (prefix = "") then
          let '(l, h) := alloc {["#comment" := ()]} (heap st) in
          set_heap h (set_children (<[parentName := l]> (children st)) st)
        else st in
      forEach (editChild prefix parentName) (split (default "" (matches !! 3)) "|") st
  end.

Definition addValidChildren (validChildren : option string) (st : Schema) : outcome Schema :=
  match truthy validChildren with
  | Some validChildren => forEach addValidChild (split validChildren ",") st
  | None => Normal st
  end.

(** ** The constructor *)

Record SchemaSettings : Type := mkSettings {
  schema : option SchemaType;
  valid_elements : option string;
  verify_html : option bool;
  custom_elements : option string;
  valid_children : option string;
  extended_valid_elements : option string;
  invalid_elements : option string;
  block_elements : option string;
  text_block_elements : option string
}.

(** [Schema()] and [Schema({})] *)
Definition noSettings : SchemaSettings :=
  mkSettings None None None None None None None None None.

Definition withSchema (t : SchemaType) : SchemaSettings :=
  mkSettings (Some t) None None None None None None None None.

(** [createLookupTable(option, defaultValue, extendWith)] with nothing
    cached; [extendWith] is only applied to the default. *)
Definition createLookupTable (value : option string) (defaultValue : string)
    (extendWith : SchemaMap) : SchemaMap :=
  match truthy value with
  | None =>
      extend (makeMap (Some defaultValue) (is_char " ")
                (makeMap (Some (toUpperCase defaultValue)) (is_char " ") ∅))
             extendWith
  | Some value =>
      makeMap (Some value) comma_or_space
        (makeMap (Some (toUpperCase value)) comma_or_space ∅)
  end.

(** [elements[name].field = ...] on an entry that must exist. *)
Definition updateRule (f : SchemaElement → SchemaElement) (name : string) (st : Schema)
    : outcome Schema :=
  match elements st !! name with
  | Some e => Normal (set_elements (<[name := f e]> (elements st)) st)
  | None => Throws TypeError
  end.

(** [if (elements[name]) elements[name].field = ...] *)
Definition updateRuleIfPresent (f : SchemaElement → SchemaElement) (name : string)
    (st : Schema) : outcome Schema :=
  match elements st !! name with
  | Some e => Normal (set_elements (<[name := f e]> (elements st)) st)
  | None => Normal st
  end.

(** The branch of the constructor for an unset [valid_elements]: the
    elements are cloned from the schema table. *)
Definition defaultElements (settings : SchemaSettings) (st : Schema) : outcome Schema :=
  let st :=
    set_children ((item_children <$> schemaItems st) ∪ children st)
      (set_elements
         (((fun element =>
              set_attributesOrder (Some (item_attributesOrder element))
                (set_attributes (Some (item_attributes element)) emptyObject))
           <$> schemaItems st) ∪ elements st) st) in
  (* Switch these on HTML4 *)
  st ← (if bool_decide (schema settings = Some html5) then Normal st
        else st ← updateRule (set_outputName (Some "strong")) "b" st;
             updateRule (set_outputName (Some "em")) "i" st);
  (* Remove these if they are empty by default *)
  st ← forEach (updateRuleIfPresent (set_removeEmpty true))
         (split "ol ul sub sup blockquote span font a table tbody strong em b i" " ") st;
  (* Padd these by default *)
  st ← forEach (updateRule (set_paddEmpty true))
         (split "p h1 h2 h3 h4 h5 h6 th td pre div address caption li" " ") st;
  (* Remove these if they have no attributes *)
  forEach (updateRule (set_removeEmptyAttrs true)) (split "span" " ") st.

Definition deleteInvalidElements (invalid : option string) (st : Schema) : Schema :=
  match truthy invalid with
  | Some invalid => set_elements (foldl (fun els item => delete item els) (elements st) (explode invalid)) st
  | None => st
  end.

(** The last step of the constructor:
    [if (!getElementRule('span')) addValidElements('span[!data-mce-type|*]')]. *)
Definition allowInternalSpans (st : Schema) : outcome Schema :=
  rule ← getElementRule st "span";
  match rule with
  | Some _ => Normal st
  | None => addValidElements (Some "span[!data-mce-type|*]") st
  end.

(** The constructor up to that last step. *)
Definition configure (settings : SchemaSettings) : outcome Schema :=
  compiled ← compileSchema (schema settings);
  (* Allow all elements and attributes if verify_html is set to false *)
  let valid_elements :=
    if bool_decide (verify_html settings = Some false) then Some "*[*]"
    else valid_elements settings in
  let textBlockElementsMap :=
    createLookupTable (text_block_elements settings)
      ("h1 h2 h3 h4 h5 h6 p div address pre form " +:+
       "blockquote center dir fieldset header footer article section hgroup aside main nav figure")
      ∅ in
  let blockElementsMap :=
    createLookupTable (block_elements settings)
      ("hr table tbody thead tfoot " +:+
       "th tr td li ol ul caption dl dt dd noscript menu isindex option " +:+
       "datalist select optgroup figcaption details summary")
      textBlockElementsMap in
  let st := mkSchema ∅ [] ∅ compiled.1 compiled.2 ∅ blockElementsMap in
  st ← match truthy valid_elements with
       | None => defaultElements settings st
       | Some valid_elements => setValidElements valid_elements st
       end;
  st ← addCustomElements (custom_elements settings) st;
  st ← addValidChildren (valid_children settings) st;
  st ← addValidElements (extended_valid_elements settings) st;
  (* Todo: Remove this when we fix list handling to be valid *)
  st ← addValidChildren (Some "+ol[ul|ol],+ul[ul|ol]") st;
  (* Delete invalid elements *)
  Normal (deleteInvalidElements (invalid_elements settings) st).

(** [Schema(settings)] *)
Definition newSchema (settings : SchemaSettings) : outcome Schema :=
  st ← configure settings;
  (* If the user didn't allow span only allow internal spans *)
  allowInternalSpans st.

(** Settings that only give [valid_elements]. *)
Definition withValidElements (rules : string) : SchemaSettings :=
  mkSettings None (Some rules) None None None None None None None.

(** ** Notions used in the statements *)

(** *** Outcomes *)

(** The outcome with its value mapped. *)
Definition mapOutcome {A B} (f : A → B) (m : outcome A) : outcome B :=
  match m with
  | Normal a => Normal (f a)
  | Throws e => Throws e
  | Unsupported => Unsupported
  end.

(** The exception of an outcome, if it is one. *)
Definition failure {A} (m : outcome A) : option jsError :=
  match m with Throws e => Some e | _ => None end.

(** *** Settings *)

(** Settings that give [valid_elements] and [custom_elements]. *)
Definition customSettings (valid custom : option string) : SchemaSettings :=
  mkSettings None valid None custom None None None None None.

(** Settings that give the schema type and [extended_valid_elements]. *)
Definition withExtended (t : SchemaType) (rules : string) : SchemaSettings :=
  mkSettings (Some t) None None None None (Some rules) None None None.

(** Settings that give the schema type and [valid_elements]. *)
Definition withTypeAndValid (t : SchemaType) (rules : string) : SchemaSettings :=
  mkSettings (Some t) (Some rules) None None None None None None None.

(** *** Rules and pattern rules *)

(** The rule carries a compiled [pattern]. *)
Definition has_pattern (e : SchemaElement) : Prop := is_Some (pattern e).

(** [accepts name e]: the matcher of the pattern rule [e] accepts [name]. *)
Definition accepts (name : string) (e : SchemaElement) : bool :=
  match pattern e with
  | Some p => RegExp_test p name
  | None => false
  end.


(** Whether [attr] is a key of the attribute mapping of the rule. *)
Definition hasAttribute (rule : SchemaElement) (attr : string) : bool :=
  match attributes rule with
  | Some attrs => bool_decide (is_Some (attrs !! attr))
  | None => false
  end.

(** The attribute order of the rule and whether it has the listed
    attributes. *)
Definition describe (attrs : list string) (rule : option SchemaElement)
    : option (option (list string) * list bool) :=
  match rule with
  | Some r => Some (attributesOrder r, hasAttribute r <$> attrs)
  | None => None
  end.

(** Which of the attribute patterns of a rule accept a name. *)
Definition patternsAccepting (rule : SchemaElement) (a : string) : list bool :=
  (fun p => RegExp_test (attr_pattern p) a) <$> default [] (attributePatterns rule).

(** Whether the order list of the rule is free of duplicates, and how
    often it lists [hreflang]. *)
Definition orderCheck (rule : option SchemaElement) : option (bool * nat) :=
  match rule with
  | Some r =>
      match attributesOrder r with
      | Some order => Some (bool_decide (NoDup order),
                            length (filter (fun a => a = "hreflang") order))
      | None => None
      end
  | None => None
  end.

(** The names of the exact rules whose order list has a duplicate. *)
Definition duplicated (st : Schema) : list string :=
  flat_map (fun entry : string * SchemaElement =>
              match attributesOrder entry.2 with
              | Some order => if bool_decide (NoDup order) then [] else [entry.1]
              | None => []
              end)
           (map_to_list (elements st)).

(** Whether [child] is a key of the child set of [parent] in the table
    [compileSchema] returns. *)
Definition compiledChild (compiled : CompileState) (parent child : string) : bool :=
  match compiled.2 !! parent with
  | Some item =>
      match objects compiled.1 !! item_children item with
      | Some set => bool_decide (is_Some (set !! child))
      | None => false
      end
  | None => false
  end.

(** The capture groups 1 to 5 of a match. *)
Definition groups (matches : option Captures)
    : option (option string * option string * option string * option string * option string) :=
  match matches with
  | Some m => Some (m !! 1, m !! 2, m !! 3, m !! 4, m !! 5)
  | None => None
  end.

(** The expression [patternToRegExp] gives for [*]. *)
Definition anyName : re := Cat Bol (Cat (Star (Chr dot)) Eol).

(** The rule [span[!data-mce-type|*]] as the parser builds it on top of
    the global attributes. *)
Definition internalSpanRule (globals : Globals) : SchemaElement :=
  let attrs := default ∅ globals.1 in
  let order := match globals.1 with Some _ => default [] globals.2 | None => [] end in
  mkSchemaElement
    (Some (<["data-mce-type" := mkAttribute true None None None]> attrs))
    (Some (if bool_decide (is_Some (attrs !! "data-mce-type"))
           then order else order ++ ["data-mce-type"]))
    None None
    (Some [mkAttributePattern emptyAttribute anyName])
    (Some ["data-mce-type"])
    false false false None None.

(** *** Frames *)

(** The element tables of [st] in the frame (children graph, store,
    schema table, lookup tables) of [st0]. *)
Definition reframe (st0 st : Schema) : Schema :=
  mkSchema (elements st) (patternElements st) (children st0) (heap st0)
    (schemaItems st0) (customElementsMap st0) (blockElementsMap st0).

(** The children graph after it is seeded again from the schema table. *)
Definition seedChildren (st : Schema) : gmap string loc :=
  (item_children <$> schemaItems st) ∪ children st.

(** *** Invariants *)

(** The instances a program can hold: the constructor returned them, or
    a mutator was called on such an instance and returned. *)
Inductive reachable : Schema → Prop :=
| reach_new settings st :
    newSchema settings = Normal st → reachable st
| reach_addValidElements validElements st st' :
    reachable st → addValidElements validElements st = Normal st' → reachable st'
| reach_setValidElements validElements st st' :
    reachable st → setValidElements validElements st = Normal st' → reachable st'
| reach_addCustomElements customElements st st' :
    reachable st → addCustomElements customElements st = Normal st' → reachable st'
| reach_addValidChildren validChildren st st' :
    reachable st → addValidChildren validChildren st = Normal st' → reachable st'.

(** Every pattern rule of the instance carries its pattern. *)
Definition patterns_wf (st : Schema) : Prop := Forall has_pattern (patternElements st).

(** The invariant of the pass over an attribute block: no name is twice
    in the order list, and every listed name is a key of the mapping. *)
Definition order_ok (attrs : gmap string Attribute) (order : list string) : Prop :=
  NoDup order ∧ ∀ x, x ∈ order → is_Some (attrs !! x).

(** A rule whose order list has no duplicate and only lists keys of the
    mapping (a rule without the two fields counts). *)
Definition rule_ok (e : SchemaElement) : Prop :=
  ∀ attrs order,
    attributes e = Some attrs → attributesOrder e = Some order → order_ok attrs order.

(** Every rule of the instance, exact or pattern, is [rule_ok]. *)
Definition rules_ok (st : Schema) : Prop :=
  (∀ n e, elements st !! n = Some e → rule_ok e) ∧ Forall rule_ok (patternElements st).

(** The global attributes the parser holds satisfy the invariant. *)
Definition globals_ok (globals : Globals) : Prop :=
  ∀ attrs, globals.1 = Some attrs → order_ok attrs (default [] globals.2).

(** *** The pass over the element rules *)

(** The element name of a rule string, when the string is an element
    rule. *)
Definition ruleName (rule : string) : option string :=
  match RegExp_exec elementRuleRegExp rule with
  | Some matches => matches !! 2
  | None => None
  end.

(** The element object the parser creates for a matched rule, before the
    attributes. *)
Definition newElement (matches : Captures) : SchemaElement :=
  mkSchemaElement None None None None None None
    (is_str (matches !! 1) "#") (is_str (matches !! 1) "-") (is_str (matches !! 4) "!")
    None None.

(** The pass over the attribute block of a matched rule, started from the
    attribute mapping [attrs] and the order list [order]. *)
Definition attrPass (matches : Captures) (attrs : gmap string Attribute)
    (order : list string) : outcome RuleState :=
  match truthy (matches !! 5) with
  | Some attrData =>
      forEach parseAttr (split attrData "|") (mkRuleState attrs order (newElement matches))
  | None => Normal (mkRuleState attrs order (newElement matches))
  end.

(** [e] is the rule the parser has just filed for the element name [n]:
    under [n] in the exact map, or last in the pattern sequence when [n]
    has a wild card. *)
Definition filedAs (n : string) (e : SchemaElement) (st : Schema) : Prop :=
  if RegExp_test hasPatternsRegExp n
  then last (patternElements st) = Some e
  else elements st !! n = Some e.

(** The instance with empty tables. *)
Definition emptySchema : Schema := mkSchema ∅ [] ∅ emptyHeap ∅ ∅ ∅.

(** *** Queries read through the tables *)

(** The two element tables of an instance. *)
Definition ruleTables (st : Schema) : gmap string SchemaElement * list SchemaElement :=
  (elements st, patternElements st).

(** Whether a name is free of line terminators. *)
Definition singleLine (name : string) : bool :=
  forallb (fun c => negb (is_line_terminator c)) (list_ascii_of_string name).

(** [st'] has a rule under every name [st] has one, and its pattern rules
    start with those of [st]. *)
Definition extends (st st' : Schema) : Prop :=
  (∀ n, is_Some (elements st !! n) → is_Some (elements st' !! n)) ∧
  patternElements st `prefix_of` patternElements st'.

(** *** The children graph *)

(** Whether [child] is a key of the child set the children graph has for
    [parent] (the names taken as they are). *)
Definition childOf (st : Schema) (parent child : string) : bool :=
  match children st !! parent with
  | Some l =>
      match objects (heap st) !! l with
      | Some set => bool_decide (is_Some (set !! child))
      | None => false
      end
  | None => false
  end.


(** *** The store *)

(** The references of an instance point below the allocation mark of its
    store: those of the store itself, of the children graph and of the
    schema table. *)
Definition store_wf (st : Schema) : Prop :=
  (∀ l, is_Some (objects (heap st) !! l) → (l < next (heap st))%positive) ∧
  (∀ p l, children st !! p = Some l → (l < next (heap st))%positive) ∧
  (∀ n item, schemaItems st !! n = Some item →
             (item_children item < next (heap st))%positive).

(** The same for a compiled table, as a check. *)
Definition compiled_wf (compiled : CompileState) : bool :=
  forallb (fun e : loc * SchemaMap => Pos.ltb e.1 (next compiled.1))
          (map_to_list (objects compiled.1)) &&
  forallb (fun e : string * SchemaItem => Pos.ltb (item_children e.2) (next compiled.1))
          (map_to_list compiled.2).

(** *** Comparing instances and tables *)

(** Every key of the first map is a key of the second. *)
Definition keys_within {A B} (m : gmap string A) (m' : gmap string B) : bool :=
  forallb (fun e : string * A => bool_decide (is_Some (m' !! e.1))) (map_to_list m).

(** The instance has exact rules only, each with an attribute mapping and
    without attribute patterns. *)
Definition plain (st : Schema) : bool :=
  match patternElements st with [] => true | _ => false end &&
  forallb (fun e : string * SchemaElement =>
             match attributes e.2, attributePatterns e.2 with
             | Some _, None => true
             | _, _ => false
             end) (map_to_list (elements st)).

(** Every rule of [st] has a rule in [st'] under the same name with at
    least its attributes, and every child set of the children graph of
    [st] is within the set [st'] has for the same name. *)
Definition within (st st' : Schema) : bool :=
  forallb (fun e : string * SchemaElement =>
             match elements st' !! e.1 with
             | Some e' =>
                 match attributes e.2, attributes e' with
                 | Some a, Some a' => keys_within a a'
                 | _, _ => false
                 end
             | None => false
             end) (map_to_list (elements st)) &&
  forallb (fun e : string * loc =>
             match objects (heap st) !! e.2 with
             | Some set =>
                 match children st' !! e.1 with
                 | Some l' =>
                     match objects (heap st') !! l' with
                     | Some set' => keys_within set set'
                     | None => false
                     end
                 | None => false
                 end
             | None => true
             end) (map_to_list (children st)).

(** The global attributes every element of the base grammar starts
    with. *)
Definition globalNames : list string :=
  ["id"; "accesskey"; "class"; "dir"; "lang"; "style"; "tabindex"; "title"; "role"].

(** The order list of the entry lists keys of its mapping only, lists
    every key and starts with the global attributes. *)
Definition item_wf (item : SchemaItem) : bool :=
  forallb (fun a => bool_decide (is_Some (item_attributes item !! a)))
          (item_attributesOrder item) &&
  forallb (fun e : string * Attribute => existsb (String.eqb e.1) (item_attributesOrder item))
          (map_to_list (item_attributes item)) &&
  bool_decide (take 9 (item_attributesOrder item) = globalNames).

Definition table_wf (compiled : CompileState) : bool :=
  forallb (fun e : string * SchemaItem => item_wf e.2) (map_to_list compiled.2).

(** *** Wild cards *)

(** A name made of ordinary characters: none that the regular expression
    syntax reads specially, no wild card and no dot. *)
Definition literal (p : string) : bool :=
  forallb (fun c => negb (is_syntax_char c) && negb (Ascii.eqb c "."))
          (list_ascii_of_string p).

(** The rest of [s] after the prefix [p], when [s] starts with [p]. *)
Fixpoint afterPrefix (p s : string) : option string :=
  match p, s with
  | EmptyString, _ => Some s
  | String c p', String a s' => if Ascii.eqb a c then afterPrefix p' s' else None
  | String _ _, EmptyString => None
  end.

(** The expression for the characters of [p], one after the other,
    followed by [r]. *)
Fixpoint lit (p : string) (r : re) : re :=
  match p with
  | EmptyString => r
  | String c p' => Cat (Chr (one c)) (lit p' r)
  end.

(** *** Rule lists *)

(** The substitute name of a rule string ([b] in [strong/b]), when the
    string is an element rule that has one. *)
Definition ruleAlias (rule : string) : option string :=
  match RegExp_exec elementRuleRegExp rule with
  | Some matches => matches !! 3
  | None => None
  end.

(** The global attributes [addValidElements] starts from on an
    instance. *)
Definition globalsOf (st : Schema) : Globals :=
  match elements st !! "@" with
  | Some global => (attributes global, attributesOrder global)
  | None => (None, None)
  end.

(** * Properties *)

(** ** Outcomes and loops *)

Lemma bind_Normal {A B} (m : outcome A) (f : A → outcome B) (b : B) :
  m ≫= f = Normal b → ∃ a, m = Normal a ∧ f a = Normal b.
Proof. destruct m as [a| |]; simpl; intros H; try discriminate; eauto. Qed.

Lemma Normal_inj {A} (a b : A) : Normal a = Normal b → a = b.
Proof. congruence. Qed.

Lemma list3_inj {A} (a b c a' b' c' : A) :
  [a; b; c] = [a'; b'; c'] → a = a' ∧ b = b' ∧ c = c'.
Proof. intros H. repeat split; congruence. Qed.

Lemma mapOutcome_Normal {A B} (f : A → B) (m : outcome A) (b : B) :
  mapOutcome f m = Normal b → ∃ a, m = Normal a ∧ f a = b.
Proof. destruct m; simpl; intros H; try discriminate. injection H as <-. eauto. Qed.

Lemma failure_Some {A} (m : outcome A) (e : jsError) : failure m = Some e → m = Throws e.
Proof. destruct m; simpl; congruence. Qed.

Lemma forEach_cons {A S} (body : A → S → outcome S) (x : A) (l : list A) (s : S) :
  forEach body (x :: l) s = body x s ≫= forEach body l.
Proof. reflexivity. Qed.

Lemma forEach_app {A S} (body : A → S → outcome S) (l1 l2 : list A) (s : S) :
  forEach body (l1 ++ l2) s = forEach body l1 s ≫= forEach body l2.
Proof.
  revert s; induction l1 as [|x l1 IH]; intros s; simpl; [reflexivity|].
  destruct (body x s); simpl; auto.
Qed.

(** An invariant of the body is an invariant of the loop. *)
Lemma forEach_invariant {A S} (P : S → Prop) (body : A → S → outcome S) (l : list A) :
  (∀ x s s', P s → body x s = Normal s' → P s') →
  ∀ s s', P s → forEach body l s = Normal s' → P s'.
Proof.
  intros Hbody. induction l as [|x l IH]; simpl; intros s s' Hs H.
  - congruence.
  - apply bind_Normal in H as (s1 & H1 & H2). eauto.
Qed.

(** A loop whose body commutes with a change of frame commutes with it. *)
Lemma forEach_frame {A S} (body : A → S → outcome S) (frame : S → S) (l : list A) :
  (∀ x s, body x (frame s) = mapOutcome frame (body x s)) →
  ∀ s, forEach body l (frame s) = mapOutcome frame (forEach body l s).
Proof.
  intros Hbody. induction l as [|x l IH]; intros s; simpl; [reflexivity|].
  rewrite Hbody. destruct (body x s); simpl; auto.
Qed.

(** Splits an equation [x ← m; ... = Normal v] into its steps. *)
Ltac steps H :=
  repeat match type of H with
         | _ ≫= _ = Normal _ =>
             let a := fresh "v" in
             let Ha := fresh "Hv" in
             apply bind_Normal in H as (a & Ha & H)
         end.

(** Replaces a closed term by its value. *)
Ltac calc t v := replace t with v by (vm_compute; reflexivity).

(** ** [getElementRule] *)





(** The scan does not raise when every entry carries its pattern. *)
Lemma scanPatterns_total (patterns : list SchemaElement) (name : string) (i : nat) :
  Forall has_pattern patterns → ∃ r, scanPatterns patterns name i = Normal r.
Proof.
  intros Hwf. induction i as [|i IH]; simpl; [eauto|].
  destruct (patterns !! i) as [e|] eqn:He; [|exact IH].
  destruct (Forall_lookup_1 _ _ _ _ Hwf He) as [p ->].
  destruct (RegExp_test p name); eauto.
Qed.



(** ** Pattern rules of the instances that can arise *)

Lemma parseRule_patterns_wf rule acc acc' :
  patterns_wf acc.2 → parseRule rule acc = Normal acc' → patterns_wf acc'.2.
Proof.
  destruct acc as [globals st]. unfold parseRule, patterns_wf. simpl. intros Hwf H.
  destruct (RegExp_exec elementRuleRegExp rule) as [matches|];
    [|by injection H as <-].
  apply bind_Normal in H as (rs & _ & H).
  destruct (RegExp_test hasPatternsRegExp _).
  - apply bind_Normal in H as (p & _ & H). injection H as <-. simpl.
    apply Forall_app. split; [exact Hwf|].
    constructor; [|constructor]. by eexists.
  - injection H as <-. exact Hwf.
Qed.

Lemma addValidElements_patterns_wf validElements st st' :
  patterns_wf st → addValidElements validElements st = Normal st' → patterns_wf st'.
Proof.
  unfold addValidElements. intros Hwf H.
  destruct (truthy validElements) as [ve|]; [|by injection H as <-].
  apply bind_Normal in H as (acc & H & Hacc). injection Hacc as <-.
  revert H. apply (forEach_invariant (fun acc => patterns_wf acc.2)); [|exact Hwf].
  intros x s s'. apply parseRule_patterns_wf.
Qed.

Lemma setValidElements_patterns_wf validElements st st' :
  setValidElements validElements st = Normal st' → patterns_wf st'.
Proof.
  unfold setValidElements. intros H.
  apply bind_Normal in H as (st1 & H1 & H). injection H as <-.
  eapply addValidElements_patterns_wf in H1; [exact H1|]. constructor.
Qed.

(** The walk over [children] in [addCustomElements] only writes the
    children graph and the store. *)
Lemma spliceCustom_preserves (Q : Schema → Prop) (cloneName name : string)
    (m : gmap string loc) (start : outcome Schema) :
  (∀ st c h, Q st → Q (set_heap h (set_children c st))) →
  (∀ st, start = Normal st → Q st) →
  ∀ st', map_fold (spliceCustom cloneName name) start m = Normal st' → Q st'.
Proof.
  intros Hframe Hstart.
  apply (map_fold_weak_ind
           (fun (r : outcome Schema) (_ : gmap string loc) =>
              ∀ st', r = Normal st' → Q st')).
  - exact Hstart.
  - intros elmName l m' r _ IH st' H. unfold spliceCustom in H.
    apply bind_Normal in H as (st & -> & H).
    specialize (IH st eq_refl).
    destruct (objects (heap st) !! l) as [element|]; [|discriminate].
    destruct (bool_decide _).
    + destruct (alloc _ _) as [l' h]. injection H as <-. by apply Hframe.
    + by injection H as <-.
Qed.

Lemma addCustomElements_patterns_wf customElements st st' :
  patterns_wf st → addCustomElements customElements st = Normal st' → patterns_wf st'.
Proof.
  unfold addCustomElements. intros Hwf H.
  destruct (truthy customElements) as [ce|]; [|by injection H as <-].
  revert H. apply forEach_invariant; [|exact Hwf].
  clear. intros rule st st' Hwf H. unfold addCustomElement in H.
  destruct (RegExp_exec customElementRegExp rule) as [matches|]; [|discriminate].
  destruct (children st !! _) as [l|]; [|discriminate].
  revert H. apply spliceCustom_preserves.
  - intros s c h Hs. exact Hs.
  - intros s [= <-]. destruct (is_str _ _); by destruct (elements _ !! _).
Qed.

Lemma addValidChildren_patterns_wf validChildren st st' :
  patterns_wf st → addValidChildren validChildren st = Normal st' → patterns_wf st'.
Proof.
  unfold addValidChildren. intros Hwf H.
  destruct (truthy validChildren) as [vc|]; [|by injection H as <-].
  revert H. apply forEach_invariant; [|exact Hwf].
  clear. intros rule st st' Hwf H. unfold addValidChild in H.
  destruct (RegExp_exec childRuleRegExp rule) as [matches|]; [|by injection H as <-].
  revert H. apply forEach_invariant.
  - intros child s s' Hs H. unfold editChild in H.
    destruct (children s !! _) as [l|]; [|discriminate].
    destruct (objects (heap s) !! l) as [parent|]; [|discriminate].
    destruct (bool_decide _); by injection H as <-.
  - destruct (bool_decide _); [|exact Hwf]. by destruct (alloc _ _).
Qed.

Lemma updateRule_patterns_wf f n st st' :
  patterns_wf st → updateRule f n st = Normal st' → patterns_wf st'.
Proof.
  unfold updateRule. intros Hwf H.
  destruct (elements st !! n); [|discriminate]. by injection H as <-.
Qed.

Lemma updateRuleIfPresent_patterns_wf f n st st' :
  patterns_wf st → updateRuleIfPresent f n st = Normal st' → patterns_wf st'.
Proof.
  unfold updateRuleIfPresent. intros Hwf H.
  destruct (elements st !! n); by injection H as <-.
Qed.

Lemma defaultElements_patterns_wf settings st st' :
  patterns_wf st → defaultElements settings st = Normal st' → patterns_wf st'.
Proof.
  unfold defaultElements. intros Hwf H.
  apply bind_Normal in H as (st1 & H1 & H).
  apply bind_Normal in H as (st2 & H2 & H).
  apply bind_Normal in H as (st3 & H3 & H).
  assert (patterns_wf st1) as Hwf1.
  { destruct (bool_decide _); [by injection H1 as <-|].
    apply bind_Normal in H1 as (s & Hs & H1).
    eapply updateRule_patterns_wf; [|exact H1].
    eapply updateRule_patterns_wf; [|exact Hs]. exact Hwf. }
  assert (patterns_wf st2) as Hwf2.
  { revert H2. apply forEach_invariant; [|exact Hwf1].
    intros x s s'. apply updateRuleIfPresent_patterns_wf. }
  assert (patterns_wf st3) as Hwf3.
  { revert H3. apply forEach_invariant; [|exact Hwf2].
    intros x s s'. apply updateRule_patterns_wf. }
  revert H. apply forEach_invariant; [|exact Hwf3].
  intros x s s'. apply updateRule_patterns_wf.
Qed.

Lemma newSchema_patterns_wf settings st :
  newSchema settings = Normal st → patterns_wf st.
Proof.
  unfold newSchema, configure, allowInternalSpans. intros H.
  apply bind_Normal in H as (st0 & Hconf & H).
  apply bind_Normal in Hconf as (compiled & _ & Hconf).
  apply bind_Normal in Hconf as (st1 & H1 & Hconf).
  apply bind_Normal in Hconf as (st2 & H2 & Hconf).
  apply bind_Normal in Hconf as (st3 & H3 & Hconf).
  apply bind_Normal in Hconf as (st4 & H4 & Hconf).
  apply bind_Normal in Hconf as (st5 & H5 & Hconf).
  injection Hconf as <-.
  assert (patterns_wf st1) as Hwf1.
  { destruct (truthy _).
    - by eapply setValidElements_patterns_wf.
    - eapply defaultElements_patterns_wf; [|exact H1]. constructor. }
  assert (patterns_wf st5) as Hwf5.
  { eapply addValidChildren_patterns_wf; [|exact H5].
    eapply addValidElements_patterns_wf; [|exact H4].
    eapply addValidChildren_patterns_wf; [|exact H3].
    eapply addCustomElements_patterns_wf; [|exact H2]. exact Hwf1. }
  apply bind_Normal in H as (found & _ & H).
  destruct found.
  - injection H as <-. unfold deleteInvalidElements.
    destruct (truthy (invalid_elements settings)); exact Hwf5.
  - eapply addValidElements_patterns_wf; [|exact H].
    unfold deleteInvalidElements. destruct (truthy (invalid_elements settings)); exact Hwf5.
Qed.

(** Every entry of [patternElements] of an instance that can arise
    carries its compiled pattern. *)
Lemma reachable_patterns_wf (st : Schema) :
  reachable st → Forall has_pattern (patternElements st).
Proof.
  induction 1 as [settings st H | ve st st' _ IH H | ve st st' _ IH H
                 | ce st st' _ IH H | vc st st' _ IH H].
  - by eapply newSchema_patterns_wf.
  - by eapply addValidElements_patterns_wf.
  - by eapply setValidElements_patterns_wf.
  - by eapply addCustomElements_patterns_wf.
  - by eapply addValidChildren_patterns_wf.
Qed.

(** On an instance that can arise [getElementRule] returns, for every
    name. *)
Lemma getElementRule_total (st : Schema) (name : string) :
  reachable st → ∃ r, getElementRule st name = Normal r.
Proof.
  intros Hst. unfold getElementRule.
  destruct (elements st !! name); [eauto|].
  by apply scanPatterns_total, reachable_patterns_wf.
Qed.

(** ** [setValidElements] is a full reset *)

Lemma parseRule_frame (st0 : Schema) (rule : string) (acc : Globals * Schema) :
  parseRule rule (acc.1, reframe st0 acc.2) =
  mapOutcome (fun r : Globals * Schema => (r.1, reframe st0 r.2)) (parseRule rule acc).
Proof.
  destruct acc as [globals st]. unfold parseRule. simpl.
  destruct (RegExp_exec elementRuleRegExp rule) as [matches|]; [|reflexivity].
  destruct (match truthy (matches !! 5) with
            | Some attrData => forEach parseAttr (split attrData "|") _
            | None => _
            end) as [rs| |]; simpl; try reflexivity.
  destruct (RegExp_test hasPatternsRegExp _); [|reflexivity].
  destruct (patternToRegExp _); reflexivity.
Qed.

Lemma addValidElements_frame (st0 : Schema) (validElements : option string) (st : Schema) :
  addValidElements validElements (reframe st0 st) =
  mapOutcome (reframe st0) (addValidElements validElements st).
Proof.
  unfold addValidElements. destruct (truthy validElements) as [ve|]; [|reflexivity].
  simpl elements.
  set (globals := match elements st !! "@" with Some _ => _ | None => _ end).
  pose proof (forEach_frame parseRule
                (fun r : Globals * Schema => (r.1, reframe st0 r.2)) (split ve ",")) as H.
  specialize (H (fun x s => parseRule_frame st0 x s) (globals, st)). simpl in H.
  rewrite H.
  destruct (forEach parseRule (split ve ",") (globals, st)) as [[g' st']| |]; reflexivity.
Qed.

(** [addValidElements] only writes the two element tables. *)
Lemma addValidElements_writes (validElements : option string) (st st' : Schema) :
  addValidElements validElements st = Normal st' → st' = reframe st st'.
Proof.
  intros H. pose proof (addValidElements_frame st validElements st) as Hf.
  assert (reframe st st = st) as Hid by (by destruct st).
  rewrite Hid, H in Hf. simpl in Hf. congruence.
Qed.

Lemma setValidElements_unfold (validElements : string) (st : Schema) :
  setValidElements validElements st =
  mapOutcome (fun r => set_children (seedChildren st) (reframe st r))
       (addValidElements (Some validElements) (mkSchema ∅ [] ∅ emptyHeap ∅ ∅ ∅)).
Proof.
  unfold setValidElements.
  change (set_patternElements [] (set_elements ∅ st))
    with (reframe st (mkSchema ∅ [] ∅ emptyHeap ∅ ∅ ∅)).
  rewrite addValidElements_frame.
  destruct (addValidElements _ _); reflexivity.
Qed.



(** ** Reading a rule *)

Lemma hasAttribute_true (rule : SchemaElement) (attr : string) :
  hasAttribute rule attr = true →
  ∃ attrs, attributes rule = Some attrs ∧ is_Some (attrs !! attr).
Proof.
  unfold hasAttribute. destruct (attributes rule) as [attrs|]; [|discriminate].
  intros H%bool_decide_eq_true. eauto.
Qed.

Lemma hasAttribute_false (rule : SchemaElement) (attr : string) (attrs : gmap string Attribute) :
  hasAttribute rule attr = false → attributes rule = Some attrs → attrs !! attr = None.
Proof.
  intros H Ha. unfold hasAttribute in H. rewrite Ha in H.
  apply bool_decide_eq_false in H. by apply eq_None_not_Some.
Qed.

Lemma describe_Some attrs rule order flags :
  describe attrs rule = Some (order, flags) →
  ∃ r, rule = Some r ∧ attributesOrder r = order ∧ hasAttribute r <$> attrs = flags.
Proof. destruct rule as [r|]; simpl; intros H; [|discriminate]. injection H as <- <-. eauto. Qed.

Lemma groups_Some matches g1 g2 g3 g4 g5 :
  groups matches = Some (g1, g2, g3, g4, g5) →
  ∃ m, matches = Some m ∧
       m !! 1 = g1 ∧ m !! 2 = g2 ∧ m !! 3 = g3 ∧ m !! 4 = g4 ∧ m !! 5 = g5.
Proof.
  destruct matches as [m|]; simpl; [|discriminate].
  intros H. exists m. repeat split; congruence.
Qed.

Lemma is_str_None (s : string) : is_str None s = false.
Proof. reflexivity. Qed.

(** ** Global attributes *)



Lemma completes_Normal {A} (m : outcome A) : completes m = true → ∃ a, m = Normal a.
Proof. destruct m; simpl; try discriminate. eauto. Qed.

(** What one rule does: its attribute pass starts from the global
    attributes the parser holds (or from nothing), the rule built is filed
    under the element name, and the first [@] rule becomes the global
    rule. *)
Lemma parseRule_builds (rule : string) (globals : Globals) (st : Schema)
    (acc' : Globals * Schema) (matches : Captures) :
  RegExp_exec elementRuleRegExp rule = Some matches →
  parseRule rule (globals, st) = Normal acc' →
  ∃ rs e,
    attrPass matches (default ∅ globals.1)
      (match globals.1 with Some _ => default [] globals.2 | None => [] end) = Normal rs ∧
    filedAs (default "" (matches !! 2)) e acc'.2 ∧
    attributes e = Some (rs_attributes rs) ∧
    attributesOrder e = Some (rs_attributesOrder rs) ∧
    acc'.1 = if bool_decide (globals.1 = None) && bool_decide (default "" (matches !! 2) = "@")
             then (Some (rs_attributes rs), Some (rs_attributesOrder rs))
             else globals.
Proof.
  intros Hm H. unfold parseRule in H. rewrite Hm in H.
  apply bind_Normal in H as (rs & Hrs & H).
  exists rs.
  assert (attrPass matches (default ∅ globals.1)
            (match globals.1 with Some _ => default [] globals.2 | None => [] end)
          = Normal rs) as Hpass.
  { unfold attrPass, newElement. destruct globals as [[g|] go]; exact Hrs. }
  unfold filedAs.
  destruct (RegExp_test hasPatternsRegExp (default "" (matches !! 2))).
  - apply bind_Normal in H as (p & _ & H). injection H as <-.
    eexists. split; [exact Hpass|]. split; [simpl; apply last_snoc|].
    destruct (matches !! 3); simpl; auto.
  - injection H as <-.
    eexists. split; [exact Hpass|]. split; [simpl; apply lookup_insert_eq|].
    destruct (matches !! 3); simpl; auto.
Qed.

(** Once the parser holds global attributes, no later rule replaces them:
    only the first [@] rule is the global rule. *)
Lemma parseRule_globals_fixed (rule : string) (acc acc' : Globals * Schema) :
  is_Some acc.1.1 → parseRule rule acc = Normal acc' → acc'.1 = acc.1.
Proof.
  destruct acc as [globals st]. intros Hg H.
  cbn [fst] in Hg. destruct Hg as [g Hg]. cbn [fst].
  destruct (RegExp_exec elementRuleRegExp rule) as [matches|] eqn:Hm.
  - destruct (parseRule_builds _ _ _ _ _ Hm H) as (rs & e & _ & _ & _ & _ & ->).
    rewrite Hg. by rewrite (bool_decide_eq_false_2 (Some g = None)).
  - unfold parseRule in H. rewrite Hm in H. by injection H as <-.
Qed.

(** A rule that is not an [@] rule leaves the parser without global
    attributes when it had none. *)
Lemma parseRule_globals_unset (rule : string) (go : option (list string)) (st : Schema)
    (acc' : Globals * Schema) :
  ruleName rule ≠ Some "@" →
  parseRule rule ((None, go), st) = Normal acc' → acc'.1 = (None, go).
Proof.
  unfold ruleName. intros Hname H.
  destruct (RegExp_exec elementRuleRegExp rule) as [matches|] eqn:Hm.
  - destruct (parseRule_builds _ _ _ _ _ Hm H) as (rs & e & _ & _ & _ & _ & ->).
    rewrite (bool_decide_eq_false_2 (default "" (matches !! 2) = "@")).
    + by rewrite andb_false_r.
    + destruct (matches !! 2); simpl; congruence.
  - unfold parseRule in H. rewrite Hm in H. by injection H as <-.
Qed.

Lemma pass_globals_fixed (rules : list string) (acc acc' : Globals * Schema) :
  is_Some acc.1.1 → forEach parseRule rules acc = Normal acc' → acc'.1 = acc.1.
Proof.
  revert acc. induction rules as [|r rules IH]; intros acc Hg H; simpl in H.
  - by injection H as <-.
  - apply bind_Normal in H as (acc1 & H1 & H).
    pose proof (parseRule_globals_fixed _ _ _ Hg H1) as Heq.
    rewrite <- Heq. apply IH; [by rewrite Heq|exact H].
Qed.

Lemma pass_globals_unset (rules : list string) (go : option (list string)) (st : Schema)
    (acc' : Globals * Schema) :
  Forall (fun r => ruleName r ≠ Some "@") rules →
  forEach parseRule rules ((None, go), st) = Normal acc' → acc'.1 = (None, go).
Proof.
  revert st. induction rules as [|r rules IH]; intros st Hno H; simpl in H.
  - by injection H as <-.
  - apply Forall_cons in Hno as [Hr Hno].
    apply bind_Normal in H as ([g1 st1] & H1 & H).
    pose proof (parseRule_globals_unset _ _ _ _ Hr H1) as Heq. simpl in Heq. subst g1.
    by eapply IH.
Qed.



(** ** Attribute patterns in [isValid] *)

(** Once the attribute is not in the exact mapping, the answer of
    [isValid] does not depend on the attribute name any more: the patterns
    are tested against the element name. *)
Lemma isValid_pattern_branch (st : Schema) (n a : string) (rule : SchemaElement)
    (attrs : gmap string Attribute) :
  getElementRule st n = Normal (Some rule) →
  attributes rule = Some attrs →
  attrs !! a = None →
  a ≠ "" →
  isValid st n (Some a) =
  Normal (match attributePatterns rule with
          | Some attrPatterns => scanAttrPatterns attrPatterns n (length attrPatterns)
          | None => false
          end).
Proof.
  intros Hrule Hattrs Ha Hne. unfold isValid. rewrite Hrule. simpl.
  destruct (decide (a = "")) as [|_]; [done|].
  rewrite Hattrs, Ha.
  rewrite bool_decide_eq_false_2 by (by intros [? ?]).
  by destruct (attributePatterns rule).
Qed.

Lemma patternsAccepting_one rule a b :
  patternsAccepting rule a = [b] →
  ∃ p, attributePatterns rule = Some [p] ∧ RegExp_test (attr_pattern p) a = b.
Proof.
  unfold patternsAccepting.
  destruct (attributePatterns rule) as [[|p [|? ?]]|]; simpl; try discriminate.
  intros [= <-]. eauto.
Qed.

Lemma attribute_pattern_run :
  (st ← newSchema (withValidElements "div[data-*],data-x[data-*]");
   div ← getElementRule st "div";
   other ← getElementRule st "data-x";
   valid ← isValid st "div" (Some "data-x");
   valid' ← isValid st "data-x" (Some "zzz");
   Normal (match div, other with
           | Some r, Some r' =>
               Some (hasAttribute r "data-x", patternsAccepting r "data-x",
                     hasAttribute r' "zzz", patternsAccepting r' "zzz")
           | _, _ => None
           end, valid, valid')) =
  Normal (Some (false, [true], false, [false]), false, true).
Proof. vm_compute. reflexivity. Qed.

(** C1 (as the code behaves).  With [valid_elements =
    "div[data-*],data-x[data-*]"]: the attribute [data-x] is not in the
    exact mapping of the rule for [div] and the pattern of that rule
    accepts it, yet [isValid('div', 'data-x')] is false; and
    [isValid('data-x', 'zzz')] is true although the only pattern of the
    rule for [data-x] rejects [zzz]. *)
Theorem isValid_tests_element_name :
  ∃ st div other attrs attrs' p p',
    newSchema (withValidElements "div[data-*],data-x[data-*]") = Normal st ∧
    getElementRule st "div" = Normal (Some div) ∧
    attributes div = Some attrs ∧ attrs !! "data-x" = None ∧
    attributePatterns div = Some [p] ∧
    RegExp_test (attr_pattern p) "data-x" = true ∧
    isValid st "div" (Some "data-x") = Normal false ∧
    getElementRule st "data-x" = Normal (Some other) ∧
    attributes other = Some attrs' ∧ attrs' !! "zzz" = None ∧
    attributePatterns other = Some [p'] ∧
    RegExp_test (attr_pattern p') "zzz" = false ∧
    isValid st "data-x" (Some "zzz") = Normal true.
Proof.
  pose proof attribute_pattern_run as H. steps H.
  destruct v0 as [div|]; [|discriminate]. destruct v1 as [other|]; [|discriminate].
  injection H as Hin Hpat Hin' Hpat' -> ->.
  apply patternsAccepting_one in Hpat as (p & Hp & Hacc).
  apply patternsAccepting_one in Hpat' as (p' & Hp' & Hacc').
  destruct (attributes div) as [attrs|] eqn:Hattrs.
  2:{ unfold isValid in Hv2. rewrite Hv0 in Hv2. simpl in Hv2.
      rewrite Hattrs in Hv2. discriminate. }
  destruct (attributes other) as [attrs'|] eqn:Hattrs'.
  2:{ unfold isValid in Hv3. rewrite Hv1 in Hv3. simpl in Hv3.
      rewrite Hattrs' in Hv3. discriminate. }
  exists v, div, other, attrs, attrs', p, p'.
  pose proof (hasAttribute_false _ _ _ Hin Hattrs).
  pose proof (hasAttribute_false _ _ _ Hin' Hattrs').
  repeat (split; [assumption || reflexivity|]). assumption.
Qed.

(** ** Denied attributes *)

Lemma inArray_absent (a : list string) (v : string) :
  v ∉ a → inArray a v = (-1)%Z.
Proof.
  induction a as [|x a IH]; simpl; [reflexivity|].
  intros Hv. apply not_elem_of_cons in Hv as [Hne Hv].
  destruct (decide (x = v)); [congruence|].
  rewrite (IH Hv). reflexivity.
Qed.

Lemma inArray_present (a : list string) (v : string) :
  v ∈ a → ∃ i : nat, inArray a v = Z.of_nat i ∧ a !! i = Some v.
Proof.
  induction a as [|x a IH]; simpl; intros Hv; [by apply elem_of_nil in Hv|].
  destruct (decide (x = v)) as [->|Hne]; [by exists 0%nat|].
  apply elem_of_cons in Hv as [?|Hv]; [congruence|].
  destruct (IH Hv) as (i & Hi & Hl). rewrite Hi.
  destruct (Z.ltb_spec (Z.of_nat i) 0); [lia|].
  exists (S i). split; [lia|exact Hl].
Qed.

Lemma splice1_at (a : list string) (i : nat) :
  (i < length a)%nat → splice1 a (Z.of_nat i) = take i a ++ drop (S i) a.
Proof.
  intros Hi. unfold splice1.
  destruct (Z.ltb_spec (Z.of_nat i) 0); [lia|].
  rewrite Z.min_l by lia. by rewrite Nat2Z.id.
Qed.

Lemma splice1_last (a : list string) :
  splice1 a (-1) = take (length a - 1) a.
Proof.
  unfold splice1. simpl.
  destruct a as [|x a]; [reflexivity|].
  rewrite Z.max_l by (simpl length; lia).
  replace (Z.to_nat (Z.of_nat (length (x :: a)) + -1)) with (length a)
    by (simpl length; lia).
  replace (length (x :: a) - 1)%nat with (length a) by (simpl; lia).
  rewrite (drop_ge (x :: a)) by (simpl; lia). by rewrite app_nil_r.
Qed.

(** Denying a name that is not in the order list removes the last entry
    of the list. *)
Lemma denied_absent_removes_last (order : list string) (v : string) :
  v ∉ order → splice1 order (inArray order v) = take (length order - 1) order.
Proof. intros Hv. rewrite (inArray_absent _ _ Hv). apply splice1_last. Qed.

Lemma remove_at_sublist (a : list string) (k : nat) :
  sublist (take k a ++ drop (S k) a) a.
Proof.
  revert k. induction a as [|x a IH]; intros k; [by destruct k|].
  destruct k as [|k]; simpl.
  - rewrite drop_0. by apply sublist_cons.
  - apply sublist_skip, IH.
Qed.

(** [splice1] removes entries only. *)
Lemma splice1_sublist (a : list string) (i : Z) : sublist (splice1 a i) a.
Proof. unfold splice1. apply remove_at_sublist. Qed.

(** Denying an attribute that is in the order list (once) removes it. *)
Lemma splice1_removes (a : list string) (v : string) :
  NoDup a → v ∉ splice1 a (inArray a v).
Proof.
  intros Hnd. destruct (decide (v ∈ a)) as [Hin|Hnin].
  - destruct (inArray_present a v Hin) as (i & -> & Hi).
    rewrite splice1_at by (by eapply lookup_lt_Some).
    rewrite <- (take_drop_middle a i v Hi) in Hnd.
    apply NoDup_app in Hnd as (_ & Hdisj & Hnd).
    apply NoDup_cons in Hnd as [Hnotin _].
    intros [H|H]%elem_of_app; [|done].
    apply (Hdisj v H). by left.
  - intros H. apply Hnin. eapply elem_of_sublist; [exact H|]. apply splice1_sublist.
Qed.

Lemma deny_absent_step :
  parseAttr "-title" (mkRuleState {["href" := emptyAttribute]} ["href"] emptyObject) =
  Normal (mkRuleState {["href" := emptyAttribute]} [] emptyObject).
Proof. vm_compute. reflexivity. Qed.

Lemma deny_present_step :
  parseAttr "-href"
    (mkRuleState {["href" := emptyAttribute; "title" := emptyAttribute]}
       ["href"; "title"] emptyObject) =
  Normal (mkRuleState {["title" := emptyAttribute]} ["title"] emptyObject).
Proof. vm_compute. reflexivity. Qed.

Lemma denial_run :
  (st ← newSchema (withValidElements "a[href|-title],b[href|title|-href]");
   a ← getElementRule st "a";
   b ← getElementRule st "b";
   Normal (describe ["href"; "title"] a, describe ["href"; "title"] b)) =
  Normal (Some (Some [], [true; false]), Some (Some ["title"], [false; true])).
Proof. vm_compute. reflexivity. Qed.

(** C2 (as the code behaves).  The token [-title] in [a[href|-title]]
    names an attribute the rule does not have; it leaves the attribute
    mapping alone but removes the last entry, [href], of [attributesOrder].
    The token [-href] in [b[href|title|-href]] names an attribute the rule
    has and removes it from the mapping and from the order. *)
Theorem denying_absent_attribute_drops_last :
  (∃ st a attrs,
      newSchema (withValidElements "a[href|-title],b[href|title|-href]") = Normal st ∧
      getElementRule st "a" = Normal (Some a) ∧
      attributes a = Some attrs ∧ is_Some (attrs !! "href") ∧
      attributesOrder a = Some [] ∧
      ∃ b attrs',
        getElementRule st "b" = Normal (Some b) ∧
        attributes b = Some attrs' ∧ attrs' !! "href" = None ∧
        is_Some (attrs' !! "title") ∧ attributesOrder b = Some ["title"]) ∧
  parseAttr "-title" (mkRuleState {["href" := emptyAttribute]} ["href"] emptyObject) =
  Normal (mkRuleState {["href" := emptyAttribute]} [] emptyObject).
Proof.
  split; [|exact deny_absent_step].
  pose proof denial_run as H. steps H. injection H as Ha Hb.
  apply describe_Some in Ha as (a & -> & Horder & Hflags).
  apply describe_Some in Hb as (b & -> & Horder' & Hflags').
  injection Hflags as Hhref _. injection Hflags' as Hhref' Htitle'.
  destruct (hasAttribute_true _ _ Hhref) as (attrs & Hattrs & ?).
  destruct (hasAttribute_true _ _ Htitle') as (attrs' & Hattrs' & ?).
  pose proof (hasAttribute_false _ _ _ Hhref' Hattrs').
  exists v, a, attrs. repeat (split; [assumption|]).
  exists b, attrs'. repeat (split; [assumption|]). assumption.
Qed.

(** ** Exceptions *)

Lemma failing_mutators_run :
  (st ← newSchema (withSchema html4);
   Normal [failure (addCustomElements (Some "bogus,") st);
           failure (addValidElements (Some "a[href|]") st);
           failure (addValidChildren (Some "+bogus[p]") st)]) =
  Normal [Some TypeError; Some TypeError; Some TypeError].
Proof. vm_compute. reflexivity. Qed.

Lemma failing_constructor_run :
  failure (newSchema (customSettings None (Some "bogus,"))) = Some TypeError.
Proof. vm_compute. reflexivity. Qed.

Lemma failing_query_run :
  (st ← newSchema (customSettings (Some "p") (Some "x"));
   valid ← isValid st "x" None;
   Normal (valid, failure (isValid st "x" (Some "id")))) =
  Normal (true, Some TypeError).
Proof. vm_compute. reflexivity. Qed.

(** C3 (as the code behaves).  Some string inputs make a public operation
    raise a [TypeError]: a custom element list with an empty item
    ([customElementRegExp.exec] gives [null] and is indexed without a
    check), in the mutator and in the constructor; an attribute block with
    an empty token (capture group 2 is undefined and [.replace] is called
    on it); a [+] rule of [addValidChildren] for a parent without a child
    set; and [isValid] with an attribute on a custom element cloned while
    the clone source had no rule. *)
Theorem public_operations_can_throw :
  (∃ st, newSchema (withSchema html4) = Normal st ∧
         addCustomElements (Some "bogus,") st = Throws TypeError ∧
         addValidElements (Some "a[href|]") st = Throws TypeError ∧
         addValidChildren (Some "+bogus[p]") st = Throws TypeError) ∧
  newSchema (customSettings None (Some "bogus,")) = Throws TypeError ∧
  (∃ st, newSchema (customSettings (Some "p") (Some "x")) = Normal st ∧
         isValid st "x" None = Normal true ∧
         isValid st "x" (Some "id") = Throws TypeError).
Proof.
  split; [|split].
  - pose proof failing_mutators_run as H. steps H.
    apply Normal_inj, list3_inj in H as (H1 & H2 & H3).
    exists v. auto using failure_Some.
  - apply failure_Some, failing_constructor_run.
  - pose proof failing_query_run as H. steps H.
    injection H as -> H. exists v. auto using failure_Some.
Qed.

(** ** Duplicates in [attributesOrder] *)

Lemma link_order_run (t : SchemaType) :
  (st ← newSchema (withSchema t); rule ← getElementRule st "link";
   Normal (orderCheck rule)) = Normal (Some (false, 2)).
Proof. destruct t; vm_compute; reflexivity. Qed.

(** C4 (as the code behaves).  In every schema type the rule for [link]
    lists [hreflang] twice in [attributesOrder]: the attribute string of
    [add('link', ...)] names it twice. *)
Theorem link_attributesOrder_has_duplicate (t : SchemaType) :
  ∃ st rule order,
    newSchema (withSchema t) = Normal st ∧
    getElementRule st "link" = Normal (Some rule) ∧
    attributesOrder rule = Some order ∧
    length (filter (fun a => a = "hreflang") order) = 2 ∧
    ¬ NoDup order.
Proof.
  pose proof (link_order_run t) as H. steps H. injection H as H.
  unfold orderCheck in H. destruct v0 as [rule|]; [|discriminate].
  destruct (attributesOrder rule) as [order|] eqn:Horder; [|discriminate].
  injection H as Hnd Hcount. apply bool_decide_eq_false in Hnd.
  exists v, rule, order. auto.
Qed.

Lemma default_duplicates_run (t : SchemaType) :
  mapOutcome duplicated (newSchema (withSchema t)) = Normal ["link"].
Proof. destruct t; vm_compute; reflexivity. Qed.

(** In the instance built from default settings, [link] is the only rule
    with a duplicate in its order list. *)
Lemma only_link_has_duplicate (t : SchemaType) (st : Schema) (n : string)
    (rule : SchemaElement) (order : list string) :
  newSchema (withSchema t) = Normal st →
  elements st !! n = Some rule →
  attributesOrder rule = Some order →
  n ≠ "link" →
  NoDup order.
Proof.
  intros Hst Hrule Horder Hn.
  pose proof (default_duplicates_run t) as H. rewrite Hst in H. simpl in H.
  apply Normal_inj in H.
  destruct (decide (NoDup order)) as [Hnd|Hdup]; [exact Hnd|].
  exfalso. apply Hn.
  assert (In n (duplicated st)) as Hin.
  { unfold duplicated. apply in_flat_map. exists (n, rule). split.
    - apply list_elem_of_In, elem_of_map_to_list, Hrule.
    - simpl. rewrite Horder. rewrite bool_decide_eq_false_2 by done. by left. }
  rewrite H in Hin. by destruct Hin as [<-|[]].
Qed.

(** ** The order list in the rule parser *)

Lemma deny_order_ok (attrs : gmap string Attribute) (order : list string) (n : string) :
  order_ok attrs order →
  order_ok (delete n attrs) (splice1 order (inArray order n)).
Proof.
  intros [Hnd Hsub]. split.
  - eapply sublist_NoDup; [exact Hnd|apply splice1_sublist].
  - intros x Hx.
    assert (x ≠ n) by (intros ->; by apply (splice1_removes _ n Hnd)).
    rewrite lookup_delete_ne by done.
    apply Hsub. eapply elem_of_sublist; [exact Hx|apply splice1_sublist].
Qed.

Lemma add_order_ok (attrs : gmap string Attribute) (order : list string) (n : string)
    (attr : Attribute) :
  order_ok attrs order →
  order_ok (<[n := attr]> attrs)
           (if bool_decide (is_Some (attrs !! n)) then order else order ++ [n]).
Proof.
  intros [Hnd Hsub]. split.
  - destruct (bool_decide (is_Some (attrs !! n))) eqn:Hin; [exact Hnd|].
    apply bool_decide_eq_false_1 in Hin.
    apply NoDup_app. split; [exact Hnd|]. split; [|apply NoDup_singleton].
    intros x Hx ->%list_elem_of_singleton. by apply Hin, Hsub.
  - intros x Hx. destruct (decide (n = x)) as [->|Hne].
    + rewrite lookup_insert_eq. by eexists.
    + rewrite lookup_insert_ne by done. apply Hsub.
      destruct (bool_decide (is_Some (attrs !! n))); [exact Hx|].
      apply elem_of_app in Hx as [Hx|Hx%list_elem_of_singleton]; [exact Hx|congruence].
Qed.

Lemma parseAttr_order_ok (token : string) (rs rs' : RuleState) :
  order_ok (rs_attributes rs) (rs_attributesOrder rs) →
  parseAttr token rs = Normal rs' →
  order_ok (rs_attributes rs') (rs_attributesOrder rs').
Proof.
  intros Hok H. unfold parseAttr in H.
  destruct (RegExp_exec attrRuleRegExp token) as [matches|]; [|by injection H as <-].
  destruct (matches !! 2) as [m2|]; [|discriminate].
  set (attrName := replace_escaped_colon m2) in *.
  destruct (is_str (matches !! 1) "!"); simpl in H;
    (destruct (is_str (matches !! 1) "-");
     [ injection H as <-; by apply deny_order_ok | ]);
    destruct (is_str (matches !! 3) "="); simpl in H;
    destruct (is_str (matches !! 3) ":"); simpl in H;
    (destruct (RegExp_test hasPatternsRegExp attrName);
     [ apply bind_Normal in H as (p & _ & H); by injection H as <-
     | injection H as <-; by apply add_order_ok ]).
Qed.

Lemma parseRule_rules_ok (rule : string) (acc acc' : Globals * Schema) :
  globals_ok acc.1 → rules_ok acc.2 →
  parseRule rule acc = Normal acc' →
  globals_ok acc'.1 ∧ rules_ok acc'.2.
Proof.
  destruct acc as [globals st]. simpl. intros Hg [Hel Hpat] H. unfold parseRule in H.
  destruct (RegExp_exec elementRuleRegExp rule) as [matches|];
    [|injection H as <-; exact (conj Hg (conj Hel Hpat))].
  apply bind_Normal in H as (rs & Hrs & H).
  assert (order_ok (rs_attributes rs) (rs_attributesOrder rs)) as Hok.
  { assert (∀ rs0, order_ok (rs_attributes rs0) (rs_attributesOrder rs0) →
                   match truthy (matches !! 5) with
                   | Some attrData => forEach parseAttr (split attrData "|") rs0
                   | None => Normal rs0
                   end = Normal rs →
                   order_ok (rs_attributes rs) (rs_attributesOrder rs)) as Hloop.
    { intros rs0 H0 Hl. destruct (truthy (matches !! 5)); [|by injection Hl as <-].
      revert Hl. apply (forEach_invariant
                          (fun r => order_ok (rs_attributes r) (rs_attributesOrder r)));
        [|exact H0].
      intros x r r'. apply parseAttr_order_ok. }
    destruct globals as [[ga|] go]; simpl in Hrs; eapply Hloop; try exact Hrs.
    - by apply Hg.
    - split; [constructor|]. by intros x ?%elem_of_nil. }
  set (el0 := set_attributes _ _) in H.
  assert (∀ nm (o : option string),
            rule_ok (match o with
                     | Some _ => set_outputName (Some nm) el0
                     | None => el0
                     end)) as Hrule.
  { intros nm o attrs order. destruct o; simpl; by intros [= <-] [= <-]. }
  assert (∀ p nm (o : option string),
            rule_ok (set_pattern p
                       (match o with
                        | Some _ => set_outputName (Some nm) el0
                        | None => el0
                        end))) as Hrule'.
  { intros p nm o attrs order. destruct o; simpl; by intros [= <-] [= <-]. }
  assert (globals_ok
            (if bool_decide (globals.1 = None) && bool_decide (default "" (matches !! 2) = "@")
             then (Some (rs_attributes rs), Some (rs_attributesOrder rs))
             else globals)) as Hg'.
  { destruct (_ && _); [|exact Hg]. by intros attrs [= <-]. }
  destruct (RegExp_test hasPatternsRegExp _).
  - apply bind_Normal in H as (p & _ & H). injection H as <-. simpl.
    split; [exact Hg'|]. split; simpl.
    + intros n e. destruct (matches !! 3) as [o|]; [|apply Hel].
      destruct (decide (o = n)) as [->|Hne].
      * rewrite lookup_insert_eq. intros [= <-]. apply (Hrule' (Some p) _ (Some n)).
      * rewrite lookup_insert_ne by done. apply Hel.
    + apply Forall_app. split; [exact Hpat|].
      constructor; [|constructor]. apply (Hrule' (Some p) _ (matches !! 3)).
  - injection H as <-. simpl. split; [exact Hg'|]. split; simpl; [|exact Hpat].
    intros n e. destruct (decide (default "" (matches !! 2) = n)) as [->|Hne].
    + rewrite lookup_insert_eq. intros [= <-]. apply Hrule.
    + rewrite lookup_insert_ne by done.
      destruct (matches !! 3) as [o|]; [|apply Hel].
      destruct (decide (o = n)) as [->|Hne'].
      * rewrite lookup_insert_eq. intros [= <-]. apply (Hrule _ (Some n)).
      * rewrite lookup_insert_ne by done. apply Hel.
Qed.

(** The rule parser keeps every order list free of duplicates. *)
Lemma addValidElements_rules_ok (validElements : option string) (st st' : Schema) :
  rules_ok st → addValidElements validElements st = Normal st' → rules_ok st'.
Proof.
  unfold addValidElements. intros Hok H.
  destruct (truthy validElements) as [ve|]; [|by injection H as <-].
  apply bind_Normal in H as (acc & H & Hacc). injection Hacc as <-.
  revert H.
  apply (forEach_invariant (fun acc => globals_ok acc.1 ∧ rules_ok acc.2)).
  - intros x s s' [Hg Hs]. by apply parseRule_rules_ok.
  - split; [|exact Hok]. simpl.
    destruct (elements st !! "@") as [g|] eqn:Hg; [|by intros attrs [=]].
    intros attrs Hattrs. simpl in *.
    destruct (attributesOrder g) as [order|] eqn:Horder; simpl.
    + by apply (proj1 Hok "@" g Hg).
    + split; [constructor|]. by intros x ?%elem_of_nil.
Qed.

(** Every rule of an instance set up by [setValidElements] has an order
    list without duplicates. *)
Lemma setValidElements_rules_ok (validElements : string) (st st' : Schema) :
  setValidElements validElements st = Normal st' → rules_ok st'.
Proof.
  unfold setValidElements. intros H.
  apply bind_Normal in H as (st1 & H1 & H). injection H as <-.
  eapply addValidElements_rules_ok in H1; [exact H1|].
  split; [|constructor]. intros n e. simpl. by rewrite lookup_empty.
Qed.

Lemma cloneRule_ok (o : option SchemaElement) :
  (∀ r, o = Some r → rule_ok r) → rule_ok (cloneRule o).
Proof.
  intros H. destruct o as [r|]; simpl.
  - intros attrs order. simpl. apply (H r eq_refl).
  - intros attrs order. discriminate.
Qed.

Lemma addCustomElements_rules_ok customElements st st' :
  rules_ok st → addCustomElements customElements st = Normal st' → rules_ok st'.
Proof.
  unfold addCustomElements. intros Hok H.
  destruct (truthy customElements) as [ce|]; [|by injection H as <-].
  revert H. apply forEach_invariant; [|exact Hok].
  clear. intros rule st st' Hok H. unfold addCustomElement in H.
  destruct (RegExp_exec customElementRegExp rule) as [matches|]; [|discriminate].
  destruct (children st !! _) as [l|]; [|discriminate].
  revert H. apply spliceCustom_preserves.
  - intros s c h Hs. exact Hs.
  - intros s [= <-].
    set (cloneName := if is_str (matches !! 1) "~" then "span" else "div").
    assert (∀ s0, elements s0 = elements st → patternElements s0 = patternElements st →
                  rules_ok match elements s0 !! default "" (matches !! 2) with
                           | Some _ => s0
                           | None =>
                               set_elements
                                 (<[default "" (matches !! 2) :=
                                      cloneRule (elements s0 !! cloneName)]> (elements s0)) s0
                           end) as Hins.
    { intros s0 He Hp. destruct Hok as [Hel Hpat].
      destruct (elements s0 !! default "" (matches !! 2)) eqn:Hfound.
      - split; [rewrite He; exact Hel|rewrite Hp; exact Hpat].
      - split; simpl; [|rewrite Hp; exact Hpat].
        intros n e. destruct (decide (default "" (matches !! 2) = n)) as [Heq|Hne].
        + rewrite Heq, lookup_insert_eq. intros [= <-].
          apply cloneRule_ok. intros r Hr. rewrite He in Hr. by eapply Hel.
        + rewrite lookup_insert_ne by done. rewrite He. apply Hel. }
    destruct (is_str (matches !! 1) "~"); by apply Hins.
Qed.

Lemma addValidChildren_rules_ok validChildren st st' :
  rules_ok st → addValidChildren validChildren st = Normal st' → rules_ok st'.
Proof.
  unfold addValidChildren. intros Hok H.
  destruct (truthy validChildren) as [vc|]; [|by injection H as <-].
  revert H. apply forEach_invariant; [|exact Hok].
  clear. intros rule st st' Hok H. unfold addValidChild in H.
  destruct (RegExp_exec childRuleRegExp rule) as [matches|]; [|by injection H as <-].
  revert H. apply forEach_invariant.
  - intros child s s' Hs H. unfold editChild in H.
    destruct (children s !! _) as [l|]; [|discriminate].
    destruct (objects (heap s) !! l) as [parent|]; [|discriminate].
    destruct (bool_decide _); by injection H as <-.
  - destruct (bool_decide _); [|exact Hok]. by destruct (alloc _ _).
Qed.

Lemma foldl_delete_lookup (items : list string) (els : gmap string SchemaElement) n e :
  foldl (fun els item => delete item els) els items !! n = Some e → els !! n = Some e.
Proof.
  revert els. induction items as [|x items IH]; intros els; simpl; [done|].
  intros H%IH. by apply lookup_delete_Some in H as [_ H].
Qed.

Lemma deleteInvalidElements_rules_ok invalid st :
  rules_ok st → rules_ok (deleteInvalidElements invalid st).
Proof.
  intros [Hel Hpat]. unfold deleteInvalidElements.
  destruct (truthy invalid); [|by split]. split; [|exact Hpat]. simpl.
  intros n e H%foldl_delete_lookup. by eapply Hel.
Qed.

(** With a [valid_elements] setting (or [verify_html = false]) every rule
    of the constructed instance has an order list without duplicates: the
    duplicate in the rule for [link] comes from the base grammar alone. *)
Lemma newSchema_parsed_rules_ok (settings : SchemaSettings) (st : Schema) :
  is_Some (truthy (if bool_decide (verify_html settings = Some false)
                   then Some "*[*]" else valid_elements settings)) →
  newSchema settings = Normal st → rules_ok st.
Proof.
  unfold newSchema, configure, allowInternalSpans. intros [ve Hve] H.
  apply bind_Normal in H as (st0 & Hconf & H).
  apply bind_Normal in Hconf as (compiled & _ & Hconf).
  apply bind_Normal in Hconf as (st1 & H1 & Hconf).
  apply bind_Normal in Hconf as (st2 & H2 & Hconf).
  apply bind_Normal in Hconf as (st3 & H3 & Hconf).
  apply bind_Normal in Hconf as (st4 & H4 & Hconf).
  apply bind_Normal in Hconf as (st5 & H5 & Hconf).
  injection Hconf as <-.
  rewrite Hve in H1. apply setValidElements_rules_ok in H1.
  assert (rules_ok st5) as Hok5.
  { eapply addValidChildren_rules_ok; [|exact H5].
    eapply addValidElements_rules_ok; [|exact H4].
    eapply addValidChildren_rules_ok; [|exact H3].
    eapply addCustomElements_rules_ok; [|exact H2]. exact H1. }
  apply (deleteInvalidElements_rules_ok (invalid_elements settings)) in Hok5.
  apply bind_Normal in H as (found & _ & H).
  destruct found.
  - by injection H as <-.
  - by eapply addValidElements_rules_ok.
Qed.

(** ** Custom elements *)

(** An inline custom element ([~name]) leaves the block elements alone,
    whatever the instance. *)
Lemma addCustomElement_inline_blockElements (rule : string) (st st' : Schema) :
  (∃ matches, RegExp_exec customElementRegExp rule = Some matches ∧
              matches !! 1 = Some "~") →
  addCustomElement rule st = Normal st' →
  blockElementsMap st' = blockElementsMap st.
Proof.
  intros (matches & Hexec & Hinline). unfold addCustomElement.
  rewrite Hexec, Hinline. unfold is_str. rewrite bool_decide_eq_true_2 by done.
  destruct (children st !! "span") as [l|]; [|discriminate].
  apply (spliceCustom_preserves (fun s => blockElementsMap s = blockElementsMap st)).
  - intros s c h Hs. exact Hs.
  - intros s [= <-]. by destruct (elements _ !! _).
Qed.

Lemma custom_elements_run :
  (st ← newSchema (withSchema html5);
   before ← isValid st "bogus" None;
   div ← isValid st "div" None;
   block ← addCustomElements (Some "bogus") st;
   after ← isValid block "bogus" None;
   inline ← addCustomElements (Some "~bogus") st;
   after' ← isValid inline "bogus" None;
   Normal [ before; div; after; isValidChild block "div" "bogus";
            bool_decide (is_Some (getBlockElements block !! "bogus"));
            after'; isValidChild inline "p" "bogus";
            bool_decide (is_Some (getBlockElements inline !! "bogus"));
            bool_decide (getBlockElements inline = getBlockElements st) ]) =
  Normal [false; true; true; true; true; true; true; false; true].
Proof. vm_compute. reflexivity. Qed.

(** C8.  On the [html5] schema with default settings [isValid('bogus')]
    is false.  After [addCustomElements('bogus')], [isValid('bogus')] and
    [isValidChild('div', 'bogus')] are true (and [bogus] is a block
    element).  After [addCustomElements('~bogus')] on the fresh instance,
    [isValidChild('p', 'bogus')] is true and the map of block elements is
    the one from before, without the key [bogus]. *)
Theorem custom_elements_html5 :
  ∃ st,
    newSchema (withSchema html5) = Normal st ∧
    isValid st "div" None = Normal true ∧
    isValid st "bogus" None = Normal false ∧
    (∃ block,
        addCustomElements (Some "bogus") st = Normal block ∧
        isValid block "bogus" None = Normal true ∧
        isValidChild block "div" "bogus" = true ∧
        is_Some (getBlockElements block !! "bogus")) ∧
    (∃ inline,
        addCustomElements (Some "~bogus") st = Normal inline ∧
        isValid inline "bogus" None = Normal true ∧
        isValidChild inline "p" "bogus" = true ∧
        getBlockElements inline !! "bogus" = None ∧
        getBlockElements inline = getBlockElements st).
Proof.
  pose proof custom_elements_run as H. steps H. apply Normal_inj in H.
  rename v into st, v2 into block, v4 into inline.
  assert (v0 = false) as -> by congruence.
  assert (v1 = true) as -> by congruence.
  assert (v3 = true) as -> by congruence.
  assert (v5 = true) as -> by congruence.
  assert (isValidChild block "div" "bogus" = true) by congruence.
  assert (isValidChild inline "p" "bogus" = true) by congruence.
  assert (bool_decide (is_Some (getBlockElements block !! "bogus")) = true) as Hb
    by congruence.
  assert (bool_decide (is_Some (getBlockElements inline !! "bogus")) = false) as Hi
    by congruence.
  assert (bool_decide (getBlockElements inline = getBlockElements st) = true) as Hsame
    by congruence.
  apply bool_decide_eq_true_1 in Hb, Hsame.
  apply bool_decide_eq_false_1, eq_None_not_Some in Hi.
  exists st. repeat (split; [assumption|]). split.
  - exists block. auto.
  - exists inline. auto 10.
Qed.

(** ** The clean-up of the base grammar *)

Lemma base_grammar_run (t : SchemaType) :
  mapOutcome (fun compiled =>
          [ compiledChild compiled "a" "a"; compiledChild compiled "form" "form";
            compiledChild compiled "meter" "meter";
            compiledChild compiled "progress" "progress";
            compiledChild compiled "dfn" "dfn"; compiledChild compiled "caption" "table";
            bool_decide (is_Some (compiled.2 !! "script"));
            compiledChild compiled "div" "a"; compiledChild compiled "div" "table" ])
       (compileSchema (Some t)) =
  Normal [false; false; false; false; false; false; false; true; true].
Proof. destruct t; vm_compute; reflexivity. Qed.

Lemma default_instance_run (t : SchemaType) :
  (st ← newSchema (withSchema t);
   script ← getElementRule st "script";
   valid ← isValid st "script" None;
   Normal [ isValidChild st "a" "a"; isValidChild st "form" "form";
            isValidChild st "meter" "meter"; isValidChild st "progress" "progress";
            isValidChild st "dfn" "dfn"; isValidChild st "caption" "table";
            bool_decide (is_Some script); valid ]) =
  Normal [false; false; false; false; false; false; false; false].
Proof. destruct t; vm_compute; reflexivity. Qed.

Lemma script_readded_run (t : SchemaType) :
  (st ← newSchema (withExtended t "script[src]");
   script ← getElementRule st "script";
   st' ← newSchema (withTypeAndValid t "script[src]");
   script' ← getElementRule st' "script";
   Normal [bool_decide (is_Some script); bool_decide (is_Some script')]) =
  Normal [true; true].
Proof. destruct t; vm_compute; reflexivity. Qed.

(** C9.  For each schema type, in the table [compileSchema] returns and
    in the instance built from default settings: none of [a], [form],
    [meter], [progress], [dfn] is a valid child of itself, [table] is not
    a valid child of [caption], and there is no [script] element, so
    [getElementRule('script')] is undefined.  A rule for [script] given in
    [extended_valid_elements] or in [valid_elements] brings it back. *)
Theorem base_grammar_cleanup (t : SchemaType) :
  (∃ compiled,
      compileSchema (Some t) = Normal compiled ∧
      compiledChild compiled "a" "a" = false ∧
      compiledChild compiled "form" "form" = false ∧
      compiledChild compiled "meter" "meter" = false ∧
      compiledChild compiled "progress" "progress" = false ∧
      compiledChild compiled "dfn" "dfn" = false ∧
      compiledChild compiled "caption" "table" = false ∧
      compiled.2 !! "script" = None) ∧
  (∃ st,
      newSchema (withSchema t) = Normal st ∧
      isValidChild st "a" "a" = false ∧
      isValidChild st "form" "form" = false ∧
      isValidChild st "meter" "meter" = false ∧
      isValidChild st "progress" "progress" = false ∧
      isValidChild st "dfn" "dfn" = false ∧
      isValidChild st "caption" "table" = false ∧
      getElementRule st "script" = Normal None) ∧
  (∃ st rule,
      newSchema (withExtended t "script[src]") = Normal st ∧
      getElementRule st "script" = Normal (Some rule)) ∧
  (∃ st rule,
      newSchema (withTypeAndValid t "script[src]") = Normal st ∧
      getElementRule st "script" = Normal (Some rule)).
Proof.
  split; [|split; [|split]].
  - destruct (mapOutcome_Normal _ _ _ (base_grammar_run t)) as (compiled & Hc & H).
    exists compiled. split; [exact Hc|].
    repeat (split; [congruence|]).
    assert (bool_decide (is_Some (compiled.2 !! "script")) = false) as Hs by congruence.
    by apply bool_decide_eq_false_1, eq_None_not_Some in Hs.
  - pose proof (default_instance_run t) as H. steps H. apply Normal_inj in H.
    exists v. split; [assumption|].
    repeat (split; [congruence|]).
    destruct v0 as [rule|]; [|assumption].
    assert (bool_decide (is_Some (Some rule)) = false) by congruence.
    discriminate.
  - pose proof (script_readded_run t) as H. steps H. apply Normal_inj in H.
    destruct v0 as [rule|]; [|discriminate]. eauto.
  - pose proof (script_readded_run t) as H. steps H. apply Normal_inj in H.
    destruct v2 as [rule|]; [|discriminate]. eauto.
Qed.

(** ** The rule for internal spans *)

Lemma required_token_groups :
  groups (RegExp_exec attrRuleRegExp "!data-mce-type") =
  Some (Some "!", Some "data-mce-type", None, None, None).
Proof. vm_compute. reflexivity. Qed.

Lemma parseAttr_required (rs : RuleState) :
  parseAttr "!data-mce-type" rs =
  Normal (mkRuleState
            (<["data-mce-type" := mkAttribute true None None None]> (rs_attributes rs))
            (if bool_decide (is_Some (rs_attributes rs !! "data-mce-type"))
             then rs_attributesOrder rs
             else rs_attributesOrder rs ++ ["data-mce-type"])
            (set_attributesRequired
               (Some (default [] (attributesRequired (rs_element rs)) ++ ["data-mce-type"]))
               (rs_element rs))).
Proof.
  destruct (groups_Some _ _ _ _ _ _ required_token_groups)
    as (m & Hm & H1 & H2 & H3 & H4 & _).
  unfold parseAttr. rewrite Hm, H1, H2, H3, H4.
  rewrite !is_str_None.
  calc (is_str (Some "!") "!") true.
  calc (is_str (Some "!") "-") false.
  calc (replace_escaped_colon "data-mce-type") "data-mce-type".
  calc (RegExp_test hasPatternsRegExp "data-mce-type") false.
  reflexivity.
Qed.

Lemma wildcard_token_groups :
  groups (RegExp_exec attrRuleRegExp "*") = Some (None, Some "*", None, None, None).
Proof. vm_compute. reflexivity. Qed.

Lemma parseAttr_wildcard (rs : RuleState) :
  parseAttr "*" rs =
  Normal (mkRuleState
            (rs_attributes rs) (rs_attributesOrder rs)
            (set_attributePatterns
               (Some (default [] (attributePatterns (rs_element rs))
                      ++ [mkAttributePattern emptyAttribute anyName]))
               (rs_element rs))).
Proof.
  destruct (groups_Some _ _ _ _ _ _ wildcard_token_groups)
    as (m & Hm & H1 & H2 & H3 & H4 & _).
  unfold parseAttr. rewrite Hm, H1, H2, H3, H4.
  rewrite !is_str_None.
  calc (replace_escaped_colon "*") "*".
  calc (RegExp_test hasPatternsRegExp "*") true.
  calc (patternToRegExp "*") (Normal anyName).
  reflexivity.
Qed.

Lemma span_rule_groups :
  groups (RegExp_exec elementRuleRegExp "span[!data-mce-type|*]") =
  Some (None, Some "span", None, Some "", Some "!data-mce-type|*").
Proof. vm_compute. reflexivity. Qed.

Lemma parseRule_internal_span (globals : Globals) (st : Schema) :
  parseRule "span[!data-mce-type|*]" (globals, st) =
  Normal (globals, set_elements (<["span" := internalSpanRule globals]> (elements st)) st).
Proof.
  destruct (groups_Some _ _ _ _ _ _ span_rule_groups)
    as (m & Hm & H1 & H2 & H3 & H4 & H5).
  unfold parseRule. rewrite Hm, H1, H2, H3, H4, H5.
  rewrite !is_str_None.
  calc (is_str (Some "") "!") false.
  calc (truthy (Some "!data-mce-type|*")) (Some "!data-mce-type|*").
  calc (split "!data-mce-type|*" "|") ["!data-mce-type"; "*"].
  simpl forEach. rewrite parseAttr_required. simpl mbind.
  rewrite parseAttr_wildcard. simpl mbind.
  calc (RegExp_test hasPatternsRegExp (default "" (Some "span"))) false.
  calc (bool_decide (default "" (Some "span") = "@")) false.
  rewrite andb_false_r.
  destruct globals as [[globalAttributes|] order]; reflexivity.
Qed.

Lemma addValidElements_internal_span (st : Schema) :
  addValidElements (Some "span[!data-mce-type|*]") st =
  Normal (set_elements
            (<["span" := internalSpanRule
                           match elements st !! "@" with
                           | Some global => (attributes global, attributesOrder global)
                           | None => (None, None)
                           end]> (elements st)) st).
Proof.
  unfold addValidElements.
  calc (truthy (Some "span[!data-mce-type|*]")) (Some "span[!data-mce-type|*]").
  calc (split "span[!data-mce-type|*]" ",") ["span[!data-mce-type|*]"].
  rewrite forEach_cons, parseRule_internal_span. reflexivity.
Qed.

(** C10.  Every instance the constructor returns has a rule for the
    name [span]: [getElementRule('span')] is defined and [isValid('span')]
    is true.  When the tables built from the settings have no rule that
    matches [span], the constructor adds the rule [span[!data-mce-type|*]]
    (on top of the global attributes of an [@] rule, if there is one): its
    attribute [data-mce-type] is required and its only attribute pattern
    is the one of [*]. *)
Theorem span_rule_after_construction (settings : SchemaSettings) (st : Schema) :
  newSchema settings = Normal st →
  (∃ rule, getElementRule st "span" = Normal (Some rule)) ∧
  isValid st "span" None = Normal true ∧
  ∀ st0, configure settings = Normal st0 →
         getElementRule st0 "span" = Normal None →
         ∃ rule attrs,
           elements st = <["span" := rule]> (elements st0) ∧
           getElementRule st "span" = Normal (Some rule) ∧
           attributes rule = Some attrs ∧
           attrs !! "data-mce-type" = Some (mkAttribute true None None None) ∧
           attributesRequired rule = Some ["data-mce-type"] ∧
           attributePatterns rule = Some [mkAttributePattern emptyAttribute anyName].
Proof.
  unfold newSchema, allowInternalSpans. intros H.
  apply bind_Normal in H as (st0 & Hconf & H).
  apply bind_Normal in H as (found & Hfound & H).
  assert (∃ rule, getElementRule st "span" = Normal (Some rule)) as [rule Hrule].
  { destruct found as [rule|].
    - injection H as <-. eauto.
    - rewrite addValidElements_internal_span in H. injection H as <-.
      unfold getElementRule. simpl. rewrite lookup_insert_eq. eauto. }
  split; [eauto|]. split.
  { unfold isValid. rewrite Hrule. reflexivity. }
  intros st0' Hconf' Hnone.
  assert (st0' = st0) as -> by congruence.
  rewrite Hnone in Hfound. injection Hfound as <-.
  rewrite addValidElements_internal_span in H. injection H as <-.
  eexists _, _. split; [reflexivity|]. split.
  { unfold getElementRule. simpl. rewrite lookup_insert_eq. reflexivity. }
  split; [reflexivity|]. split; [apply lookup_insert_eq|]. split; reflexivity.
Qed.

Lemma no_span_run :
  (st0 ← configure (withValidElements "p"); rule ← getElementRule st0 "span";
   st ← newSchema (withValidElements "p");
   Normal (bool_decide (is_Some rule))) = Normal false.
Proof. vm_compute. reflexivity. Qed.

Lemma span_rule_after_construction_witness :
  ∃ st st0 rule,
    newSchema (withValidElements "p") = Normal st ∧
    configure (withValidElements "p") = Normal st0 ∧
    getElementRule st0 "span" = Normal None ∧
    getElementRule st "span" = Normal (Some rule) ∧
    isValid st "span" None = Normal true ∧
    attributesRequired rule = Some ["data-mce-type"].
Proof.
  pose proof no_span_run as H. steps H.
  destruct v0 as [rule0|]; [discriminate|].
  destruct (span_rule_after_construction (withValidElements "p") v1 Hv1)
    as (_ & Hvalid & Hadded).
  destruct (Hadded v Hv Hv0) as (rule & attrs & _ & Hrule & _ & _ & Hreq & _).
  exists v1, v, rule. repeat (split; [assumption|]). assumption.
Defined.

(** ** Queries on the instances that can arise *)

(** A rule [getElementRule] returns is an exact rule or a pattern rule of
    the instance. *)
Lemma scanPatterns_Some (patterns : list SchemaElement) (name : string) (i : nat)
    (r : SchemaElement) :
  scanPatterns patterns name i = Normal (Some r) → r ∈ patterns ∧ accepts name r = true.
Proof.
  induction i as [|i IH]; simpl; [discriminate|].
  destruct (patterns !! i) as [e|] eqn:He; [|exact IH].
  destruct (pattern e) as [p|] eqn:Hp; [|discriminate].
  destruct (RegExp_test p name) eqn:Hacc; [|exact IH].
  intros [= <-]. split; [by eapply list_elem_of_lookup_2|].
  unfold accepts. by rewrite Hp.
Qed.

Lemma getElementRule_Some (st : Schema) (name : string) (r : SchemaElement) :
  getElementRule st name = Normal (Some r) →
  elements st !! name = Some r ∨
  (elements st !! name = None ∧ r ∈ patternElements st ∧ accepts name r = true).
Proof.
  unfold getElementRule. destruct (elements st !! name) as [e|].
  - intros [= <-]. by left.
  - intros H%scanPatterns_Some. by right.
Qed.

(** X1.  On an instance the constructor or a mutator returned, the
    queries without an attribute never raise: [getElementRule(name)] and
    [isValid(name)] return for every name. *)
Theorem queries_return_on_reachable (st : Schema) (name : string) :
  reachable st →
  (∃ r, getElementRule st name = Normal r) ∧
  (∃ b, isValid st name None = Normal b).
Proof.
  intros Hst. destruct (getElementRule_total st name Hst) as [r Hr].
  split; [eauto|]. unfold isValid. rewrite Hr. destruct r; simpl; eauto.
Qed.

Lemma queries_return_on_reachable_witness :
  ∃ st, newSchema (withValidElements "p,x*") = Normal st ∧
        (∃ r, getElementRule st "xy" = Normal r) ∧
        (∃ b, isValid st "xy" None = Normal b).
Proof.
  assert (completes (newSchema (withValidElements "p,x*")) = true) as H
    by (vm_compute; reflexivity).
  apply completes_Normal in H as [st Hst].
  exists st. split; [exact Hst|].
  exact (queries_return_on_reachable st "xy" (reach_new _ _ Hst)).
Defined.

(** X2.  When the settings give [valid_elements] (or [verify_html] is
    false), every rule [getElementRule] finds on the constructed instance
    has an [attributesOrder] without duplicates that lists only keys of
    [attributes]. *)
Theorem parsed_rules_have_no_duplicates (settings : SchemaSettings) (st : Schema)
    (name : string) (rule : SchemaElement) (attrs : gmap string Attribute)
    (order : list string) :
  is_Some (truthy (if bool_decide (verify_html settings = Some false)
                   then Some "*[*]" else valid_elements settings)) →
  newSchema settings = Normal st →
  getElementRule st name = Normal (Some rule) →
  attributes rule = Some attrs →
  attributesOrder rule = Some order →
  NoDup order ∧ ∀ a, a ∈ order → is_Some (attrs !! a).
Proof.
  intros Hve Hst Hrule Hattrs Horder.
  destruct (newSchema_parsed_rules_ok settings st Hve Hst) as [Hel Hpat].
  apply getElementRule_Some in Hrule as [Hexact|(_ & Hin & _)].
  - exact (Hel name rule Hexact attrs order Hattrs Horder).
  - rewrite Forall_forall in Hpat. exact (Hpat rule Hin attrs order Hattrs Horder).
Qed.

Lemma parsed_rule_run :
  (st ← newSchema (withValidElements "@[id|class],a[href|id|class|-title|href]");
   rule ← getElementRule st "a";
   Normal (match rule with
           | Some r => (bool_decide (is_Some (attributes r)), attributesOrder r)
           | None => (false, None)
           end)) = Normal (true, Some ["id"; "class"]).
Proof. vm_compute. reflexivity. Qed.

Lemma parsed_rules_have_no_duplicates_witness :
  ∃ st rule attrs,
    newSchema (withValidElements "@[id|class],a[href|id|class|-title|href]") = Normal st ∧
    getElementRule st "a" = Normal (Some rule) ∧
    attributes rule = Some attrs ∧
    attributesOrder rule = Some ["id"; "class"] ∧
    NoDup ["id"; "class"] ∧ ∀ a, a ∈ ["id"; "class"] → is_Some (attrs !! a).
Proof.
  pose proof parsed_rule_run as H. steps H. apply Normal_inj in H.
  destruct v0 as [rule|]; [|discriminate].
  destruct (attributes rule) as [attrs|] eqn:Hattrs; [|discriminate].
  assert (attributesOrder rule = Some ["id"; "class"]) as Horder by congruence.
  exists v, rule, attrs.
  split; [exact Hv|]. split; [exact Hv0|]. split; [exact Hattrs|].
  split; [exact Horder|].
  refine (parsed_rules_have_no_duplicates
            (withValidElements "@[id|class],a[href|id|class|-title|href]")
            v "a" rule attrs _ _ Hv Hv0 Hattrs Horder).
  vm_compute. eexists. reflexivity.
Defined.

(** ** What the mutators leave alone *)

(** X3.  [addValidElements] only writes the element rules: the answers of
    [isValidChild], the block elements and the custom elements stay as
    they were. *)
Theorem addValidElements_leaves_children (validElements : option string) (st st' : Schema) :
  addValidElements validElements st = Normal st' →
  (∀ name child, isValidChild st' name child = isValidChild st name child) ∧
  getBlockElements st' = getBlockElements st ∧
  customElementsMap st' = customElementsMap st.
Proof.
  intros H%addValidElements_writes.
  split; [|split]; [intros name child| |]; rewrite H; reflexivity.
Qed.

Lemma addValidElements_leaves_children_witness :
  ∃ st st',
    newSchema (withSchema html5) = Normal st ∧
    addValidElements (Some "p[class],x-*") st = Normal st' ∧
    (∀ name child, isValidChild st' name child = isValidChild st name child) ∧
    getBlockElements st' = getBlockElements st ∧
    customElementsMap st' = customElementsMap st.
Proof.
  assert (completes (st ← newSchema (withSchema html5);
                     addValidElements (Some "p[class],x-*") st) = true) as H
    by (vm_compute; reflexivity).
  apply completes_Normal in H as [st' H]. apply bind_Normal in H as (st & Hst & H).
  exists st, st'. split; [exact Hst|]. split; [exact H|].
  exact (addValidElements_leaves_children (Some "p[class],x-*") st st' H).
Defined.

Lemma editChild_tables (prefix parentName child : string) (st st' : Schema) :
  editChild prefix parentName child st = Normal st' →
  ruleTables st' = ruleTables st ∧ children st' = children st ∧
  blockElementsMap st' = blockElementsMap st.
Proof.
  unfold editChild. intros H.
  destruct (children st !! parentName) as [l|]; [|discriminate].
  destruct (objects (heap st) !! l) as [parent|]; [|discriminate].
  destruct (bool_decide _); apply Normal_inj in H; subst st'; auto.
Qed.

Lemma addValidChildren_tables (validChildren : option string) (st st' : Schema) :
  addValidChildren validChildren st = Normal st' →
  ruleTables st' = ruleTables st ∧ blockElementsMap st' = blockElementsMap st.
Proof.
  unfold addValidChildren. intros H.
  destruct (truthy validChildren) as [vc|]; [|by apply Normal_inj in H; subst].
  revert H.
  apply (forEach_invariant
           (fun s => ruleTables s = ruleTables st ∧ blockElementsMap s = blockElementsMap st));
    [|by split].
  clear. intros rule s s' Hs H. unfold addValidChild in H.
  destruct (RegExp_exec childRuleRegExp rule) as [matches|];
    [|by apply Normal_inj in H; subst].
  revert H.
  apply (forEach_invariant
           (fun r => ruleTables r = ruleTables st ∧ blockElementsMap r = blockElementsMap st)).
  - intros child r r' [Hr Hb] H. apply editChild_tables in H as (Ht & _ & Hb').
    split; congruence.
  - destruct (bool_decide _); [|exact Hs]. by destruct (alloc _ _).
Qed.

Lemma getElementRule_tables (st st' : Schema) (name : string) :
  ruleTables st' = ruleTables st → getElementRule st' name = getElementRule st name.
Proof. unfold ruleTables, getElementRule. intros [= -> ->]. reflexivity. Qed.

Lemma isValid_tables (st st' : Schema) (name : string) (attr : option string) :
  ruleTables st' = ruleTables st → isValid st' name attr = isValid st name attr.
Proof.
  intros H. unfold isValid. by rewrite (getElementRule_tables st st' name H).
Qed.

(** X4.  [addValidChildren] only writes the children graph: afterwards
    [getElementRule] and [isValid] answer as before, and the block
    elements are the same. *)
Theorem addValidChildren_leaves_rules (validChildren : option string) (st st' : Schema) :
  addValidChildren validChildren st = Normal st' →
  (∀ name, getElementRule st' name = getElementRule st name) ∧
  (∀ name attr, isValid st' name attr = isValid st name attr) ∧
  getBlockElements st' = getBlockElements st.
Proof.
  intros [Ht Hb]%addValidChildren_tables. split; [|split].
  - intros name. by apply getElementRule_tables.
  - intros name attr. by apply isValid_tables.
  - exact Hb.
Qed.

Lemma addValidChildren_leaves_rules_witness :
  ∃ st st',
    newSchema (withSchema html5) = Normal st ∧
    addValidChildren (Some "+div[x-tag],-p[b|i],h1[em]") st = Normal st' ∧
    (∀ name, getElementRule st' name = getElementRule st name) ∧
    (∀ name attr, isValid st' name attr = isValid st name attr) ∧
    getBlockElements st' = getBlockElements st.
Proof.
  assert (completes (st ← newSchema (withSchema html5);
                     addValidChildren (Some "+div[x-tag],-p[b|i],h1[em]") st) = true) as H
    by (vm_compute; reflexivity).
  apply completes_Normal in H as [st' H]. apply bind_Normal in H as (st & Hst & H).
  exists st, st'. split; [exact Hst|]. split; [exact H|].
  exact (addValidChildren_leaves_rules (Some "+div[x-tag],-p[b|i],h1[em]") st st' H).
Defined.

(** ** Rules are added, not taken away *)

Lemma scanPatterns_rejects (patterns : list SchemaElement) (name : string) (i : nat) :
  scanPatterns patterns name i = Normal None →
  ∀ j e, (j < i)%nat → patterns !! j = Some e → accepts name e = false.
Proof.
  induction i as [|i IH]; simpl; intros H j e Hj He; [lia|].
  destruct (patterns !! i) as [e'|] eqn:He'.
  - destruct (pattern e') as [p|] eqn:Hp; [|discriminate].
    destruct (RegExp_test p name) eqn:Ht; [discriminate|].
    destruct (decide (j = i)) as [->|Hne].
    + assert (e' = e) as <- by congruence. unfold accepts. by rewrite Hp.
    + apply (IH H j e); [lia|exact He].
  - destruct (decide (j = i)) as [->|Hne]; [congruence|].
    apply (IH H j e); [lia|exact He].
Qed.

(** The scan finds a rule as soon as one pattern rule accepts the name. *)
Lemma scanPatterns_finds (patterns : list SchemaElement) (name : string) (e : SchemaElement) :
  Forall has_pattern patterns → e ∈ patterns → accepts name e = true →
  ∃ r, scanPatterns patterns name (length patterns) = Normal (Some r).
Proof.
  intros Hwf Hin Hacc.
  destruct (scanPatterns_total patterns name (length patterns) Hwf) as [[r|] Hr]; [eauto|].
  apply list_elem_of_lookup in Hin as [j Hj].
  pose proof (scanPatterns_rejects patterns name _ Hr j e (lookup_lt_Some _ _ _ Hj) Hj).
  congruence.
Qed.

Lemma isValid_name (st : Schema) (name : string) :
  isValid st name None = Normal true ↔ ∃ r, getElementRule st name = Normal (Some r).
Proof.
  unfold isValid. destruct (getElementRule st name) as [[r|]| |]; simpl; split;
    try discriminate; try (intros [r' [=]]); eauto.
Qed.

Lemma extends_refl (st : Schema) : extends st st.
Proof. split; [auto|reflexivity]. Qed.

Lemma extends_trans (st1 st2 st3 : Schema) : extends st1 st2 → extends st2 st3 → extends st1 st3.
Proof. intros [H1 P1] [H2 P2]. split; [auto|by etrans]. Qed.

Lemma parseRule_extends (rule : string) (acc acc' : Globals * Schema) :
  parseRule rule acc = Normal acc' → extends acc.2 acc'.2.
Proof.
  destruct acc as [globals st]. unfold parseRule. simpl. intros H.
  destruct (RegExp_exec elementRuleRegExp rule) as [matches|];
    [|apply Normal_inj in H; subst; apply extends_refl].
  apply bind_Normal in H as (rs & _ & H).
  destruct (RegExp_test hasPatternsRegExp _).
  - apply bind_Normal in H as (p & _ & H). apply Normal_inj in H. subst acc'. split; simpl.
    + intros n Hn. destruct (matches !! 3) as [o|]; [|exact Hn].
      apply lookup_insert_is_Some. destruct (decide (o = n)); auto.
    + by apply prefix_app_r.
  - apply Normal_inj in H. subst acc'. split; simpl; [|reflexivity].
    intros n Hn. apply lookup_insert_is_Some.
    destruct (decide (default "" (matches !! 2) = n)) as [|Hne]; [auto|right].
    split; [exact Hne|]. destruct (matches !! 3) as [o|]; [|exact Hn].
    apply lookup_insert_is_Some. destruct (decide (o = n)); auto.
Qed.

Lemma addValidElements_extends (validElements : option string) (st st' : Schema) :
  addValidElements validElements st = Normal st' → extends st st'.
Proof.
  unfold addValidElements. intros H.
  destruct (truthy validElements) as [ve|];
    [|apply Normal_inj in H; subst; apply extends_refl].
  apply bind_Normal in H as (acc & H & Hacc). apply Normal_inj in Hacc. subst st'.
  revert H. apply (forEach_invariant (fun acc => extends st acc.2)).
  - intros x s s' Hs H. eapply extends_trans; [exact Hs|]. by eapply parseRule_extends.
  - apply extends_refl.
Qed.

(** A name that has a rule keeps having one on an instance that extends
    the first. *)
Lemma extends_keeps_valid (st st' : Schema) (name : string) :
  patterns_wf st' → extends st st' →
  isValid st name None = Normal true → isValid st' name None = Normal true.
Proof.
  intros Hwf [Hkeys Hpre] [r Hr]%isValid_name. apply isValid_name.
  unfold getElementRule in *.
  destruct (elements st' !! name) as [e'|] eqn:He'; [eauto|].
  destruct (elements st !! name) as [e|] eqn:He.
  - destruct (Hkeys name) as [x Hx]; [by rewrite He|]. congruence.
  - apply scanPatterns_Some in Hr as [Hin Hacc].
    apply (scanPatterns_finds _ _ r Hwf); [|exact Hacc].
    destruct Hpre as [more ->]. apply elem_of_app. by left.
Qed.

(** X5.  [addValidElements] extends the schema: a name that is valid
    before the call is valid after it. *)
Theorem addValidElements_keeps_names_valid (validElements : option string)
    (st st' : Schema) (name : string) :
  reachable st →
  addValidElements validElements st = Normal st' →
  isValid st name None = Normal true →
  isValid st' name None = Normal true.
Proof.
  intros Hst H. apply extends_keeps_valid.
  - apply reachable_patterns_wf. by eapply reach_addValidElements.
  - by eapply addValidElements_extends.
Qed.

Lemma addValidElements_keeps_names_valid_witness :
  ∃ st st',
    newSchema (withValidElements "p,x-*") = Normal st ∧
    addValidElements (Some "x-a[id],h1") st = Normal st' ∧
    isValid st "x-a" None = Normal true ∧
    isValid st' "x-a" None = Normal true.
Proof.
  assert (completes (st ← newSchema (withValidElements "p,x-*");
                     addValidElements (Some "x-a[id],h1") st) = true) as H
    by (vm_compute; reflexivity).
  apply completes_Normal in H as [st' H]. apply bind_Normal in H as (st & Hst & H).
  assert (mapOutcome (fun st => isValid st "x-a" None)
            (newSchema (withValidElements "p,x-*")) = Normal (Normal true)) as Hv
    by (vm_compute; reflexivity).
  apply mapOutcome_Normal in Hv as (st0 & Hst0 & Hv).
  assert (st0 = st) as -> by congruence.
  exists st, st'. split; [exact Hst|]. split; [exact H|]. split; [exact Hv|].
  exact (addValidElements_keeps_names_valid (Some "x-a[id],h1") st st' "x-a"
           (reach_new _ _ Hst) H Hv).
Defined.

(** ** [verify_html: false] *)

(** The loop of [.*] runs to the end of a string without line terminators
    when the rest of the expression accepts the empty rest. *)
Lemma star_dot_loop (k : nat → string → Captures → option Captures) :
  (∀ pos c, k pos "" c = Some c) →
  ∀ (s : string) (fuel pos : nat) (c : Captures),
    singleLine s = true → (String.length s ≤ fuel)%nat →
    (fix loop (fuel : nat) (pos : nat) (s : string) (c : Captures) {struct fuel} :=
       match fuel with
       | O => k pos s c
       | S fuel' =>
           or_else
             (rmatch (Chr dot) pos s c (fun pos' s' c' =>
                if Nat.ltb (String.length s') (String.length s)
                then loop fuel' pos' s' c' else None))
             (k pos s c)
       end) fuel pos s c = Some c.
Proof.
  intros Hk. induction s as [|a s IH]; intros fuel pos c Hs Hfuel.
  - destruct fuel; simpl; apply Hk.
  - destruct fuel as [|fuel]; simpl in Hfuel; [lia|].
    unfold singleLine in Hs. simpl in Hs. apply andb_true_iff in Hs as [Ha Hs].
    cbn [rmatch cls_accepts]. rewrite Ha.
    replace (Nat.ltb (String.length s) (String.length (String a s))) with true
      by (symmetry; apply Nat.ltb_lt; simpl; lia).
    rewrite IH; [reflexivity|exact Hs|lia].
Qed.

Lemma exec_from_head (r : re) (fuel pos : nat) (s : string) (c : Captures) :
  rmatch r pos s ∅ (fun _ _ c => Some c) = Some c → exec_from r fuel pos s = Some c.
Proof. intros H. destruct fuel; simpl; by rewrite H. Qed.

(** The expression of the wild card [*] accepts every name without a line
    terminator. *)
Lemma anyName_accepts (name : string) :
  singleLine name = true → RegExp_test anyName name = true.
Proof.
  intros Hs. unfold RegExp_test, RegExp_exec. apply bool_decide_eq_true_2.
  exists ∅. apply exec_from_head. unfold anyName. cbn [rmatch].
  destruct (decide (0 = 0)%nat) as [_|]; [|done].
  apply (star_dot_loop (fun pos s c => if decide (s = "") then Some c else None));
    [reflexivity|exact Hs|lia].
Qed.

Lemma any_rule_run :
  mapOutcome (fun st => pattern <$> patternElements st)
    (addValidElements (Some "*[*]") emptySchema) = Normal [Some anyName].
Proof. vm_compute. reflexivity. Qed.

Lemma addCustomElement_tables (rule : string) (st st' : Schema) :
  addCustomElement rule st = Normal st' →
  patternElements st' = patternElements st ∧
  (∀ n e, elements st !! n = Some e → elements st' !! n = Some e).
Proof.
  unfold addCustomElement. intros H.
  destruct (RegExp_exec customElementRegExp rule) as [matches|]; [|discriminate].
  destruct (children st !! _) as [l|]; [|discriminate].
  revert H.
  apply (spliceCustom_preserves
           (fun s => patternElements s = patternElements st ∧
                     ∀ n e, elements st !! n = Some e → elements s !! n = Some e)).
  - intros s c h Hs. exact Hs.
  - intros s Hs. apply Normal_inj in Hs. subst s.
    destruct (is_str (matches !! 1) "~"); simpl;
      (destruct (elements st !! default "" (matches !! 2)) eqn:Hfound; simpl;
       [by split|split; [reflexivity|]]);
      intros n e He; (rewrite lookup_insert_ne; [exact He|congruence]).
Qed.

Lemma addCustomElements_tables (customElements : option string) (st st' : Schema) :
  addCustomElements customElements st = Normal st' →
  patternElements st' = patternElements st ∧
  (∀ n e, elements st !! n = Some e → elements st' !! n = Some e).
Proof.
  unfold addCustomElements. intros H.
  destruct (truthy customElements) as [ce|]; [|by apply Normal_inj in H; subst].
  revert H.
  apply (forEach_invariant
           (fun s => patternElements s = patternElements st ∧
                     ∀ n e, elements st !! n = Some e → elements s !! n = Some e));
    [|by split].
  intros rule s s' [Hp He] H. apply addCustomElement_tables in H as [Hp' He'].
  split; [congruence|auto].
Qed.

(** The pattern rules parsed from [valid_elements] stay at the front of
    the pattern rules through the rest of the constructor. *)
Lemma newSchema_keeps_patterns (settings : SchemaSettings) (st : Schema) (ve : string) :
  truthy (if bool_decide (verify_html settings = Some false)
          then Some "*[*]" else valid_elements settings) = Some ve →
  newSchema settings = Normal st →
  ∃ parsed, addValidElements (Some ve) emptySchema = Normal parsed ∧
            patternElements parsed `prefix_of` patternElements st.
Proof.
  unfold newSchema, configure, allowInternalSpans. intros Hve H.
  apply bind_Normal in H as (st0 & Hconf & H).
  apply bind_Normal in Hconf as (compiled & _ & Hconf).
  apply bind_Normal in Hconf as (st1 & H1 & Hconf).
  apply bind_Normal in Hconf as (st2 & H2 & Hconf).
  apply bind_Normal in Hconf as (st3 & H3 & Hconf).
  apply bind_Normal in Hconf as (st4 & H4 & Hconf).
  apply bind_Normal in Hconf as (st5 & H5 & Hconf).
  apply Normal_inj in Hconf.
  rewrite Hve in H1. rewrite setValidElements_unfold in H1.
  apply mapOutcome_Normal in H1 as (parsed & Hparsed & H1).
  exists parsed. split; [exact Hparsed|].
  assert (patternElements st1 = patternElements parsed) as E1 by (by subst st1).
  apply addCustomElements_tables in H2 as [E2 _].
  apply addValidChildren_tables in H3 as [E3 _].
  apply addValidElements_extends in H4 as [_ P4].
  apply addValidChildren_tables in H5 as [E5 _].
  assert (patternElements st0 = patternElements st5) as E0.
  { subst st0. unfold deleteInvalidElements.
    destruct (truthy (invalid_elements settings)); reflexivity. }
  assert (patternElements parsed `prefix_of` patternElements st0) as P0.
  { rewrite E0. injection E5 as _ ->. injection E3 as _ E3.
    rewrite <- E1, <- E2, <- E3. exact P4. }
  apply bind_Normal in H as (found & _ & H).
  destruct found.
  - apply Normal_inj in H. by subst st.
  - apply addValidElements_extends in H as [_ P]. by etrans.
Qed.

(** X6.  With [verify_html: false] every element name is valid: on the
    instance the constructor returns, [isValid(name)] is true for every
    name without a line terminator, whatever the other settings. *)
Theorem verify_html_false_allows_every_name (settings : SchemaSettings) (st : Schema)
    (name : string) :
  verify_html settings = Some false →
  newSchema settings = Normal st →
  singleLine name = true →
  isValid st name None = Normal true.
Proof.
  intros Hv Hst Hname.
  destruct (newSchema_keeps_patterns settings st "*[*]") as (parsed & Hparsed & Hpre);
    [by rewrite bool_decide_eq_true_2|exact Hst|].
  pose proof any_rule_run as Hrun. rewrite Hparsed in Hrun. apply Normal_inj in Hrun.
  destruct (patternElements parsed) as [|e [|? ?]] eqn:Hp; try discriminate.
  assert (pattern e = Some anyName) as He by (simpl in Hrun; congruence).
  apply isValid_name. unfold getElementRule.
  destruct (elements st !! name); [eauto|].
  apply (scanPatterns_finds _ _ e).
  - by eapply newSchema_patterns_wf.
  - destruct Hpre as [more ->]. apply elem_of_app. left. apply list_elem_of_singleton.
    reflexivity.
  - unfold accepts. rewrite He. by apply anyName_accepts.
Qed.

Lemma verify_html_false_allows_every_name_witness :
  ∃ st,
    newSchema (mkSettings (Some html4) (Some "p") (Some false) (Some "x-tag") None None
                 (Some "script") None None) = Normal st ∧
    isValid st "script" None = Normal true.
Proof.
  assert (completes (newSchema (mkSettings (Some html4) (Some "p") (Some false)
                                  (Some "x-tag") None None (Some "script") None None))
          = true) as H by (vm_compute; reflexivity).
  apply completes_Normal in H as [st Hst].
  exists st. split; [exact Hst|].
  exact (verify_html_false_allows_every_name
           (mkSettings (Some html4) (Some "p") (Some false) (Some "x-tag") None None
              (Some "script") None None)
           st "script" eq_refl Hst eq_refl).
Defined.

(** ** [setValidElements] on any instance *)

Lemma setValidElements_tables (rules : string) (st : Schema) :
  mapOutcome ruleTables (setValidElements rules st) =
  mapOutcome ruleTables (addValidElements (Some rules) emptySchema).
Proof.
  rewrite setValidElements_unfold. unfold emptySchema.
  destruct (addValidElements (Some rules) _); reflexivity.
Qed.

(** X7.  What [setValidElements(rules)] leaves in the element tables
    depends on the rule string alone, not on the instance it is called
    on: on two instances (of different schema types, with different
    earlier rules) it has the same outcome, and afterwards
    [getElementRule] and [isValid] answer alike on both. *)
Theorem setValidElements_forgets_instance (rules : string) (sta stb : Schema) :
  mapOutcome ruleTables (setValidElements rules sta) =
  mapOutcome ruleTables (setValidElements rules stb) ∧
  ∀ sta', setValidElements rules sta = Normal sta' →
    ∃ stb', setValidElements rules stb = Normal stb' ∧
      (∀ name, getElementRule sta' name = getElementRule stb' name) ∧
      (∀ name attr, isValid sta' name attr = isValid stb' name attr).
Proof.
  assert (mapOutcome ruleTables (setValidElements rules sta) =
          mapOutcome ruleTables (setValidElements rules stb)) as Heq
    by (by rewrite !setValidElements_tables).
  split; [exact Heq|]. intros sta' Ha. rewrite Ha in Heq. simpl in Heq.
  symmetry in Heq. apply mapOutcome_Normal in Heq as (stb' & Hb & Ht).
  exists stb'. split; [exact Hb|]. split.
  - intros name. symmetry. by apply getElementRule_tables.
  - intros name attr. symmetry. by apply isValid_tables.
Qed.

Lemma setValidElements_forgets_instance_witness :
  ∃ sta stb sta' stb',
    newSchema (withSchema html4) = Normal sta ∧
    newSchema (withValidElements "x*,@[id]") = Normal stb ∧
    setValidElements "a[href]" sta = Normal sta' ∧
    setValidElements "a[href]" stb = Normal stb' ∧
    (∀ name attr, isValid sta' name attr = isValid stb' name attr).
Proof.
  assert (completes (sta ← newSchema (withSchema html4);
                     setValidElements "a[href]" sta) = true) as Ha
    by (vm_compute; reflexivity).
  assert (completes (newSchema (withValidElements "x*,@[id]")) = true) as Hb
    by (vm_compute; reflexivity).
  apply completes_Normal in Ha as [sta' Ha]. apply bind_Normal in Ha as (sta & Hsta & Ha).
  apply completes_Normal in Hb as [stb Hstb].
  destruct (setValidElements_forgets_instance "a[href]" sta stb) as [_ Hsame].
  destruct (Hsame sta' Ha) as (stb' & Hb & _ & Hvalid).
  exists sta, stb, sta', stb'.
  split; [exact Hsta|]. split; [exact Hstb|]. split; [exact Ha|]. split; [exact Hb|].
  exact Hvalid.
Defined.

(** X8.  [setValidElements] seeds the children graph again from the
    schema table: afterwards the valid children of a name of the base
    grammar are those of its entry in the table, so a replacement made by
    an unprefixed [addValidChildren] rule is gone; the child sets
    themselves are not touched, and a name outside the table keeps its
    entry. *)
Theorem setValidElements_reseeds_children (rules : string) (st st' : Schema) :
  setValidElements rules st = Normal st' →
  heap st' = heap st ∧
  (∀ name item, schemaItems st !! name = Some item →
                children st' !! name = Some (item_children item)) ∧
  (∀ name, schemaItems st !! name = None → children st' !! name = children st !! name) ∧
  (∀ name child, is_Some (schemaItems st !! toLowerCase name) →
     isValidChild st' name child =
     compiledChild (heap st, schemaItems st) (toLowerCase name) (toLowerCase child)).
Proof.
  rewrite setValidElements_unfold. intros H.
  apply mapOutcome_Normal in H as (parsed & _ & <-).
  assert (∀ name item, schemaItems st !! name = Some item →
            seedChildren st !! name = Some (item_children item)) as Hseed.
  { intros name item Hitem. unfold seedChildren.
    apply lookup_union_Some_l. by rewrite lookup_fmap, Hitem. }
  split; [reflexivity|]. split; [exact Hseed|]. split.
  - intros name Hnone. simpl. unfold seedChildren.
    rewrite lookup_union_r; [reflexivity|]. by rewrite lookup_fmap, Hnone.
  - intros name child [item Hitem]. unfold isValidChild, compiledChild. simpl.
    by rewrite (Hseed _ _ Hitem), Hitem.
Qed.

Lemma setValidElements_reseeds_children_witness :
  ∃ st1 st',
    (st ← newSchema (withSchema html5); addValidChildren (Some "p[em]") st) = Normal st1 ∧
    setValidElements "p" st1 = Normal st' ∧
    heap st' = heap st1 ∧
    (∀ name item, schemaItems st1 !! name = Some item →
                  children st' !! name = Some (item_children item)).
Proof.
  assert (completes (st1 ← (st ← newSchema (withSchema html5);
                            addValidChildren (Some "p[em]") st);
                     setValidElements "p" st1) = true) as H
    by (vm_compute; reflexivity).
  apply completes_Normal in H as [st' H]. apply bind_Normal in H as (st1 & H1 & H).
  exists st1, st'. split; [exact H1|]. split; [exact H|].
  destruct (setValidElements_reseeds_children "p" st1 st' H) as (Hh & Hc & _).
  split; [exact Hh|exact Hc].
Defined.

(** ** [invalid_elements] *)





(** ** The [block_elements] setting *)

Lemma split_at_map (f : ascii → ascii) (p : ascii → bool) (s : string) :
  (∀ c, p (f c) = p c) →
  split_at p (map_string f s) = map_string f <$> split_at p s.
Proof.
  intros Hp. induction s as [|c s IH]; simpl; [reflexivity|].
  rewrite Hp, IH. destruct (p c); [reflexivity|].
  by destruct (split_at p s).
Qed.

Lemma comma_or_space_upper (c : ascii) : comma_or_space (upper_char c) = comma_or_space c.
Proof. destruct c as [[] [] [] [] [] [] [] []]; reflexivity. Qed.

Lemma map_string_empty (f : ascii → ascii) (s : string) : map_string f s = "" → s = "".
Proof. by destruct s. Qed.

Lemma makeMap_keys (items : string) (sep : ascii → bool) (map : SchemaMap) (k : string) :
  items ≠ "" →
  is_Some (makeMap (Some items) sep map !! k) ↔ k ∈ split_at sep items ∨ is_Some (map !! k).
Proof.
  intros Hne. unfold makeMap, truthy. destruct (decide (items = "")) as [|_]; [done|].
  induction (split_at sep items) as [|x l IH]; simpl.
  - split; [auto|]. intros [H|H]; [by apply elem_of_nil in H|exact H].
  - rewrite lookup_insert_is_Some, elem_of_cons, IH.
    destruct (decide (x = k)) as [->|Hxk]; intuition congruence.
Qed.

(** A lookup table given in the settings has every listed name, as it is
    written and in upper case. *)
Lemma createLookupTable_custom (value : string) (defaultValue : string)
    (extendWith : SchemaMap) (k : string) :
  value ≠ "" → k ∈ split_at comma_or_space value →
  is_Some (createLookupTable (Some value) defaultValue extendWith !! k) ∧
  is_Some (createLookupTable (Some value) defaultValue extendWith !! toUpperCase k).
Proof.
  intros Hne Hk. unfold createLookupTable, truthy.
  destruct (decide (value = "")) as [|_]; [done|].
  assert (toUpperCase value ≠ "") as Hup by (intros H%map_string_empty; done).
  split; apply makeMap_keys; try exact Hne; [by left|right].
  apply makeMap_keys; [exact Hup|left].
  unfold toUpperCase. rewrite (split_at_map _ _ _ comma_or_space_upper).
  apply list_elem_of_fmap. by exists k.
Qed.

Lemma updateRule_blockElements f n st st' :
  updateRule f n st = Normal st' → blockElementsMap st' = blockElementsMap st.
Proof.
  unfold updateRule. destruct (elements st !! n); [|discriminate].
  intros H. apply Normal_inj in H. by subst.
Qed.

Lemma updateRuleIfPresent_blockElements f n st st' :
  updateRuleIfPresent f n st = Normal st' → blockElementsMap st' = blockElementsMap st.
Proof.
  unfold updateRuleIfPresent. destruct (elements st !! n);
    intros H; apply Normal_inj in H; by subst.
Qed.

Lemma defaultElements_blockElements settings st st' :
  defaultElements settings st = Normal st' → blockElementsMap st' = blockElementsMap st.
Proof.
  unfold defaultElements. intros H.
  apply bind_Normal in H as (st1 & H1 & H).
  apply bind_Normal in H as (st2 & H2 & H).
  apply bind_Normal in H as (st3 & H3 & H).
  assert (blockElementsMap st1 = blockElementsMap st) as E1.
  { destruct (bool_decide _); [apply Normal_inj in H1; by subst|].
    apply bind_Normal in H1 as (s & Hs & H1).
    apply updateRule_blockElements in Hs, H1. simpl in Hs. congruence. }
  assert (blockElementsMap st2 = blockElementsMap st) as E2.
  { revert H2. apply (forEach_invariant (fun s => blockElementsMap s = blockElementsMap st));
      [|exact E1].
    intros x s s' Hs Hx%updateRuleIfPresent_blockElements. congruence. }
  assert (blockElementsMap st3 = blockElementsMap st) as E3.
  { revert H3. apply (forEach_invariant (fun s => blockElementsMap s = blockElementsMap st));
      [|exact E2].
    intros x s s' Hs Hx%updateRule_blockElements. congruence. }
  revert H. apply (forEach_invariant (fun s => blockElementsMap s = blockElementsMap st));
    [|exact E3].
  intros x s s' Hs Hx%updateRule_blockElements. congruence.
Qed.

(** [addCustomElements] only adds keys to the block elements. *)
Lemma addCustomElements_blockElements (customElements : option string) (st st' : Schema)
    (k : string) :
  addCustomElements customElements st = Normal st' →
  is_Some (blockElementsMap st !! k) → is_Some (blockElementsMap st' !! k).
Proof.
  unfold addCustomElements. intros H Hk.
  destruct (truthy customElements) as [ce|]; [|by apply Normal_inj in H; subst].
  revert H. apply (forEach_invariant (fun s => is_Some (blockElementsMap s !! k)));
    [|exact Hk].
  clear. intros rule st st' Hk H. unfold addCustomElement in H.
  destruct (RegExp_exec customElementRegExp rule) as [matches|]; [|discriminate].
  destruct (children st !! _) as [l|]; [|discriminate].
  revert H. apply (spliceCustom_preserves (fun s => is_Some (blockElementsMap s !! k))).
  - intros s c h Hs. exact Hs.
  - intros s Hs. apply Normal_inj in Hs. subst s.
    assert (is_Some ((<[default "" (matches !! 2) := ()]>
                        (<[toUpperCase (default "" (matches !! 2)) := ()]>
                           (blockElementsMap st))) !! k)) as Hk'.
    { apply lookup_insert_is_Some'. right. apply lookup_insert_is_Some'. by right. }
    destruct (is_str (matches !! 1) "~"); simpl;
      destruct (elements st !! default "" (matches !! 2)); simpl; assumption.
Qed.

(** X10.  Every name listed in the [block_elements] setting (separated
    by commas or spaces) is a block element of the constructed instance,
    as it is written and in upper case. *)
Theorem block_elements_in_both_cases (settings : SchemaSettings) (st : Schema)
    (value name : string) :
  newSchema settings = Normal st →
  block_elements settings = Some value → value ≠ "" →
  name ∈ split_at comma_or_space value →
  is_Some (getBlockElements st !! name) ∧
  is_Some (getBlockElements st !! toUpperCase name).
Proof.
  intros Hst Hvalue Hne Hname.
  assert (∀ k,
            is_Some (createLookupTable (Some value)
                       ("hr table tbody thead tfoot " +:+
                        "th tr td li ol ul caption dl dt dd noscript menu isindex option " +:+
                        "datalist select optgroup figcaption details summary")
                       (createLookupTable (text_block_elements settings)
                          ("h1 h2 h3 h4 h5 h6 p div address pre form " +:+
                           "blockquote center dir fieldset header footer article section hgroup aside main nav figure")
                          ∅) !! k) →
            is_Some (getBlockElements st !! k)) as Hkeep.
  { intros k Hk. unfold getBlockElements.
    unfold newSchema, configure, allowInternalSpans in Hst.
    apply bind_Normal in Hst as (st0 & Hconf & H).
    apply bind_Normal in Hconf as (compiled & _ & Hconf).
    apply bind_Normal in Hconf as (st1 & H1 & Hconf).
    apply bind_Normal in Hconf as (st2 & H2 & Hconf).
    apply bind_Normal in Hconf as (st3 & H3 & Hconf).
    apply bind_Normal in Hconf as (st4 & H4 & Hconf).
    apply bind_Normal in Hconf as (st5 & H5 & Hconf).
    apply Normal_inj in Hconf. rewrite Hvalue in H1.
    assert (is_Some (blockElementsMap st1 !! k)) as K1.
    { destruct (truthy _).
      - rewrite setValidElements_unfold in H1.
        apply mapOutcome_Normal in H1 as (parsed & _ & <-). exact Hk.
      - apply defaultElements_blockElements in H1. rewrite H1. exact Hk. }
    apply (addCustomElements_blockElements _ _ _ k H2) in K1.
    apply addValidChildren_tables in H3 as [_ E3].
    apply addValidElements_writes in H4.
    apply addValidChildren_tables in H5 as [_ E5].
    assert (is_Some (blockElementsMap st0 !! k)) as K0.
    { subst st0. unfold deleteInvalidElements.
      destruct (truthy (invalid_elements settings)); simpl; rewrite E5, H4; simpl;
        rewrite E3; exact K1. }
    apply bind_Normal in H as (found & _ & H).
    destruct found.
    - apply Normal_inj in H. by subst st.
    - apply addValidElements_writes in H. rewrite H. exact K0. }
  destruct (createLookupTable_custom value
              ("hr table tbody thead tfoot " +:+
               "th tr td li ol ul caption dl dt dd noscript menu isindex option " +:+
               "datalist select optgroup figcaption details summary")
              (createLookupTable (text_block_elements settings)
                 ("h1 h2 h3 h4 h5 h6 p div address pre form " +:+
                  "blockquote center dir fieldset header footer article section hgroup aside main nav figure")
                 ∅) name Hne Hname) as [Hlow Hup].
  split; by apply Hkeep.
Qed.

Lemma block_elements_in_both_cases_witness :
  ∃ st,
    newSchema (mkSettings None None None (Some "x-tag") None None None
                 (Some "p,section aside") None) = Normal st ∧
    is_Some (getBlockElements st !! "aside") ∧
    is_Some (getBlockElements st !! "ASIDE").
Proof.
  assert (completes (newSchema (mkSettings None None None (Some "x-tag") None None None
                                  (Some "p,section aside") None)) = true) as H
    by (vm_compute; reflexivity).
  apply completes_Normal in H as [st Hst].
  exists st. split; [exact Hst|].
  apply (block_elements_in_both_cases
           (mkSettings None None None (Some "x-tag") None None None
              (Some "p,section aside") None) st "p,section aside" "aside" Hst).
  - reflexivity.
  - intros [=].
  - vm_compute. apply list_elem_of_In. simpl. auto.
Defined.

(** ** [addValidChildren] edits child sets in place *)

Lemma isValidChild_childOf (st : Schema) (name child : string) :
  isValidChild st name child = childOf st (toLowerCase name) (toLowerCase child).
Proof. reflexivity. Qed.

Lemma editChild_childOf (prefix parentName c : string) (st st' : Schema) :
  editChild prefix parentName c st = Normal st' →
  children st' = children st ∧
  ∀ p child, children st !! p = children st !! parentName →
    childOf st' p child =
    if bool_decide (prefix = "-") then childOf st p child && negb (bool_decide (child = c))
    else childOf st p child || bool_decide (child = c).
Proof.
  unfold editChild. intros H.
  destruct (children st !! parentName) as [l|] eqn:Hl; [|discriminate].
  destruct (objects (heap st) !! l) as [parent|] eqn:Hparent; [|discriminate].
  destruct (bool_decide (prefix = "-")); apply Normal_inj in H; subst st';
    (split; [reflexivity|]); intros p child Hp; unfold childOf; simpl;
    rewrite Hp, Hparent, lookup_insert_eq.
  - destruct (decide (child = c)) as [->|Hne].
    + rewrite lookup_delete_eq, (bool_decide_eq_true_2 (c = c)) by done.
      rewrite andb_false_r. apply bool_decide_eq_false_2. by intros [? [=]].
    + rewrite lookup_delete_ne by done.
      rewrite (bool_decide_eq_false_2 (child = c)) by done. by rewrite andb_true_r.
  - destruct (decide (child = c)) as [->|Hne].
    + rewrite lookup_insert_eq, (bool_decide_eq_true_2 (c = c)) by done.
      rewrite orb_true_r. by apply bool_decide_eq_true_2.
    + rewrite lookup_insert_ne by done.
      rewrite (bool_decide_eq_false_2 (child = c)) by done. by rewrite orb_false_r.
Qed.

Lemma editChild_loop (prefix parentName : string) (kids : list string) (st st' : Schema) :
  forEach (editChild prefix parentName) kids st = Normal st' →
  children st' = children st ∧
  ∀ p child, children st !! p = children st !! parentName →
    childOf st' p child =
    if bool_decide (prefix = "-")
    then childOf st p child && negb (bool_decide (child ∈ kids))
    else childOf st p child || bool_decide (child ∈ kids).
Proof.
  revert st. induction kids as [|c kids IH]; intros st H.
  - apply Normal_inj in H. subst st'. split; [reflexivity|]. intros p child _.
    rewrite (bool_decide_eq_false_2 (child ∈ [])) by (by intros ?%elem_of_nil).
    by destruct (bool_decide (prefix = "-")), (childOf st p child).
  - rewrite forEach_cons in H. apply bind_Normal in H as (s1 & H1 & H).
    apply editChild_childOf in H1 as [Hc1 H1]. apply IH in H as [Hc H].
    split; [congruence|]. intros p child Hp.
    rewrite H by (by rewrite Hc1). rewrite H1 by exact Hp.
    assert (bool_decide (child ∈ c :: kids) =
            bool_decide (child = c) || bool_decide (child ∈ kids)) as ->.
    { destruct (decide (child = c)) as [->|Hne].
      - rewrite (bool_decide_eq_true_2 (c = c)) by done.
        apply bool_decide_eq_true_2. by left.
      - rewrite (bool_decide_eq_false_2 (child = c)) by done. simpl.
        apply bool_decide_ext. rewrite elem_of_cons. intuition congruence. }
    destruct (bool_decide (prefix = "-")), (childOf st p child), (bool_decide (child = c)),
      (bool_decide (child ∈ kids)); reflexivity.
Qed.




(** ** Custom elements in the children graph *)

Lemma compiled_wf_run (t : option SchemaType) :
  mapOutcome compiled_wf (compileSchema t) = Normal true.
Proof. destruct t as [[]|]; vm_compute; reflexivity. Qed.

Lemma compileSchema_wf (t : option SchemaType) (compiled : CompileState) :
  compileSchema t = Normal compiled →
  (∀ l, is_Some (objects compiled.1 !! l) → (l < next compiled.1)%positive) ∧
  (∀ n item, compiled.2 !! n = Some item → (item_children item < next compiled.1)%positive).
Proof.
  intros H. pose proof (compiled_wf_run t) as Hrun. rewrite H in Hrun.
  apply Normal_inj in Hrun. unfold compiled_wf in Hrun.
  apply andb_true_iff in Hrun as [Ho Hi]. rewrite forallb_forall in Ho, Hi. split.
  - intros l [o Hl]. apply Pos.ltb_lt.
    apply (Ho (l, o)). by apply list_elem_of_In, elem_of_map_to_list.
  - intros n item Hn. apply Pos.ltb_lt.
    apply (Hi (n, item)). by apply list_elem_of_In, elem_of_map_to_list.
Qed.

(** The walk over the children graph in [addCustomElements]: every set
    that has the clone source is replaced by a copy that has the new name
    as well; no set is changed in place. *)
Lemma spliceCustom_fold (cloneName name : string) (st1 st' : Schema) :
  store_wf st1 →
  map_fold (spliceCustom cloneName name) (Normal st1) (children st1) = Normal st' →
  store_wf st' ∧
  ∀ p c, childOf st' p c
         = childOf st1 p c || (bool_decide (c = name) && childOf st1 p cloneName).
Proof.
  intros (Hobj & Hchild & Hitems) Hfold.
  pose (P := fun (r : outcome Schema) (m : gmap string loc) =>
    m ⊆ children st1 → ∀ s, r = Normal s →
      schemaItems s = schemaItems st1 ∧
      (next (heap st1) ≤ next (heap s))%positive ∧
      (∀ l, is_Some (objects (heap s) !! l) → (l < next (heap s))%positive) ∧
      (∀ l, (l < next (heap st1))%positive →
            objects (heap s) !! l = objects (heap st1) !! l) ∧
      (∀ k, m !! k = None → children s !! k = children st1 !! k) ∧
      (∀ k lk, m !! k = Some lk →
         ∃ set l', objects (heap st1) !! lk = Some set ∧
                   children s !! k = Some l' ∧
                   objects (heap s) !! l'
                   = Some (if bool_decide (is_Some (set !! cloneName))
                           then <[name := ()]> set else set))).
  assert (P (map_fold (spliceCustom cloneName name) (Normal st1) (children st1))
            (children st1)) as HP.
  { apply (map_fold_weak_ind P); unfold P.
    - intros _ s Hs. apply Normal_inj in Hs. subst s.
      split; [reflexivity|]. split; [reflexivity|]. split; [exact Hobj|].
      split; [reflexivity|]. split; [reflexivity|].
      intros k lk Hk. by rewrite lookup_empty in Hk.
    - intros i x m r Hi IH Hsub s' Hs'. unfold spliceCustom in Hs'.
      apply bind_Normal in Hs' as (s & -> & Hs').
      assert (m ⊆ children st1) as Hm.
      { etrans; [|exact Hsub]. by apply insert_subseteq. }
      destruct (IH Hm s eq_refl) as (Hsi & Hnext & Hwf & Hold & Hrest & Hdone).
      assert (children st1 !! i = Some x) as Hix.
      { eapply lookup_weaken; [|exact Hsub]. apply lookup_insert_eq. }
      pose proof (Hchild i x Hix) as Hx.
      destruct (objects (heap s) !! x) as [element|] eqn:Hel; [|discriminate].
      assert (objects (heap st1) !! x = Some element) as Hel1 by (by rewrite <- Hold).
      destruct (bool_decide (is_Some (element !! cloneName))) eqn:Hhas.
      + unfold alloc in Hs'. apply Normal_inj in Hs'. subst s'. simpl.
        split; [exact Hsi|]. split; [lia|]. split.
        { intros l Hl. apply lookup_insert_is_Some in Hl as [<-|[_ Hl]]; [lia|].
          apply Hwf in Hl. lia. }
        split.
        { intros l Hl. rewrite lookup_insert_ne by lia. by apply Hold. }
        split.
        { intros k Hk. apply lookup_insert_None in Hk as [Hk Hne].
          rewrite lookup_insert_ne by done. by apply Hrest. }
        intros k lk Hk. destruct (decide (i = k)) as [<-|Hne].
        * rewrite lookup_insert_eq in Hk. assert (lk = x) as -> by congruence.
          exists element, (next (heap s)). split; [exact Hel1|].
          rewrite !lookup_insert_eq, Hhas. by split.
        * rewrite lookup_insert_ne in Hk by done.
          destruct (Hdone k lk Hk) as (set & l' & Hset & Hk' & Hl').
          exists set, l'. split; [exact Hset|].
          rewrite lookup_insert_ne by done. split; [exact Hk'|].
          rewrite lookup_insert_ne; [exact Hl'|].
          assert (l' < next (heap s))%positive by (apply Hwf; eexists; exact Hl'). lia.
      + apply Normal_inj in Hs'. subst s'.
        split; [exact Hsi|]. split; [exact Hnext|]. split; [exact Hwf|].
        split; [exact Hold|]. split.
        { intros k Hk. apply lookup_insert_None in Hk as [Hk Hne]. by apply Hrest. }
        intros k lk Hk. destruct (decide (i = k)) as [<-|Hne].
        * rewrite lookup_insert_eq in Hk. assert (lk = x) as -> by congruence.
          exists element, x. split; [exact Hel1|]. rewrite Hhas.
          split; [|exact Hel]. rewrite Hrest by exact Hi. exact Hix.
        * rewrite lookup_insert_ne in Hk by done. by apply Hdone. }
  destruct (HP (reflexivity _) st' Hfold) as (Hsi & Hnext & Hwf & Hold & Hrest & Hdone).
  split.
  - split; [exact Hwf|]. split.
    + intros p l Hp. destruct (children st1 !! p) as [lk|] eqn:Hp1.
      * destruct (Hdone p lk Hp1) as (set & l' & _ & Hp' & Hl').
        assert (Some l = Some l') as Heq by (rewrite <- Hp; exact Hp').
        injection Heq as ->. apply Hwf. eexists. exact Hl'.
      * rewrite Hrest in Hp by exact Hp1. congruence.
    + intros n item Hn. rewrite Hsi in Hn. apply Hitems in Hn. lia.
  - intros p c. unfold childOf. destruct (children st1 !! p) as [lk|] eqn:Hp1.
    + destruct (Hdone p lk Hp1) as (set & l' & Hset & Hp' & Hl').
      rewrite Hp', Hl', Hset.
      destruct (bool_decide (is_Some (set !! cloneName))); [|by rewrite andb_false_r, orb_false_r].
      rewrite andb_true_r. destruct (decide (c = name)) as [->|Hne].
      * rewrite lookup_insert_eq, (bool_decide_eq_true_2 (name = name)) by done.
        rewrite orb_true_r. by apply bool_decide_eq_true_2.
      * rewrite lookup_insert_ne by done.
        rewrite (bool_decide_eq_false_2 (c = name)) by done. by rewrite orb_false_r.
    + rewrite Hrest by exact Hp1. rewrite Hp1. by rewrite andb_false_r.
Qed.

(** The instance [addCustomElement] walks over: the one it is called on
    with the new name entered. *)
Lemma addCustomElement_walk (rule : string) (matches : Captures) (st st' : Schema) :
  RegExp_exec customElementRegExp rule = Some matches →
  addCustomElement rule st = Normal st' →
  ∃ l st1,
    children st !! (if is_str (matches !! 1) "~" then "span" else "div") = Some l ∧
    children st1 = <[default "" (matches !! 2) := l]> (children st) ∧
    heap st1 = heap st ∧ schemaItems st1 = schemaItems st ∧
    map_fold (spliceCustom (if is_str (matches !! 1) "~" then "span" else "div")
                (default "" (matches !! 2))) (Normal st1) (children st1) = Normal st'.
Proof.
  intros Hexec H. unfold addCustomElement in H. rewrite Hexec in H.
  destruct (children st !! _) as [l|] eqn:Hl; [|discriminate].
  exists l. eexists. split; [reflexivity|].
  split; [|split; [|split; [|exact H]]];
    destruct (is_str (matches !! 1) "~"); simpl;
    destruct (elements st !! default "" (matches !! 2)); reflexivity.
Qed.

Lemma addCustomElement_store_wf (rule : string) (st st' : Schema) :
  store_wf st → addCustomElement rule st = Normal st' → store_wf st'.
Proof.
  intros (Hobj & Hchild & Hitems) H.
  destruct (RegExp_exec customElementRegExp rule) as [matches|] eqn:Hexec;
    [|unfold addCustomElement in H; by rewrite Hexec in H].
  destruct (addCustomElement_walk rule matches st st' Hexec H)
    as (l & st1 & Hl & Hc1 & Hh1 & Hs1 & Hfold).
  apply spliceCustom_fold in Hfold as [Hwf _]; [exact Hwf|].
  split; [|split].
  - rewrite Hh1. exact Hobj.
  - intros p lp. rewrite Hc1, Hh1. intros Hp.
    apply lookup_insert_Some in Hp as [[_ <-]|[_ Hp]]; eauto.
  - rewrite Hs1, Hh1. exact Hitems.
Qed.

Lemma editChild_store_wf (prefix parentName child : string) (st st' : Schema) :
  store_wf st → editChild prefix parentName child st = Normal st' → store_wf st'.
Proof.
  intros (Hobj & Hchild & Hitems) H. unfold editChild in H.
  destruct (children st !! parentName) as [l|] eqn:Hl; [|discriminate].
  destruct (objects (heap st) !! l) as [parent|] eqn:Hparent; [|discriminate].
  assert (∀ o l', is_Some (<[l := o]> (objects (heap st)) !! l') →
                  (l' < next (heap st))%positive) as Hstore.
  { intros o l' Hl'. apply lookup_insert_is_Some in Hl' as [<-|[_ Hl']]; eauto. }
  destruct (bool_decide _); apply Normal_inj in H; subst st';
    (split; [apply Hstore|split; [exact Hchild|exact Hitems]]).
Qed.

Lemma addValidChildren_store_wf (validChildren : option string) (st st' : Schema) :
  store_wf st → addValidChildren validChildren st = Normal st' → store_wf st'.
Proof.
  unfold addValidChildren. intros Hwf H.
  destruct (truthy validChildren) as [vc|]; [|by apply Normal_inj in H; subst].
  revert H. apply forEach_invariant; [|exact Hwf].
  clear. intros rule st st' Hwf H. unfold addValidChild in H.
  destruct (RegExp_exec childRuleRegExp rule) as [matches|];
    [|by apply Normal_inj in H; subst].
  revert H. apply forEach_invariant.
  - intros child s s'. apply editChild_store_wf.
  - destruct (bool_decide _); [|exact Hwf].
    destruct Hwf as (Hobj & Hchild & Hitems). unfold alloc. split; [|split]; simpl.
    + intros l Hl. apply lookup_insert_is_Some in Hl as [<-|[_ Hl]]; [lia|].
      apply Hobj in Hl. lia.
    + intros p l Hp. apply lookup_insert_Some in Hp as [[_ <-]|[_ Hp]]; [lia|].
      apply Hchild in Hp. lia.
    + intros n item Hn. apply Hitems in Hn. lia.
Qed.

Lemma addCustomElements_store_wf (customElements : option string) (st st' : Schema) :
  store_wf st → addCustomElements customElements st = Normal st' → store_wf st'.
Proof.
  unfold addCustomElements. intros Hwf H.
  destruct (truthy customElements) as [ce|]; [|by apply Normal_inj in H; subst].
  revert H. apply forEach_invariant; [|exact Hwf].
  intros rule s s'. apply addCustomElement_store_wf.
Qed.

Lemma addValidElements_store_wf (validElements : option string) (st st' : Schema) :
  store_wf st → addValidElements validElements st = Normal st' → store_wf st'.
Proof. intros Hwf H%addValidElements_writes. rewrite H. exact Hwf. Qed.

Lemma seedChildren_wf (st : Schema) (p : string) (l : loc) :
  store_wf st → seedChildren st !! p = Some l → (l < next (heap st))%positive.
Proof.
  intros (_ & Hchild & Hitems) Hp. unfold seedChildren in Hp.
  apply lookup_union_Some_raw in Hp as [Hp|[_ Hp]]; [|by eapply Hchild].
  rewrite lookup_fmap in Hp. destruct (schemaItems st !! p) as [item|] eqn:Hitem; [|done].
  apply Hitems in Hitem. simpl in Hp. congruence.
Qed.

Lemma setValidElements_store_wf (validElements : string) (st st' : Schema) :
  store_wf st → setValidElements validElements st = Normal st' → store_wf st'.
Proof.
  intros Hwf H. rewrite setValidElements_unfold in H.
  apply mapOutcome_Normal in H as (parsed & _ & <-).
  split; [exact (proj1 Hwf)|]. split; [|exact (proj2 (proj2 Hwf))].
  intros p l. by apply seedChildren_wf.
Qed.

Lemma updateRule_graph f n st st' :
  updateRule f n st = Normal st' →
  heap st' = heap st ∧ children st' = children st ∧ schemaItems st' = schemaItems st.
Proof.
  unfold updateRule. destruct (elements st !! n); [|discriminate].
  intros H. apply Normal_inj in H. by subst.
Qed.

Lemma updateRuleIfPresent_graph f n st st' :
  updateRuleIfPresent f n st = Normal st' →
  heap st' = heap st ∧ children st' = children st ∧ schemaItems st' = schemaItems st.
Proof.
  unfold updateRuleIfPresent. destruct (elements st !! n);
    intros H; apply Normal_inj in H; by subst.
Qed.

Lemma defaultElements_store_wf settings st st' :
  store_wf st → defaultElements settings st = Normal st' → store_wf st'.
Proof.
  intros Hwf H. unfold defaultElements in H.
  apply bind_Normal in H as (st1 & H1 & H).
  apply bind_Normal in H as (st2 & H2 & H).
  apply bind_Normal in H as (st3 & H3 & H).
  pose (Q := fun s : Schema =>
          heap s = heap st ∧ children s = seedChildren st ∧ schemaItems s = schemaItems st).
  assert (∀ f l s s', Q s → forEach (updateRule f) l s = Normal s' → Q s') as Hloop.
  { intros f l. apply forEach_invariant.
    intros x s s' (Ha & Hb & Hc) (Ha' & Hb' & Hc')%updateRule_graph.
    unfold Q. by rewrite Ha', Hb', Hc'. }
  assert (Q st1) as Q1.
  { destruct (bool_decide _); [apply Normal_inj in H1; by subst|].
    apply bind_Normal in H1 as (s & Hs & H1).
    apply updateRule_graph in Hs as (Ha & Hb & Hc).
    apply updateRule_graph in H1 as (Ha' & Hb' & Hc').
    unfold Q. rewrite Ha', Hb', Hc', Ha, Hb, Hc. by split. }
  assert (Q st2) as Q2.
  { revert H2. apply forEach_invariant; [|exact Q1].
    intros x s s' (Ha & Hb & Hc) (Ha' & Hb' & Hc')%updateRuleIfPresent_graph.
    unfold Q. by rewrite Ha', Hb', Hc'. }
  destruct (Hloop _ _ _ _ (Hloop _ _ _ _ Q2 H3) H) as (Ha & Hb & Hc).
  split; [|split].
  - rewrite Ha. exact (proj1 Hwf).
  - intros p l. rewrite Ha, Hb. by apply seedChildren_wf.
  - rewrite Ha, Hc. exact (proj2 (proj2 Hwf)).
Qed.

Lemma newSchema_store_wf (settings : SchemaSettings) (st : Schema) :
  newSchema settings = Normal st → store_wf st.
Proof.
  unfold newSchema, configure, allowInternalSpans. intros H.
  apply bind_Normal in H as (st0 & Hconf & H).
  apply bind_Normal in Hconf as (compiled & Hcompiled & Hconf).
  apply bind_Normal in Hconf as (st1 & H1 & Hconf).
  apply bind_Normal in Hconf as (st2 & H2 & Hconf).
  apply bind_Normal in Hconf as (st3 & H3 & Hconf).
  apply bind_Normal in Hconf as (st4 & H4 & Hconf).
  apply bind_Normal in Hconf as (st5 & H5 & Hconf).
  apply Normal_inj in Hconf.
  apply compileSchema_wf in Hcompiled as [Hobj Hitems].
  assert (store_wf st1) as W1.
  { destruct (truthy _).
    - eapply setValidElements_store_wf; [|exact H1].
      split; [exact Hobj|]. split; [|exact Hitems]. intros p l. simpl.
      by rewrite lookup_empty.
    - eapply defaultElements_store_wf; [|exact H1].
      split; [exact Hobj|]. split; [|exact Hitems]. intros p l. simpl.
      by rewrite lookup_empty. }
  assert (store_wf st5) as W5.
  { eapply addValidChildren_store_wf; [|exact H5].
    eapply addValidElements_store_wf; [|exact H4].
    eapply addValidChildren_store_wf; [|exact H3].
    eapply addCustomElements_store_wf; [|exact H2]. exact W1. }
  assert (store_wf st0) as W0.
  { subst st0. unfold deleteInvalidElements.
    destruct (truthy (invalid_elements settings)); exact W5. }
  apply bind_Normal in H as (found & _ & H).
  destruct found.
  - apply Normal_inj in H. by subst st.
  - by eapply addValidElements_store_wf.
Qed.

(** On the instances that can arise every reference of the children graph
    and of the schema table is allocated below the mark of the store. *)
Lemma reachable_store_wf (st : Schema) : reachable st → store_wf st.
Proof.
  induction 1 as [settings st H | ve st st' _ IH H | ve st st' _ IH H
                 | ce st st' _ IH H | vc st st' _ IH H].
  - by eapply newSchema_store_wf.
  - by eapply addValidElements_store_wf.
  - by eapply setValidElements_store_wf.
  - by eapply addCustomElements_store_wf.
  - by eapply addValidChildren_store_wf.
Qed.

(** X12.  One rule of [addCustomElements], when it returns: the custom
    element gets the children of its clone source ([span] for a name with
    [~], [div] otherwise) and becomes a child of every parent that has
    the clone source as a child; nothing else changes in the children
    graph. *)
Theorem addCustomElement_children (rule : string) (matches : Captures) (st st' : Schema) :
  reachable st →
  RegExp_exec customElementRegExp rule = Some matches →
  addCustomElement rule st = Normal st' →
  let cloneName := if is_str (matches !! 1) "~" then "span" else "div" in
  let name := default "" (matches !! 2) in
  ∀ parent child,
    let source := if decide (parent = name) then cloneName else parent in
    childOf st' parent child
    = childOf st source child || (bool_decide (child = name) && childOf st source cloneName).
Proof.
  intros Hst Hexec H cloneName name parent child source.
  destruct (addCustomElement_walk rule matches st st' Hexec H)
    as (l & st1 & Hl & Hc1 & Hh1 & Hs1 & Hfold).
  fold cloneName name in Hl, Hc1, Hfold.
  destruct (reachable_store_wf st Hst) as (Hobj & Hchild & Hitems).
  apply spliceCustom_fold in Hfold as [_ Hfold].
  - assert (∀ c, childOf st1 parent c = childOf st source c) as Hsource.
    { intros c. unfold childOf, source. rewrite Hc1, Hh1.
      destruct (decide (parent = name)) as [->|Hne].
      - by rewrite lookup_insert_eq, Hl.
      - by rewrite lookup_insert_ne. }
    by rewrite Hfold, !Hsource.
  - split; [|split].
    + rewrite Hh1. exact Hobj.
    + intros p lp. rewrite Hc1, Hh1. intros Hp.
      apply lookup_insert_Some in Hp as [[_ <-]|[_ Hp]]; eauto.
    + rewrite Hs1, Hh1. exact Hitems.
Qed.

Lemma custom_rule_groups :
  ((fun m => (m !! 1%nat, m !! 2%nat)) <$> RegExp_exec customElementRegExp "~x-tag")
  = Some (Some "~", Some "x-tag").
Proof. vm_compute. reflexivity. Qed.

Lemma addCustomElement_children_witness :
  ∃ matches st st',
    RegExp_exec customElementRegExp "~x-tag" = Some matches ∧
    newSchema (withSchema html5) = Normal st ∧
    addCustomElement "~x-tag" st = Normal st' ∧
    (∀ child, childOf st' "p" child
              = childOf st "p" child || (bool_decide (child = "x-tag") && childOf st "p" "span")).
Proof.
  pose proof custom_rule_groups as Hg.
  destruct (RegExp_exec customElementRegExp "~x-tag") as [matches|] eqn:Hm; [|discriminate].
  simpl in Hg. apply (f_equal (default (None, None))) in Hg. simpl in Hg.
  assert (matches !! 1%nat = Some "~") as H1 by congruence.
  assert (matches !! 2%nat = Some "x-tag") as H2 by congruence.
  assert (completes (st ← newSchema (withSchema html5); addCustomElement "~x-tag" st) = true)
    as H by (vm_compute; reflexivity).
  apply completes_Normal in H as [st' H]. apply bind_Normal in H as (st & Hst & H).
  exists matches, st, st'. split; [reflexivity|]. split; [exact Hst|]. split; [exact H|].
  intros child.
  pose proof (addCustomElement_children "~x-tag" matches st st' (reach_new _ _ Hst) Hm H
                "p" child) as Hc.
  rewrite H1, H2 in Hc. exact Hc.
Defined.

Lemma editChild_frame (prefix parentName c : string) (st st' : Schema) :
  editChild prefix parentName c st = Normal st' →
  ∀ p child, children st !! p ≠ children st !! parentName →
    childOf st' p child = childOf st p child.
Proof.
  unfold editChild. intros H p child Hp.
  destruct (children st !! parentName) as [l|] eqn:Hl; [|discriminate].
  destruct (objects (heap st) !! l) as [parent|] eqn:Hparent; [|discriminate].
  destruct (bool_decide (prefix = "-")); apply Normal_inj in H; subst st';
    unfold childOf; simpl; (destruct (children st !! p) as [lp|]; [|reflexivity]);
    (rewrite lookup_insert_ne; [reflexivity|congruence]).
Qed.

Lemma editChild_loop_frame (prefix parentName : string) (kids : list string)
    (st st' : Schema) :
  forEach (editChild prefix parentName) kids st = Normal st' →
  ∀ p child, children st !! p ≠ children st !! parentName →
    childOf st' p child = childOf st p child.
Proof.
  intros H p child Hp. revert H.
  apply (forEach_invariant
           (fun s => children s = children st ∧ childOf s p child = childOf st p child));
    [|by split].
  intros c s s' [Hc Hs] H. pose proof (editChild_childOf _ _ _ _ _ H) as [Hc' _].
  split; [congruence|]. rewrite <- Hs. eapply editChild_frame; [exact H|]. by rewrite Hc.
Qed.

(** X13.  One rule of [addValidChildren] leaves the other parents alone:
    after an unprefixed rule every name other than the parent of the rule
    answers as before, and after a rule with [+] or [-] so does every
    name that does not share the child set of the parent. *)
Theorem addValidChild_leaves_other_parents (rule : string) (matches : Captures)
    (st st' : Schema) :
  reachable st →
  RegExp_exec childRuleRegExp rule = Some matches →
  addValidChild rule st = Normal st' →
  let prefix := default "" (matches !! 1) in
  let parent := default "" (matches !! 2) in
  ∀ name child,
    (if decide (prefix = "") then toLowerCase name ≠ parent
     else children st !! toLowerCase name ≠ children st !! parent) →
    isValidChild st' name child = isValidChild st name child.
Proof.
  intros Hst Hexec H prefix parent name child Hother.
  unfold addValidChild in H. rewrite Hexec in H. fold prefix parent in H.
  rewrite !isValidChild_childOf.
  destruct (decide (prefix = "")) as [Hpre|Hpre].
  - rewrite (bool_decide_eq_true_2 _ Hpre) in H.
    destruct (reachable_store_wf st Hst) as (_ & Hchild & _).
    unfold alloc in H.
    rewrite (editChild_loop_frame _ _ _ _ _ H).
    + unfold childOf. simpl. rewrite lookup_insert_ne by done.
      destruct (children st !! toLowerCase name) as [lo|] eqn:Hlo; [|reflexivity].
      apply Hchild in Hlo. rewrite lookup_insert_ne by lia. reflexivity.
    + simpl. rewrite lookup_insert_eq, lookup_insert_ne by done.
      destruct (children st !! toLowerCase name) as [lo|] eqn:Hlo; [|done].
      apply Hchild in Hlo. intros [= ->]. lia.
  - rewrite (bool_decide_eq_false_2 _ Hpre) in H.
    by apply (editChild_loop_frame _ _ _ _ _ H).
Qed.

Lemma replace_rule_groups :
  ((fun m => (m !! 1%nat, m !! 2%nat)) <$> RegExp_exec childRuleRegExp "h1[em]")
  = Some (Some "", Some "h1").
Proof. vm_compute. reflexivity. Qed.

Lemma addValidChild_leaves_other_parents_witness :
  ∃ matches st st',
    RegExp_exec childRuleRegExp "h1[em]" = Some matches ∧
    newSchema (withSchema html5) = Normal st ∧
    addValidChild "h1[em]" st = Normal st' ∧
    (∀ child, isValidChild st' "H2" child = isValidChild st "H2" child).
Proof.
  pose proof replace_rule_groups as Hg.
  destruct (RegExp_exec childRuleRegExp "h1[em]") as [matches|] eqn:Hm; [|discriminate].
  simpl in Hg. apply (f_equal (default (None, None))) in Hg. simpl in Hg.
  assert (matches !! 1%nat = Some "") as H1 by congruence.
  assert (matches !! 2%nat = Some "h1") as H2 by congruence.
  assert (completes (st ← newSchema (withSchema html5); addValidChild "h1[em]" st) = true)
    as H by (vm_compute; reflexivity).
  apply completes_Normal in H as [st' H]. apply bind_Normal in H as (st & Hst & H).
  exists matches, st, st'. split; [reflexivity|]. split; [exact Hst|]. split; [exact H|].
  intros child.
  apply (addValidChild_leaves_other_parents "h1[em]" matches st st' (reach_new _ _ Hst) Hm H).
  rewrite H1, H2. simpl. discriminate.
Defined.

(** ** Nested lists *)

(** A rule with [+] only adds to the children graph. *)
Lemma addValidChild_plus (rule : string) (matches : Captures) (st st' : Schema) :
  RegExp_exec childRuleRegExp rule = Some matches →
  matches !! 1 = Some "+" →
  addValidChild rule st = Normal st' →
  (∀ p c, childOf st p c = true → childOf st' p c = true) ∧
  (split (default "" (matches !! 3)) "|" ≠ [] →
   ∀ c, c ∈ split (default "" (matches !! 3)) "|" →
        childOf st' (default "" (matches !! 2)) c = true).
Proof.
  intros Hexec Hplus H. unfold addValidChild in H. rewrite Hexec in H.
  assert (default "" (matches !! 1) = "+") as Hpre by (by rewrite Hplus).
  rewrite Hpre in H.
  rewrite (bool_decide_eq_false_2 ("+" = "")) in H by done.
  pose proof (editChild_loop _ _ _ _ _ H) as [_ Hedit].
  rewrite (bool_decide_eq_false_2 ("+" = "-")) in Hedit by done.
  split.
  - intros p c Hc.
    destruct (decide (children st !! p = children st !! default "" (matches !! 2)))
      as [Hp|Hp].
    + rewrite Hedit by exact Hp. by rewrite Hc.
    + by rewrite (editChild_loop_frame _ _ _ _ _ H p c Hp).
  - intros _ c Hc. rewrite Hedit by reflexivity.
    rewrite (bool_decide_eq_true_2 _ Hc). apply orb_true_r.
Qed.

Lemma nesting_rules_run :
  split "+ol[ul|ol],+ul[ul|ol]" "," = ["+ol[ul|ol]"; "+ul[ul|ol]"] ∧
  ((fun m => (m !! 1%nat, m !! 2%nat, m !! 3%nat)) <$> RegExp_exec childRuleRegExp "+ol[ul|ol]")
  = Some (Some "+", Some "ol", Some "ul|ol") ∧
  ((fun m => (m !! 1%nat, m !! 2%nat, m !! 3%nat)) <$> RegExp_exec childRuleRegExp "+ul[ul|ol]")
  = Some (Some "+", Some "ul", Some "ul|ol") ∧
  split "ul|ol" "|" = ["ul"; "ol"].
Proof. vm_compute. auto. Qed.

Lemma addValidChildren_nesting (st st' : Schema) :
  addValidChildren (Some "+ol[ul|ol],+ul[ul|ol]") st = Normal st' →
  childOf st' "ol" "ul" = true ∧ childOf st' "ol" "ol" = true ∧
  childOf st' "ul" "ul" = true ∧ childOf st' "ul" "ol" = true.
Proof.
  destruct nesting_rules_run as (Hsplit & Hol & Hul & Hkids).
  unfold addValidChildren.
  calc (truthy (Some "+ol[ul|ol],+ul[ul|ol]")) (Some "+ol[ul|ol],+ul[ul|ol]").
  rewrite Hsplit, !forEach_cons. simpl forEach. intros H.
  apply bind_Normal in H as (s1 & H1 & H). apply bind_Normal in H as (s2 & H2 & H).
  apply Normal_inj in H. subst s2.
  destruct (RegExp_exec childRuleRegExp "+ol[ul|ol]") as [m1|] eqn:Hm1; [|discriminate].
  destruct (RegExp_exec childRuleRegExp "+ul[ul|ol]") as [m2|] eqn:Hm2; [|discriminate].
  simpl in Hol, Hul.
  assert (m1 !! 1%nat = Some "+" ∧ m1 !! 2%nat = Some "ol" ∧ m1 !! 3%nat = Some "ul|ol")
    as (A1 & A2 & A3) by (repeat split; congruence).
  assert (m2 !! 1%nat = Some "+" ∧ m2 !! 2%nat = Some "ul" ∧ m2 !! 3%nat = Some "ul|ol")
    as (B1 & B2 & B3) by (repeat split; congruence).
  destruct (addValidChild_plus _ m1 _ _ Hm1 A1 H1) as [_ Hadd1].
  destruct (addValidChild_plus _ m2 _ _ Hm2 B1 H2) as [Hkeep2 Hadd2].
  rewrite A2, A3 in Hadd1. rewrite B2, B3 in Hadd2. simpl in Hadd1, Hadd2.
  rewrite Hkids in Hadd1, Hadd2.
  assert (∀ c, c ∈ ["ul"; "ol"] → childOf s1 "ol" c = true) as Hol' by (by apply Hadd1).
  assert (∀ c, c ∈ ["ul"; "ol"] → childOf st' "ul" c = true) as Hul' by (by apply Hadd2).
  assert ("ul" ∈ ["ul"; "ol"]) as Iul by (apply elem_of_cons; by left).
  assert ("ol" ∈ ["ul"; "ol"]) as Iol
    by (apply elem_of_cons; right; apply elem_of_cons; by left).
  repeat split; auto.
Qed.

(** X14.  Lists nest on every instance the constructor returns: [ul] and
    [ol] are valid children of [ol] and of [ul], whatever the settings
    (the constructor adds them after it has applied [valid_children]). *)
Theorem lists_nest_after_construction (settings : SchemaSettings) (st : Schema) :
  newSchema settings = Normal st →
  isValidChild st "ol" "ul" = true ∧ isValidChild st "ol" "ol" = true ∧
  isValidChild st "ul" "ul" = true ∧ isValidChild st "ul" "ol" = true.
Proof.
  unfold newSchema, configure, allowInternalSpans. intros H.
  apply bind_Normal in H as (st0 & Hconf & H).
  apply bind_Normal in Hconf as (compiled & _ & Hconf).
  apply bind_Normal in Hconf as (st1 & _ & Hconf).
  apply bind_Normal in Hconf as (st2 & _ & Hconf).
  apply bind_Normal in Hconf as (st3 & _ & Hconf).
  apply bind_Normal in Hconf as (st4 & _ & Hconf).
  apply bind_Normal in Hconf as (st5 & H5 & Hconf).
  apply Normal_inj in Hconf. apply addValidChildren_nesting in H5.
  assert (∀ p c, childOf st p c = childOf st5 p c) as Hsame.
  { intros p c.
    assert (childOf st0 p c = childOf st5 p c) as E0.
    { subst st0. unfold deleteInvalidElements.
      by destruct (truthy (invalid_elements settings)). }
    apply bind_Normal in H as (found & _ & H).
    destruct found.
    - apply Normal_inj in H. by subst st.
    - apply addValidElements_writes in H. rewrite H. exact E0. }
  rewrite !isValidChild_childOf.
  calc (toLowerCase "ol") "ol". calc (toLowerCase "ul") "ul".
  by rewrite !Hsame.
Qed.

Lemma lists_nest_after_construction_witness :
  ∃ st,
    newSchema (mkSettings (Some html4) None None None (Some "-ol[ul|ol],ul[li]") None
                 None None None) = Normal st ∧
    isValidChild st "ol" "ul" = true ∧ isValidChild st "ul" "ol" = true.
Proof.
  assert (completes (newSchema (mkSettings (Some html4) None None None
                                  (Some "-ol[ul|ol],ul[li]") None None None None)) = true)
    as H by (vm_compute; reflexivity).
  apply completes_Normal in H as [st Hst].
  exists st. split; [exact Hst|].
  destruct (lists_nest_after_construction
              (mkSettings (Some html4) None None None (Some "-ol[ul|ol],ul[li]") None
                 None None None) st Hst) as (H1 & _ & _ & H4).
  split; [exact H1|exact H4].
Defined.

(** ** The schema types *)

Lemma keys_within_spec {A B} (m : gmap string A) (m' : gmap string B) (k : string) :
  keys_within m m' = true → is_Some (m !! k) → is_Some (m' !! k).
Proof.
  unfold keys_within. rewrite forallb_forall. intros H [x Hx].
  assert (In (k, x) (map_to_list m)) as Hin by (by apply list_elem_of_In, elem_of_map_to_list).
  apply H in Hin. by apply bool_decide_eq_true_1 in Hin.
Qed.

Lemma within_isValid (st st' : Schema) (name : string) (attr : option string) :
  plain st = true → within st st' = true →
  isValid st name attr = Normal true → isValid st' name attr = Normal true.
Proof.
  unfold plain, within. intros [Hpat Hplain]%andb_true_iff [Hrules _]%andb_true_iff.
  rewrite forallb_forall in Hplain, Hrules.
  unfold isValid, getElementRule.
  destruct (patternElements st); [|discriminate]. simpl.
  destruct (elements st !! name) as [rule|] eqn:Hrule; [simpl|discriminate].
  assert ((name, rule) ∈ map_to_list (elements st)) as Hin
    by (by apply elem_of_map_to_list).
  apply list_elem_of_In in Hin.
  pose proof (Hplain _ Hin) as Hp. pose proof (Hrules _ Hin) as Hr. simpl in Hp, Hr.
  destruct (elements st' !! name) as [rule'|]; [simpl|discriminate].
  destruct (attributes rule) as [a|]; [|discriminate].
  destruct (attributes rule') as [a'|]; [|discriminate].
  destruct (attributePatterns rule); [discriminate|].
  destruct (truthy attr) as [x|]; [|reflexivity].
  destruct (bool_decide (is_Some (a !! x))) eqn:Hx; [|discriminate].
  apply bool_decide_eq_true_1 in Hx. intros _.
  by rewrite (bool_decide_eq_true_2 _ (keys_within_spec a a' x Hr Hx)).
Qed.

Lemma within_isValidChild (st st' : Schema) (parent child : string) :
  within st st' = true →
  isValidChild st parent child = true → isValidChild st' parent child = true.
Proof.
  unfold within. intros [_ Hsets]%andb_true_iff. rewrite forallb_forall in Hsets.
  unfold isValidChild.
  destruct (children st !! toLowerCase parent) as [l|] eqn:Hl; [|discriminate].
  assert ((toLowerCase parent, l) ∈ map_to_list (children st)) as Hin
    by (by apply elem_of_map_to_list).
  apply list_elem_of_In in Hin. pose proof (Hsets _ Hin) as Hs. simpl in Hs.
  destruct (objects (heap st) !! l) as [set|]; [|discriminate].
  destruct (children st' !! toLowerCase parent) as [l'|]; [|discriminate].
  destruct (objects (heap st') !! l') as [set'|]; [|discriminate].
  intros Hc%bool_decide_eq_true_1. apply bool_decide_eq_true_2.
  by apply (keys_within_spec set set').
Qed.

Lemma strict_within_run :
  (st ← newSchema (withSchema html5_strict); st' ← newSchema (withSchema html5);
   Normal (plain st && within st st')) = Normal true.
Proof. vm_compute. reflexivity. Qed.

(** X15.  The [html5-strict] schema is a restriction of the [html5]
    schema: every element, every attribute of an element and every child
    of a parent that the instance built for [html5-strict] accepts, the
    instance built for [html5] accepts. *)
Theorem html5_strict_within_html5 (st st' : Schema) :
  newSchema (withSchema html5_strict) = Normal st →
  newSchema (withSchema html5) = Normal st' →
  (∀ name attr, isValid st name attr = Normal true → isValid st' name attr = Normal true) ∧
  (∀ parent child, isValidChild st parent child = true →
                   isValidChild st' parent child = true).
Proof.
  intros Hst Hst'. pose proof strict_within_run as Hrun.
  apply bind_Normal in Hrun as (s & Hs & Hrun).
  apply bind_Normal in Hrun as (s' & Hs' & Hrun).
  apply Normal_inj in Hrun.
  assert (s = st) as -> by (apply Normal_inj; by rewrite <- Hs, <- Hst).
  assert (s' = st') as -> by (apply Normal_inj; by rewrite <- Hs', <- Hst').
  apply andb_true_iff in Hrun as [Hplain Hwithin]. split.
  - intros name attr. by apply within_isValid.
  - intros parent child. by apply within_isValidChild.
Qed.

Lemma html5_strict_within_html5_witness :
  ∃ st st',
    newSchema (withSchema html5_strict) = Normal st ∧
    newSchema (withSchema html5) = Normal st' ∧
    (∀ name attr, isValid st name attr = Normal true → isValid st' name attr = Normal true).
Proof.
  pose proof strict_within_run as Hrun.
  apply bind_Normal in Hrun as (st & Hst & Hrun).
  apply bind_Normal in Hrun as (st' & Hst' & _).
  exists st, st'. split; [exact Hst|]. split; [exact Hst'|].
  exact (proj1 (html5_strict_within_html5 st st' Hst Hst')).
Defined.

Lemma table_wf_run (t : option SchemaType) :
  mapOutcome table_wf (compileSchema t) = Normal true.
Proof. destruct t as [[]|]; vm_compute; reflexivity. Qed.

(** X16.  In the base grammar of every schema type the order list of an
    element and its attribute mapping go together: a name is in
    [attributesOrder] exactly when it is a key of [attributes]; and the
    order list starts with the global attributes [id accesskey class dir
    lang style tabindex title role]. *)
Theorem base_grammar_attribute_order (t : option SchemaType) (compiled : CompileState)
    (name : string) (item : SchemaItem) :
  compileSchema t = Normal compiled →
  compiled.2 !! name = Some item →
  (∀ a, a ∈ item_attributesOrder item ↔ is_Some (item_attributes item !! a)) ∧
  take 9 (item_attributesOrder item) = globalNames.
Proof.
  intros Hc Hitem. pose proof (table_wf_run t) as Hrun. rewrite Hc in Hrun.
  apply Normal_inj in Hrun. unfold table_wf in Hrun. rewrite forallb_forall in Hrun.
  assert (item_wf item = true) as Hwf.
  { apply (Hrun (name, item)). by apply list_elem_of_In, elem_of_map_to_list. }
  unfold item_wf in Hwf.
  apply andb_true_iff in Hwf as [[Hkeys Hlisted]%andb_true_iff Hglobal].
  rewrite forallb_forall in Hkeys, Hlisted. split.
  - intros a. split.
    + intros Ha%list_elem_of_In. apply Hkeys in Ha. by apply bool_decide_eq_true_1 in Ha.
    + intros [x Hx].
      assert (In (a, x) (map_to_list (item_attributes item))) as Hin
        by (by apply list_elem_of_In, elem_of_map_to_list).
      apply Hlisted, existsb_exists in Hin as (b & Hb & Heq).
      apply String.eqb_eq in Heq. simpl in Heq. subst b. by apply list_elem_of_In.
  - by apply bool_decide_eq_true_1 in Hglobal.
Qed.

Lemma base_grammar_attribute_order_witness :
  ∃ compiled item,
    compileSchema (Some html4) = Normal compiled ∧
    compiled.2 !! "a" = Some item ∧
    take 9 (item_attributesOrder item) = globalNames.
Proof.
  assert (mapOutcome (fun c : CompileState => bool_decide (is_Some (c.2 !! "a")))
            (compileSchema (Some html4)) = Normal true) as H by (vm_compute; reflexivity).
  apply mapOutcome_Normal in H as (compiled & Hc & [item Hitem]%bool_decide_eq_true_1).
  exists compiled, item. split; [exact Hc|]. split; [exact Hitem|].
  exact (proj2 (base_grammar_attribute_order (Some html4) compiled "a" item Hc Hitem)).
Defined.

(** ** Substitute rules *)

(** X17.  A substitute rule [name/alias] (such as [strong/b]) is filed
    under both names as one and the same rule, whose [outputName] is
    [name]: after [addValidElements] with this rule last in the list,
    [getElementRule] returns that rule for either name. *)
Theorem substitute_rule_filed_under_both_names (validElements rule name alias : string)
    (front : list string) (matches : Captures) (st st' : Schema) :
  validElements ≠ "" →
  split validElements "," = front ++ [rule] →
  RegExp_exec elementRuleRegExp rule = Some matches →
  matches !! 2 = Some name → matches !! 3 = Some alias →
  RegExp_test hasPatternsRegExp name = false →
  addValidElements (Some validElements) st = Normal st' →
  ∃ e, getElementRule st' name = Normal (Some e) ∧
       getElementRule st' alias = Normal (Some e) ∧
       outputName e = Some name.
Proof.
  intros Hne Hsplit Hexec H2 H3 Hplain H. unfold addValidElements, truthy in H.
  destruct (decide (validElements = "")) as [|_]; [done|].
  rewrite Hsplit, forEach_app in H.
  apply bind_Normal in H as (acc' & H & Hacc). apply Normal_inj in Hacc. subst st'.
  apply bind_Normal in H as ([globals s] & _ & H).
  rewrite forEach_cons in H. apply bind_Normal in H as (acc1 & H & Hacc).
  apply Normal_inj in Hacc. subst acc1.
  unfold parseRule in H. rewrite Hexec, H2, H3 in H.
  apply bind_Normal in H as (rs & _ & H).
  change (default "" (Some name)) with name in H. rewrite Hplain in H.
  apply Normal_inj in H. subst acc'.
  eexists. unfold getElementRule. cbn [snd elements set_elements].
  rewrite lookup_insert_eq. split; [reflexivity|]. split; [|reflexivity].
  destruct (decide (name = alias)) as [->|Hna].
  - by rewrite lookup_insert_eq.
  - by rewrite lookup_insert_ne, lookup_insert_eq.
Qed.

Lemma substitute_rule_groups :
  split "em/i,strong/b" "," = ["em/i"; "strong/b"] ∧
  ((fun m => (m !! 2%nat, m !! 3%nat)) <$> RegExp_exec elementRuleRegExp "strong/b")
  = Some (Some "strong", Some "b").
Proof. vm_compute. auto. Qed.

Lemma substitute_rule_filed_under_both_names_witness :
  ∃ st' e,
    addValidElements (Some "em/i,strong/b") emptySchema = Normal st' ∧
    getElementRule st' "strong" = Normal (Some e) ∧
    getElementRule st' "b" = Normal (Some e) ∧
    outputName e = Some "strong".
Proof.
  destruct substitute_rule_groups as [Hsplit Hg].
  destruct (RegExp_exec elementRuleRegExp "strong/b") as [matches|] eqn:Hm; [|discriminate].
  simpl in Hg. assert (matches !! 2%nat = Some "strong") as H2 by congruence.
  assert (matches !! 3%nat = Some "b") as H3 by congruence.
  assert (completes (addValidElements (Some "em/i,strong/b") emptySchema) = true) as H
    by (vm_compute; reflexivity).
  apply completes_Normal in H as [st' H].
  destruct (substitute_rule_filed_under_both_names "em/i,strong/b" "strong/b" "strong" "b"
              ["em/i"] matches emptySchema st') as (e & He1 & He2 & He3);
    [discriminate|exact Hsplit|exact Hm|exact H2|exact H3|vm_compute; reflexivity|exact H|].
  exists st', e. auto.
Defined.

(** ** Wild cards in element names *)

Lemma literal_cons (c : ascii) (p : string) :
  literal (String c p) = true →
  is_syntax_char c = false ∧ Ascii.eqb c "." = false ∧ literal p = true.
Proof.
  unfold literal. simpl. intros [[H1 H2]%andb_true_iff H3]%andb_true_iff.
  by rewrite negb_true_iff in H1, H2.
Qed.

Lemma is_quantifier_syntax (c : ascii) : is_quantifier c = true → is_syntax_char c = true.
Proof. destruct c as [[] [] [] [] [] [] [] []]; vm_compute; congruence. Qed.

Lemma dot_wildcards_literal (p rest : string) :
  literal p = true → dot_wildcards (p +:+ rest) = p +:+ dot_wildcards rest.
Proof.
  induction p as [|c p IH]; simpl; [reflexivity|].
  intros (Hs & _ & Hp)%literal_cons.
  destruct (is_quantifier c) eqn:Hq; [apply is_quantifier_syntax in Hq; congruence|].
  by rewrite IH.
Qed.

(** The parser of [new RegExp] on the source of a literal name followed
    by [.*$]. *)
Lemma parse_terms_literal (p : string) (fuel : nat) :
  literal p = true → (String.length p + 2 ≤ fuel)%nat →
  parse_terms fuel (p +:+ ".*$") = Normal (lit p (Cat (Star (Chr dot)) Eol)).
Proof.
  revert fuel. induction p as [|c p IH]; intros fuel Hp Hfuel.
  - simpl in Hfuel. destruct fuel as [|[|fuel]]; [lia|lia|reflexivity].
  - simpl in Hfuel. destruct fuel as [|fuel]; [lia|].
    apply literal_cons in Hp as (Hs & Hd & Hp).
    change (String c p +:+ ".*$") with (String c (p +:+ ".*$")).
    cbn [parse_terms]. rewrite Hs.
    assert (∃ q rest, p +:+ ".*$" = String q rest ∧ is_quantifier q = false) as
      (q & rest & Heq & Hq).
    { destruct p as [|q p']; [by exists "."%char, "*$"|].
      exists q, (p' +:+ ".*$"). split; [reflexivity|].
      apply literal_cons in Hp as (Hs' & _ & _).
      destruct (is_quantifier q) eqn:Hq; [|reflexivity].
      apply is_quantifier_syntax in Hq. congruence. }
    assert (c ≠ "$"%char) as Hdollar by (intros ->; vm_compute in Hs; congruence).
    rewrite Heq, Hq, <- Heq. rewrite IH by (exact Hp || lia). simpl.
    unfold atom_of. rewrite Hd.
    destruct c as [[] [] [] [] [] [] [] []]; try reflexivity; by destruct Hdollar.
Qed.

Lemma patternToRegExp_prefix (p : string) :
  literal p = true →
  patternToRegExp (p +:+ "*") = Normal (Cat Bol (lit p (Cat (Star (Chr dot)) Eol))).
Proof.
  intros Hp. unfold patternToRegExp.
  rewrite (dot_wildcards_literal p "*" Hp).
  change (dot_wildcards "*") with ".*".
  assert ("^" +:+ (p +:+ ".*") +:+ "$" = String "^" (p +:+ ".*$")) as ->.
  { change ("^" +:+ (p +:+ ".*") +:+ "$") with (String "^" ((p +:+ ".*") +:+ "$")).
    f_equal. clear. induction p as [|c p IH]; [reflexivity|].
    change (String c ((p +:+ ".*") +:+ "$") = String c (p +:+ ".*$")). by f_equal. }
  unfold new_RegExp. rewrite parse_terms_literal; [reflexivity|exact Hp|].
  clear. induction p as [|c p IH]; simpl in *; lia.
Qed.

Lemma exec_from_anchored (r : re) (fuel pos : nat) (s : string) :
  pos ≠ 0%nat → exec_from (Cat Bol r) fuel pos s = None.
Proof.
  revert pos s. induction fuel as [|fuel IH]; intros pos s Hpos; simpl;
    (destruct (decide (pos = 0)%nat) as [|_]; [done|]); [reflexivity|].
  destruct s; [reflexivity|]. by apply IH.
Qed.

(** An expression that starts with [^] is only tried at the start of the
    string. *)
Lemma RegExp_exec_anchored (r : re) (s : string) :
  RegExp_exec (Cat Bol r) s = rmatch r 0 s ∅ (fun _ _ c => Some c).
Proof.
  unfold RegExp_exec.
  assert (rmatch (Cat Bol r) 0 s ∅ (fun _ _ c => Some c)
          = rmatch r 0 s ∅ (fun _ _ c => Some c)) as Hhead.
  { cbn [rmatch]. by destruct (decide (0 = 0)%nat). }
  destruct (String.length s) as [|fuel]; cbn [exec_from]; rewrite Hhead;
    destruct (rmatch r 0 s ∅ _) as [c|]; try reflexivity.
  destruct s; [reflexivity|]. by apply exec_from_anchored.
Qed.

Lemma rmatch_lit (p : string) (r : re) (pos : nat) (s : string) (c : Captures)
    (k : nat → string → Captures → option Captures) :
  rmatch (lit p r) pos s c k =
  match afterPrefix p s with
  | Some rest => rmatch r (pos + String.length p) rest c k
  | None => None
  end.
Proof.
  revert pos s. induction p as [|a p IH]; intros pos s.
  - simpl. by rewrite Nat.add_0_r.
  - cbn [lit rmatch afterPrefix cls_accepts]. destruct s as [|x s]; [reflexivity|].
    destruct (Ascii.eqb x a); [|reflexivity].
    rewrite IH. simpl. by rewrite Nat.add_succ_r.
Qed.

(** The loop of [.*] with the end of the string after it fails on a
    string with a line terminator. *)
Lemma star_dot_stops (k : nat → string → Captures → option Captures) :
  (∀ pos a s c, k pos (String a s) c = None) →
  ∀ (fuel : nat) (s : string) (pos : nat) (c : Captures),
    singleLine s = false →
    (fix loop (fuel : nat) (pos : nat) (s : string) (c : Captures) {struct fuel} :=
       match fuel with
       | O => k pos s c
       | S fuel' =>
           or_else
             (rmatch (Chr dot) pos s c (fun pos' s' c' =>
                if Nat.ltb (String.length s') (String.length s)
                then loop fuel' pos' s' c' else None))
             (k pos s c)
       end) fuel pos s c = None.
Proof.
  intros Hk. induction fuel as [|fuel IH]; intros s pos c Hs;
    (destruct s as [|a s]; [discriminate|]).
  - apply Hk.
  - cbn [rmatch cls_accepts]. rewrite Hk.
    unfold singleLine in Hs. simpl in Hs.
    destruct (negb (is_line_terminator a)); [|reflexivity].
    destruct (Nat.ltb _ _); [|reflexivity].
    rewrite IH; [reflexivity|exact Hs].
Qed.

Lemma rmatch_rest (pos : nat) (s : string) (c : Captures) :
  rmatch (Cat (Star (Chr dot)) Eol) pos s c (fun _ _ c => Some c)
  = if singleLine s then Some c else None.
Proof.
  cbn [rmatch]. destruct (singleLine s) eqn:Hs.
  - apply (star_dot_loop (fun pos s c => if decide (s = "") then Some c else None));
      [reflexivity|exact Hs|lia].
  - by apply (star_dot_stops (fun pos s c => if decide (s = "") then Some c else None)).
Qed.

(** X18.  A wild-card rule name made of a literal prefix and [*] (such
    as [x-*]) stands for the names that start with the prefix: the
    expression [patternToRegExp] builds for it accepts a name exactly when
    the name starts with the prefix and has no line terminator after
    it. *)
Theorem wildcard_after_prefix (p : string) :
  literal p = true →
  ∃ r, patternToRegExp (p +:+ "*") = Normal r ∧
       ∀ name, RegExp_test r name =
               match afterPrefix p name with
               | Some rest => singleLine rest
               | None => false
               end.
Proof.
  intros Hp. eexists. split; [by apply patternToRegExp_prefix|].
  intros name. unfold RegExp_test. rewrite RegExp_exec_anchored, rmatch_lit.
  destruct (afterPrefix p name) as [rest|]; [|by apply bool_decide_eq_false_2; intros [? [=]]].
  rewrite rmatch_rest. destruct (singleLine rest).
  - by apply bool_decide_eq_true_2.
  - apply bool_decide_eq_false_2. by intros [? [=]].
Qed.

Lemma wildcard_after_prefix_witness :
  ∃ r, patternToRegExp "x-*" = Normal r ∧
       RegExp_test r "x-tag" = true ∧ RegExp_test r "ax-tag" = false.
Proof.
  destruct (wildcard_after_prefix "x-" eq_refl) as (r & Hr & Hacc).
  exists r. split; [exact Hr|]. split; rewrite Hacc; reflexivity.
Defined.

(** ** Custom elements and the rules *)

Lemma addCustomElement_named (rule : string) (matches : Captures) (st st' : Schema) :
  RegExp_exec customElementRegExp rule = Some matches →
  addCustomElement rule st = Normal st' →
  is_Some (elements st' !! default "" (matches !! 2)).
Proof.
  intros Hexec H. unfold addCustomElement in H. rewrite Hexec in H.
  destruct (children st !! _) as [l|]; [|discriminate].
  revert H.
  apply (spliceCustom_preserves
           (fun s => is_Some (elements s !! default "" (matches !! 2)))).
  - intros s c h Hs. exact Hs.
  - intros s Hs. apply Normal_inj in Hs. subst s.
    destruct (is_str (matches !! 1) "~"); simpl;
      (destruct (elements st !! default "" (matches !! 2)) eqn:Hfound; simpl;
       [by rewrite Hfound|by rewrite lookup_insert_eq]).
Qed.

Lemma forEach_addCustomElement_tables (rules : list string) (st st' : Schema) :
  forEach addCustomElement rules st = Normal st' →
  patternElements st' = patternElements st ∧
  (∀ n e, elements st !! n = Some e → elements st' !! n = Some e).
Proof.
  apply (forEach_invariant
           (fun s => patternElements s = patternElements st ∧
                     ∀ n e, elements st !! n = Some e → elements s !! n = Some e));
    [|by split].
  intros rule s s' [Hp He] H. apply addCustomElement_tables in H as [Hp' He'].
  split; [congruence|auto].
Qed.

(** X19.  [addCustomElements] never replaces a rule: every exact rule of
    the instance is still returned by [getElementRule] afterwards, the
    pattern rules are the same, and every custom element of the list has
    a rule, so [isValid] is true for it. *)
Theorem addCustomElements_keeps_rules (customElements : string) (st st' : Schema) :
  customElements ≠ "" →
  addCustomElements (Some customElements) st = Normal st' →
  (∀ name e, elements st !! name = Some e → getElementRule st' name = Normal (Some e)) ∧
  patternElements st' = patternElements st ∧
  (∀ rule matches,
      rule ∈ split customElements "," →
      RegExp_exec customElementRegExp rule = Some matches →
      isValid st' (default "" (matches !! 2)) None = Normal true).
Proof.
  intros Hne H. unfold addCustomElements, truthy in H.
  destruct (decide (customElements = "")) as [|_]; [done|].
  pose proof (forEach_addCustomElement_tables _ _ _ H) as [Hpat Hkeep].
  split; [|split; [exact Hpat|]].
  - intros name e He. unfold getElementRule. by rewrite (Hkeep name e He).
  - intros rule matches Hin Hexec.
    apply list_elem_of_split in Hin as (l1 & l2 & Hsplit).
    rewrite Hsplit, forEach_app in H. apply bind_Normal in H as (s1 & _ & H).
    rewrite forEach_cons in H. apply bind_Normal in H as (s2 & H2 & H).
    destruct (addCustomElement_named rule matches s1 s2 Hexec H2) as [e He].
    apply forEach_addCustomElement_tables in H as [_ Hrest].
    apply isValid_name. exists e. unfold getElementRule. by rewrite (Hrest _ e He).
Qed.

Lemma addCustomElements_keeps_rules_witness :
  ∃ st st',
    newSchema (withSchema html5) = Normal st ∧
    addCustomElements (Some "x-tag,~p") st = Normal st' ∧
    (∀ name e, elements st !! name = Some e → getElementRule st' name = Normal (Some e)) ∧
    patternElements st' = patternElements st.
Proof.
  assert (completes (st ← newSchema (withSchema html5);
                     addCustomElements (Some "x-tag,~p") st) = true) as H
    by (vm_compute; reflexivity).
  apply completes_Normal in H as [st' H]. apply bind_Normal in H as (st & Hst & H).
  exists st, st'. split; [exact Hst|]. split; [exact H|].
  destruct (addCustomElements_keeps_rules "x-tag,~p" st st') as (Hkeep & Hpat & _);
    [discriminate|exact H|].
  split; [exact Hkeep|exact Hpat].
Defined.

(** ** The order lists under the mutators *)

(** X20.  No mutator brings a duplicate into an order list: when every
    rule of an instance has an [attributesOrder] without duplicates that
    lists keys of [attributes] only, so has every rule [getElementRule]
    returns after [addValidElements], [setValidElements],
    [addCustomElements] or [addValidChildren]. *)
Theorem mutators_keep_order_lists (st st' : Schema) :
  rules_ok st →
  (∃ rules, addValidElements rules st = Normal st') ∨
  (∃ rules, setValidElements rules st = Normal st') ∨
  (∃ rules, addCustomElements rules st = Normal st') ∨
  (∃ rules, addValidChildren rules st = Normal st') →
  ∀ name rule attrs order,
    getElementRule st' name = Normal (Some rule) →
    attributes rule = Some attrs → attributesOrder rule = Some order →
    NoDup order ∧ ∀ a, a ∈ order → is_Some (attrs !! a).
Proof.
  intros Hok Hcall.
  assert (rules_ok st') as [Hel Hpat].
  { destruct Hcall as [[r H]|[[r H]|[[r H]|[r H]]]].
    - by eapply addValidElements_rules_ok.
    - by eapply setValidElements_rules_ok.
    - by eapply addCustomElements_rules_ok.
    - by eapply addValidChildren_rules_ok. }
  intros name rule attrs order Hrule Hattrs Horder.
  apply getElementRule_Some in Hrule as [Hexact|(_ & Hin & _)].
  - exact (Hel name rule Hexact attrs order Hattrs Horder).
  - rewrite Forall_forall in Hpat. exact (Hpat rule Hin attrs order Hattrs Horder).
Qed.

Lemma order_lists_run :
  (st' ← addValidElements (Some "a[href|href|-id|title],b*[id|id]") emptySchema;
   rule ← getElementRule st' "bx";
   Normal (match rule with
           | Some r => (bool_decide (is_Some (attributes r)),
                        bool_decide (is_Some (attributesOrder r)))
           | None => (false, false)
           end)) = Normal (true, true).
Proof. vm_compute. reflexivity. Qed.

Lemma mutators_keep_order_lists_witness :
  ∃ st' rule attrs order,
    addValidElements (Some "a[href|href|-id|title],b*[id|id]") emptySchema = Normal st' ∧
    getElementRule st' "bx" = Normal (Some rule) ∧
    attributes rule = Some attrs ∧ attributesOrder rule = Some order ∧
    NoDup order.
Proof.
  pose proof order_lists_run as H. steps H. apply Normal_inj in H.
  destruct v0 as [rule|]; [|discriminate].
  destruct (attributes rule) as [attrs|] eqn:Hattrs; [|discriminate].
  destruct (attributesOrder rule) as [order|] eqn:Horder; [|discriminate].
  exists v, rule, attrs, order.
  split; [exact Hv|]. split; [exact Hv0|]. split; [exact Hattrs|]. split; [exact Horder|].
  refine (proj1 (mutators_keep_order_lists emptySchema v _ _ "bx" rule attrs order
                   Hv0 Hattrs Horder)).
  - split; [|constructor]. intros n e. unfold emptySchema. simpl. by rewrite lookup_empty.
  - left. eexists. exact Hv.
Defined.

(** ** The global rule across calls *)

(** X21.  The [@] rule of an instance carries over to later calls: in a
    call of [addValidElements] on an instance that has a rule for [@],
    every rule of the list is built by its own attribute tokens from the
    attribute mapping and the order list of that rule, wherever an [@] rule
    stands in the list, and the rule built is the one filed for the
    element name. *)
Theorem global_rule_carries_over (st0 st' : Schema) (global : SchemaElement)
    (globalAttributes : gmap string Attribute) (validElements : string)
    (front back : list string) (rule : string) (matches : Captures) :
  elements st0 !! "@" = Some global →
  attributes global = Some globalAttributes →
  validElements ≠ "" →
  split validElements "," = front ++ rule :: back →
  addValidElements (Some validElements) st0 = Normal st' →
  RegExp_exec elementRuleRegExp rule = Some matches →
  ∃ acc acc' rs e,
    forEach parseRule front ((Some globalAttributes, attributesOrder global), st0)
      = Normal acc ∧
    parseRule rule acc = Normal acc' ∧
    attrPass matches globalAttributes (default [] (attributesOrder global)) = Normal rs ∧
    filedAs (default "" (matches !! 2)) e acc'.2 ∧
    attributes e = Some (rs_attributes rs) ∧
    attributesOrder e = Some (rs_attributesOrder rs).
Proof.
  intros Hglobal Hattrs Hne Hsplit H Hm. unfold addValidElements, truthy in H.
  destruct (decide (validElements = "")) as [|_]; [done|].
  rewrite Hglobal, Hattrs, Hsplit, forEach_app in H.
  apply bind_Normal in H as (final & H & _).
  apply bind_Normal in H as (acc & Hfront & Hrest).
  rewrite forEach_cons in Hrest. apply bind_Normal in Hrest as (acc' & Hrule & _).
  assert (acc.1 = (Some globalAttributes, attributesOrder global)) as Hg.
  { apply (pass_globals_fixed front (Some globalAttributes, attributesOrder global, st0));
      [by eexists|exact Hfront]. }
  destruct acc as [g st]. simpl in Hg. subst g.
  destruct (parseRule_builds _ _ _ _ _ Hm Hrule) as (rs & e & Hpass & Hfiled & Ha & Ho & _).
  cbn [fst default from_option id] in Hpass.
  exists (Some globalAttributes, attributesOrder global, st), acc', rs, e.
  split; [exact Hfront|]. split; [exact Hrule|]. split; [exact Hpass|].
  split; [exact Hfiled|]. split; [exact Ha|exact Ho].
Qed.

Lemma carried_rule_run :
  (st0 ← addValidElements (Some "@[id|class]") emptySchema;
   st' ← addValidElements (Some "p,@[title],div[-class]") st0;
   Normal (match elements st0 !! "@" with
           | Some global => bool_decide (is_Some (attributes global))
           | None => false
           end)) = Normal true.
Proof. vm_compute. reflexivity. Qed.

Lemma global_rule_carries_over_witness :
  ∃ st0 st' global globalAttributes acc acc' rs e,
    addValidElements (Some "@[id|class]") emptySchema = Normal st0 ∧
    addValidElements (Some "p,@[title],div[-class]") st0 = Normal st' ∧
    elements st0 !! "@" = Some global ∧
    forEach parseRule ["p"; "@[title]"]
      ((Some globalAttributes, attributesOrder global), st0) = Normal acc ∧
    parseRule "div[-class]" acc = Normal acc' ∧
    attrPass (list_to_map [(2, "div"); (4, ""); (5, "-class")]%nat) globalAttributes
      (default [] (attributesOrder global)) = Normal rs ∧
    elements acc'.2 !! "div" = Some e ∧
    attributes e = Some (rs_attributes rs).
Proof.
  pose proof carried_rule_run as H.
  apply bind_Normal in H as (st0 & Hst0 & H). apply bind_Normal in H as (st' & Hst' & H).
  apply Normal_inj in H.
  destruct (elements st0 !! "@") as [global|] eqn:Hglobal; [|discriminate].
  apply bool_decide_eq_true_1 in H as [globalAttributes Hattrs].
  assert (RegExp_exec elementRuleRegExp "div[-class]" =
          Some (list_to_map [(2, "div"); (4, ""); (5, "-class")]%nat)) as Hm
    by (vm_compute; reflexivity).
  assert (split "p,@[title],div[-class]" "," = ["p"; "@[title]"] ++ "div[-class]" :: [])
    as Hsplit by (vm_compute; reflexivity).
  destruct (global_rule_carries_over st0 st' global globalAttributes
              "p,@[title],div[-class]" ["p"; "@[title]"] [] "div[-class]"
              (list_to_map [(2, "div"); (4, ""); (5, "-class")]%nat)
              Hglobal Hattrs) as (acc & acc' & rs & e & Hfront & Hrule & Hpass & Hfiled & Ha & _);
    [discriminate|exact Hsplit|exact Hst'|exact Hm|].
  exists st0, st', global, globalAttributes, acc, acc', rs, e.
  split; [exact Hst0|]. split; [exact Hst'|]. split; [exact Hglobal|].
  split; [exact Hfront|]. split; [exact Hrule|]. split; [exact Hpass|].
  split; [exact Hfiled|exact Ha].
Defined.

(** ** Splitting *)

Lemma split_at_nonempty (p : ascii → bool) (s : string) : split_at p s ≠ [].
Proof. destruct s as [|c s]; simpl; [done|]. destruct (p c); [done|]. by destruct (split_at p s). Qed.

Lemma concat_cons_char (sep : string) (c : ascii) (w : string) (ws : list string) :
  String.concat sep (String c w :: ws) = String c (String.concat sep (w :: ws)).
Proof. by destruct ws. Qed.

Lemma split_at_concat (d : ascii) (s : string) :
  String.concat (String d "") (split_at (is_char d) s) = s.
Proof.
  induction s as [|c s IH]; simpl; [reflexivity|].
  unfold is_char at 1. destruct (Ascii.eqb c d) eqn:Hc.
  - apply Ascii.eqb_eq in Hc. subst c.
    destruct (split_at (is_char d) s) as [|w ws] eqn:Hs; [by apply split_at_nonempty in Hs|].
    simpl. simpl in IH. by rewrite IH.
  - destruct (split_at (is_char d) s) as [|w ws] eqn:Hs; [by apply split_at_nonempty in Hs|].
    by rewrite concat_cons_char, IH.
Qed.

Lemma split_at_pieces (d : ascii) (s : string) :
  Forall (fun piece => mem_char d piece = false) (split_at (is_char d) s).
Proof.
  induction s as [|c s IH]; simpl; [by repeat constructor|].
  unfold is_char at 1. destruct (Ascii.eqb c d) eqn:Hc.
  - constructor; [reflexivity|exact IH].
  - destruct (split_at (is_char d) s) as [|w ws] eqn:Hs; [by apply split_at_nonempty in Hs|].
    inversion IH as [|? ? Hw Hws]; subst. constructor; [|exact Hws].
    unfold mem_char in *. simpl. by rewrite Ascii.eqb_sym, Hc.
Qed.

(** X22.  [split(items, delim)] returns no piece exactly for a blank
    string; otherwise the pieces joined with the delimiter give back the
    trimmed string, and no piece contains the delimiter. *)
Theorem split_round_trip (items : string) (delim : ascii) :
  (split items delim = [] ↔ trim items = "") ∧
  (trim items ≠ "" →
   String.concat (String delim "") (split items delim) = trim items) ∧
  Forall (fun piece => mem_char delim piece = false) (split items delim).
Proof.
  unfold split. destruct (decide (trim items = "")) as [Hblank|Hsome].
  - split; [by split|]. split; [done|constructor].
  - split; [|split].
    + split; [by intros ?%split_at_nonempty|done].
    + intros _. apply split_at_concat.
    + apply split_at_pieces.
Qed.

Lemma split_round_trip_witness :
  split "  a[href|title],b  " "," = ["a[href|title]"; "b"] ∧
  String.concat "," (split "  a[href|title],b  " ",") = trim "  a[href|title],b  ".
Proof.
  destruct (split_round_trip "  a[href|title],b  " ",") as (_ & Hjoin & _).
  split; [vm_compute; reflexivity|]. apply Hjoin. vm_compute. discriminate.
Defined.

(** ** Block custom elements *)

Lemma addCustomElement_block (rule : string) (matches : Captures) (st st' : Schema) :
  RegExp_exec customElementRegExp rule = Some matches →
  matches !! 1 ≠ Some "~" →
  addCustomElement rule st = Normal st' →
  is_Some (blockElementsMap st' !! default "" (matches !! 2)) ∧
  is_Some (blockElementsMap st' !! toUpperCase (default "" (matches !! 2))).
Proof.
  intros Hexec Hblock H. unfold addCustomElement in H. rewrite Hexec in H.
  unfold is_str in H. rewrite (bool_decide_eq_false_2 _ Hblock) in H.
  destruct (children st !! "div") as [l|]; [|discriminate].
  revert H.
  apply (spliceCustom_preserves
           (fun s => is_Some (blockElementsMap s !! default "" (matches !! 2)) ∧
                     is_Some (blockElementsMap s !! toUpperCase (default "" (matches !! 2))))).
  - intros s c h Hs. exact Hs.
  - intros s Hs. apply Normal_inj in Hs. subst s.
    assert (∀ k, k = default "" (matches !! 2) ∨ k = toUpperCase (default "" (matches !! 2)) →
              is_Some ((<[default "" (matches !! 2) := ()]>
                          (<[toUpperCase (default "" (matches !! 2)) := ()]>
                             (blockElementsMap st))) !! k)) as Hk.
    { intros k [-> | ->]; apply lookup_insert_is_Some'; [by left|right].
      apply lookup_insert_is_Some'. by left. }
    destruct (elements _ !! _); simpl; split; apply Hk; auto.
Qed.

(** X23.  A custom element given without [~] is a block element
    afterwards: [addCustomElements] enters its name in the block elements
    as it is written and in upper case, and no later rule of the list
    takes it out. *)
Theorem custom_block_elements (customElements rule : string) (matches : Captures)
    (st st' : Schema) :
  customElements ≠ "" →
  addCustomElements (Some customElements) st = Normal st' →
  rule ∈ split customElements "," →
  RegExp_exec customElementRegExp rule = Some matches →
  matches !! 1 ≠ Some "~" →
  is_Some (getBlockElements st' !! default "" (matches !! 2)) ∧
  is_Some (getBlockElements st' !! toUpperCase (default "" (matches !! 2))).
Proof.
  intros Hne H Hin Hexec Hblock. unfold addCustomElements, truthy in H.
  destruct (decide (customElements = "")) as [|_]; [done|].
  apply list_elem_of_split in Hin as (l1 & l2 & Hsplit).
  rewrite Hsplit, forEach_app in H. apply bind_Normal in H as (s1 & _ & H).
  rewrite forEach_cons in H. apply bind_Normal in H as (s2 & H2 & H).
  destruct (addCustomElement_block rule matches s1 s2 Hexec Hblock H2) as [Hlow Hup].
  assert (∀ k, is_Some (blockElementsMap s2 !! k) → is_Some (blockElementsMap st' !! k))
    as Hkeep.
  { intros k Hk. revert H.
    apply (forEach_invariant (fun s => is_Some (blockElementsMap s !! k))); [|exact Hk].
    intros r s s' Hs Hr.
    destruct (RegExp_exec customElementRegExp r) as [m|] eqn:Hm;
      [|unfold addCustomElement in Hr; by rewrite Hm in Hr].
    unfold addCustomElement in Hr. rewrite Hm in Hr.
    destruct (children s !! _) as [l|]; [|discriminate].
    revert Hr. apply (spliceCustom_preserves (fun s => is_Some (blockElementsMap s !! k))).
    - intros s0 c h Hs0. exact Hs0.
    - intros s0 Hs0. apply Normal_inj in Hs0. subst s0.
      assert (is_Some ((<[default "" (m !! 2) := ()]>
                          (<[toUpperCase (default "" (m !! 2)) := ()]>
                             (blockElementsMap s))) !! k)) as Hk'.
      { apply lookup_insert_is_Some'. right. apply lookup_insert_is_Some'. by right. }
      destruct (is_str (m !! 1) "~"); simpl;
        destruct (elements s !! default "" (m !! 2)); simpl; assumption. }
  split; by apply Hkeep.
Qed.

Lemma custom_block_rule_groups :
  split "~x-inline,x-block" "," = ["~x-inline"; "x-block"] ∧
  ((fun m => (m !! 1%nat, m !! 2%nat)) <$> RegExp_exec customElementRegExp "x-block")
  = Some (None, Some "x-block").
Proof. vm_compute. auto. Qed.

Lemma custom_block_elements_witness :
  ∃ st st',
    newSchema (withSchema html5) = Normal st ∧
    addCustomElements (Some "~x-inline,x-block") st = Normal st' ∧
    is_Some (getBlockElements st' !! "x-block") ∧
    is_Some (getBlockElements st' !! "X-BLOCK").
Proof.
  destruct custom_block_rule_groups as [Hsplit Hg].
  destruct (RegExp_exec customElementRegExp "x-block") as [matches|] eqn:Hm; [|discriminate].
  simpl in Hg. assert (matches !! 1%nat = None) as H1 by congruence.
  assert (matches !! 2%nat = Some "x-block") as H2 by congruence.
  assert (completes (st ← newSchema (withSchema html5);
                     addCustomElements (Some "~x-inline,x-block") st) = true) as H
    by (vm_compute; reflexivity).
  apply completes_Normal in H as [st' H]. apply bind_Normal in H as (st & Hst & H).
  exists st, st'. split; [exact Hst|]. split; [exact H|].
  pose proof (custom_block_elements "~x-inline,x-block" "x-block" matches st st') as Hb.
  rewrite H2 in Hb. apply Hb.
  - discriminate.
  - exact H.
  - rewrite Hsplit. apply elem_of_cons. right. apply elem_of_cons. by left.
  - exact Hm.
  - rewrite H1. discriminate.
Defined.

(** ** One call or two *)

Lemma parseRule_keeps_global_key (rule : string) (acc acc' : Globals * Schema) :
  ruleName rule ≠ Some "@" → ruleAlias rule ≠ Some "@" →
  parseRule rule acc = Normal acc' →
  elements acc'.2 !! "@" = elements acc.2 !! "@".
Proof.
  destruct acc as [globals st]. unfold ruleName, ruleAlias, parseRule. simpl.
  intros Hname Halias H.
  destruct (RegExp_exec elementRuleRegExp rule) as [matches|];
    [|apply Normal_inj in H; by subst].
  apply bind_Normal in H as (rs & _ & H).
  assert (default "" (matches !! 2) ≠ "@") as Hn
    by (destruct (matches !! 2); simpl; congruence).
  assert (∀ e (els : gmap string SchemaElement),
            match matches !! 3 with
            | Some o => <[o := e]> els
            | None => els
            end !! "@" = els !! "@") as Ho.
  { intros e els. destruct (matches !! 3) as [o|]; [|reflexivity].
    rewrite lookup_insert_ne; [reflexivity|congruence]. }
  destruct (RegExp_test hasPatternsRegExp _).
  - apply bind_Normal in H as (p & _ & H). apply Normal_inj in H. subst acc'. simpl.
    apply Ho.
  - apply Normal_inj in H. subst acc'. simpl.
    rewrite lookup_insert_ne by done. apply Ho.
Qed.

Lemma pass_keeps_global_key (rules : list string) (acc acc' : Globals * Schema) :
  Forall (fun r => ruleName r ≠ Some "@" ∧ ruleAlias r ≠ Some "@") rules →
  forEach parseRule rules acc = Normal acc' →
  elements acc'.2 !! "@" = elements acc.2 !! "@".
Proof.
  revert acc. induction rules as [|r rules IH]; intros acc Hno H; simpl in H.
  - apply Normal_inj in H. by subst.
  - apply Forall_cons in Hno as [[Hname Halias] Hno].
    apply bind_Normal in H as (acc1 & H1 & H).
    rewrite (IH acc1 Hno H). by apply (parseRule_keeps_global_key r).
Qed.

(** A pass without an [@] rule ends with the global attributes a new call
    would start from. *)
Lemma pass_keeps_globals (rules : list string) (st : Schema) (acc' : Globals * Schema) :
  Forall (fun r => ruleName r ≠ Some "@" ∧ ruleAlias r ≠ Some "@") rules →
  forEach parseRule rules (globalsOf st, st) = Normal acc' →
  acc'.1 = globalsOf acc'.2.
Proof.
  intros Hno H.
  assert (globalsOf acc'.2 = globalsOf st) as ->.
  { unfold globalsOf. by rewrite (pass_keeps_global_key _ _ _ Hno H). }
  destruct (globalsOf st) as [[ga|] go] eqn:Hg.
  - apply (pass_globals_fixed rules (Some ga, go, st)); [by eexists|exact H].
  - apply (pass_globals_unset rules go st); [|exact H].
    eapply Forall_impl; [exact Hno|]. by intros r [Hr _].
Qed.

Lemma addValidElements_pass (validElements : string) (st : Schema) :
  validElements ≠ "" →
  addValidElements (Some validElements) st =
  acc ← forEach parseRule (split validElements ",") (globalsOf st, st); Normal acc.2.
Proof.
  intros Hne. unfold addValidElements, truthy, globalsOf.
  by destruct (decide (validElements = "")).
Qed.

(** X24.  One call of [addValidElements] with a list of rules is two
    calls, with the front of the list and then with the rest, when no rule
    of the front is filed under [@]: the outcome and the instance are the
    same.  (The rest may hold an [@] rule; one in the front would be the
    global rule of the single call, while the second of two calls starts
    from whatever rule is filed under [@] last.) *)
Theorem addValidElements_in_two_calls (rules front rest : string) (st : Schema) :
  rules ≠ "" → front ≠ "" → rest ≠ "" →
  split rules "," = split front "," ++ split rest "," →
  Forall (fun r => ruleName r ≠ Some "@" ∧ ruleAlias r ≠ Some "@") (split front ",") →
  addValidElements (Some rules) st =
  st1 ← addValidElements (Some front) st; addValidElements (Some rest) st1.
Proof.
  intros Hrules Hfront Hrest Hsplit Hno.
  rewrite (addValidElements_pass rules st Hrules), (addValidElements_pass front st Hfront).
  rewrite Hsplit, forEach_app.
  destruct (forEach parseRule (split front ",") (globalsOf st, st)) as [[g1 s1]| |] eqn:H1;
    try reflexivity.
  simpl. rewrite (addValidElements_pass rest s1 Hrest).
  pose proof (pass_keeps_globals _ _ _ Hno H1) as Hg. simpl in Hg. by rewrite Hg.
Qed.

Lemma two_calls_run :
  split "p[class],h1/h2,@[id],div" "," = split "p[class],h1/h2" "," ++ split "@[id],div" "," ∧
  forallb (fun r => negb (bool_decide (ruleName r = Some "@")) &&
                    negb (bool_decide (ruleAlias r = Some "@")))
          (split "p[class],h1/h2" ",") = true.
Proof. vm_compute. auto. Qed.

Lemma addValidElements_in_two_calls_witness :
  addValidElements (Some "p[class],h1/h2,@[id],div") emptySchema =
  st1 ← addValidElements (Some "p[class],h1/h2") emptySchema;
  addValidElements (Some "@[id],div") st1.
Proof.
  destruct two_calls_run as [Hsplit Hno].
  apply addValidElements_in_two_calls; try discriminate; [exact Hsplit|].
  apply Forall_forall. intros r Hr%list_elem_of_In.
  rewrite forallb_forall in Hno. apply Hno in Hr.
  apply andb_true_iff in Hr as [Hn Ha].
  apply negb_true_iff, bool_decide_eq_false_1 in Hn.
  apply negb_true_iff, bool_decide_eq_false_1 in Ha. by split.
Defined.
